(** * Pathfinder: least-cost routing and targeted disruption

    A shallow embedding of [main.py]: the node and edge tables, the
    id-to-index dictionary, the call sequence made on the OR-Tools
    [SimpleMinCostFlow] object, the loop that rebuilds a node sequence
    from the solver's per-arc flow, and the disruption of one edge cost
    on a copy of the edge table.

    Numbers.  A [cost_eur] cell is a Python number; it is modelled as an
    exact rational ([Q]), and [int(...)] as truncation toward zero.
    Machine-level rounding of floats is outside this model.

    The solver.  [min_cost_flow.SimpleMinCostFlow] is an external
    library.  The calls that build the problem are modelled exactly;
    [solve()] is a parameter [solve : SimpleMinCostFlow -> Solution], and
    what the library documents about it is stated as the predicates
    [solver_sound] and [solver_complete] on the one problem it is asked.

    Loops.  The [while] loop of the reconstruction carries a fuel
    argument: one unit per evaluation of the loop condition;
    [OutOfFuel] stands for a run that has not finished yet.

    The run.  [load_data], [create_map] and [main] act on a process
    state: the edge tables and the folium maps as objects of a store,
    the lines printed, and the files written.  The two CSV files are
    given as parsed rows, the three draws of [random.choice] as
    arguments, and a folium map as its view and the list of elements
    added to it; how folium renders the saved file is outside this
    model. *)

From Stdlib Require Import ZArith QArith Qround Lia.
From stdpp Require Import base gmap strings list pretty.

(** ** The tables read from [nodes.csv] and [edges.csv] *)

Record NodeRow := {
  node_id : string;
  node_name : string;
  node_type : string;
  latitude : Q;
  longitude : Q
}.

Record EdgeRow := {
  source : string;
  target : string;
  cost_eur : Q
}.

(** ** Results of running a piece of the program *)

Inductive key := StrKey (s : string) | IntKey (n : nat).

Inductive exn :=
| KeyError (k : key)        (* a dict or label lookup that misses *)
| IndexError                (* list index out of range, empty choice *)
| InvalidReference.         (* a reference outside the store: no Python
                               program holds one; kept to make the
                               model total *)

Inductive outcome (A : Type) :=
| Ret (a : A)
| Raise (e : exn)
| OutOfFuel.
Arguments Ret {A} a.
Arguments Raise {A} e.
Arguments OutOfFuel {A}.

(** [int(x)] on a number: truncation toward zero. *)
Definition int (q : Q) : Z := Z.quot (Qnum q) (Z.pos (Qden q)).

(** ** [create_id_to_index_mapping] *)

(** [enumerate(node_ids)] *)
Definition enumerate {A} (l : list A) : list (nat * A) :=
  zip (seq 0 (length l)) l.

(** [{id_str: i for i, id_str in enumerate(node_ids)}]: entries are
    written in order, a later one replaces an earlier one. *)
Definition create_id_to_index_mapping (node_ids : list string)
  : gmap string nat :=
  foldl (λ d p, <[p.2 := p.1]> d) ∅ (enumerate node_ids).

(** ** The [SimpleMinCostFlow] object *)

Inductive Status :=
| NOT_SOLVED | OPTIMAL | FEASIBLE | INFEASIBLE | UNBALANCED
| BAD_RESULT | BAD_COST_RANGE.

Global Instance Status_eq_dec : EqDecision Status.
Proof. solve_decision. Defined.

Record Arc := {
  arc_tail : nat;
  arc_head : nat;
  arc_capacity : Z;
  arc_unit_cost : Z
}.

Record SimpleMinCostFlow := {
  arcs : list Arc;
  supplies : gmap nat Z
}.

Definition new_smcf : SimpleMinCostFlow := {| arcs := []; supplies := ∅ |}.

Definition add_arc_with_capacity_and_unit_cost
    (t h : nat) (cap cost : Z) (smcf : SimpleMinCostFlow)
  : SimpleMinCostFlow :=
  {| arcs := arcs smcf ++
       [{| arc_tail := t; arc_head := h;
           arc_capacity := cap; arc_unit_cost := cost |}];
     supplies := supplies smcf |}.

(** A second call on the same node replaces the first supply. *)
Definition set_node_supply (n : nat) (s : Z) (smcf : SimpleMinCostFlow)
  : SimpleMinCostFlow :=
  {| arcs := arcs smcf; supplies := <[n := s]> (supplies smcf) |}.

Definition num_arcs (smcf : SimpleMinCostFlow) : nat := length (arcs smcf).
Definition tail_of (smcf : SimpleMinCostFlow) (i : nat) : nat :=
  from_option arc_tail 0 (arcs smcf !! i).
Definition head_of (smcf : SimpleMinCostFlow) (i : nat) : nat :=
  from_option arc_head 0 (arcs smcf !! i).
Definition capacity_of (smcf : SimpleMinCostFlow) (i : nat) : Z :=
  from_option arc_capacity 0%Z (arcs smcf !! i).
Definition unit_cost_of (smcf : SimpleMinCostFlow) (i : nat) : Z :=
  from_option arc_unit_cost 0%Z (arcs smcf !! i).
Definition supply_of (smcf : SimpleMinCostFlow) (v : nat) : Z :=
  default 0%Z (supplies smcf !! v).

(** What [solve()] leaves behind: the status and the flow on each arc. *)
Record Solution := {
  status : Status;
  flow : nat → Z
}.

(** Sum of [g 0 .. g (n-1)]. *)
Fixpoint sumZ (g : nat → Z) (n : nat) : Z :=
  match n with
  | O => 0%Z
  | S k => (sumZ g k + g k)%Z
  end.

(** [optimal_cost()]: the cost of the flow found. *)
Definition flow_cost (smcf : SimpleMinCostFlow) (f : nat → Z) : Z :=
  sumZ (λ i, f i * unit_cost_of smcf i)%Z (num_arcs smcf).

Definition optimal_cost (smcf : SimpleMinCostFlow) (sol : Solution) : Z :=
  flow_cost smcf (flow sol).

(** ** The documented behaviour of the solver *)

Definition delta (a b : nat) : Z := if decide (a = b) then 1%Z else 0%Z.

(** Flow leaving [v] minus flow entering [v]. *)
Definition excess (smcf : SimpleMinCostFlow) (f : nat → Z) (v : nat) : Z :=
  sumZ (λ i, f i * (delta (tail_of smcf i) v - delta (head_of smcf i) v))%Z
       (num_arcs smcf).

Definition feasible (smcf : SimpleMinCostFlow) (f : nat → Z) : Prop :=
  (∀ i, i < num_arcs smcf → (0 ≤ f i ≤ capacity_of smcf i)%Z) ∧
  (∀ v, excess smcf f v = supply_of smcf v).

(** [OPTIMAL] is reported only with a feasible flow of least cost. *)
Definition solver_sound (smcf : SimpleMinCostFlow) (sol : Solution) : Prop :=
  status sol = OPTIMAL →
  feasible smcf (flow sol) ∧
  ∀ g, feasible smcf g → (flow_cost smcf (flow sol) ≤ flow_cost smcf g)%Z.

(** A problem that has a feasible flow is reported [OPTIMAL]. *)
Definition solver_complete (smcf : SimpleMinCostFlow) (sol : Solution) : Prop :=
  (∃ g, feasible smcf g) → status sol = OPTIMAL.

(** ** [find_optimal_path_ortools] *)

(** One turn of the loop over [edges_df.iterrows()]: the two dictionary
    lookups are evaluated before [int(...)], source first.
    [weight_column] reads the column that the argument names; [main]
    passes ['cost_eur']. *)
Definition add_edge (id_to_index : gmap string nat)
    (weight_column : EdgeRow → Q)
    (smcf : SimpleMinCostFlow) (row : EdgeRow) : exn + SimpleMinCostFlow :=
  match id_to_index !! source row with
  | None => inl (KeyError (StrKey (source row)))
  | Some u =>
      match id_to_index !! target row with
      | None => inl (KeyError (StrKey (target row)))
      | Some v =>
          inr (add_arc_with_capacity_and_unit_cost
                 u v 1 (int (weight_column row)) smcf)
      end
  end.

Fixpoint add_edges (id_to_index : gmap string nat)
    (weight_column : EdgeRow → Q)
    (rows : list EdgeRow) (smcf : SimpleMinCostFlow)
  : exn + SimpleMinCostFlow :=
  match rows with
  | [] => inr smcf
  | row :: rows' =>
      match add_edge id_to_index weight_column smcf row with
      | inl e => inl e
      | inr smcf' => add_edges id_to_index weight_column rows' smcf'
      end
  end.

(** [for i in range(smcf.num_arcs()): if smcf.tail(i) == current and
    smcf.flow(i) > 0: ... break]: the first arc index that passes. *)
Definition first_flow_arc (smcf : SimpleMinCostFlow) (sol : Solution)
    (current_node_idx : nat) : option nat :=
  snd <$> list_find
    (λ i, tail_of smcf i = current_node_idx ∧ (0 < flow sol i)%Z)
    (seq 0 (num_arcs smcf)).

(** The [while] loop. *)
Fixpoint reconstruct (node_ids : list string) (smcf : SimpleMinCostFlow)
    (sol : Solution) (end_node_id : string)
    (fuel : nat) (current_node_idx : nat) (path : list string)
  : outcome (list string) :=
  match fuel with
  | O => OutOfFuel
  | S fuel' =>
      match node_ids !! current_node_idx with
      | None => Raise IndexError
      | Some here =>
          if decide (here = end_node_id) then Ret path
          else
            match first_flow_arc smcf sol current_node_idx with
            | Some i =>
                let next_node_idx := head_of smcf i in
                match node_ids !! next_node_idx with
                | None => Raise IndexError
                | Some next_id =>
                    reconstruct node_ids smcf sol end_node_id fuel'
                      next_node_idx (path ++ [next_id])
                end
            | None =>
                reconstruct node_ids smcf sol end_node_id fuel'
                  current_node_idx path
            end
      end
  end.

(** The problem handed to [solve()], when both lookups and every arc
    insertion succeed. *)
Definition flow_problem (id_to_index : gmap string nat)
    (weight_column : EdgeRow → Q) (edges_df : list EdgeRow)
    (start_node_index end_node_index : nat) : exn + SimpleMinCostFlow :=
  match add_edges id_to_index weight_column edges_df new_smcf with
  | inl e => inl e
  | inr smcf =>
      inr (set_node_supply end_node_index (-1)
             (set_node_supply start_node_index 1 smcf))
  end.

(** [(None, None)] is [None]; [(path, total_cost)] is [Some].  The
    ERROR line printed before the early return is not modelled. *)
Definition find_optimal_path_ortools
    (solve : SimpleMinCostFlow → Solution) (fuel : nat)
    (nodes_df : list NodeRow) (edges_df : list EdgeRow)
    (start_node_id end_node_id : string)
    (weight_column : EdgeRow → Q)
  : outcome (option (list string * Z)) :=
  let node_ids := node_id <$> nodes_df in
  let id_to_index := create_id_to_index_mapping node_ids in
  match id_to_index !! start_node_id, id_to_index !! end_node_id with
  | Some start_node_index, Some end_node_index =>
      match flow_problem id_to_index weight_column edges_df
              start_node_index end_node_index with
      | inl e => Raise e
      | inr smcf =>
          let sol := solve smcf in
          if decide (status sol = OPTIMAL) then
            let total_cost := optimal_cost smcf sol in
            match reconstruct node_ids smcf sol end_node_id fuel
                    start_node_index [start_node_id] with
            | Ret path => Ret (Some (path, total_cost))
            | Raise e => Raise e
            | OutOfFuel => OutOfFuel
            end
          else Ret None
      end
  | _, _ => Ret None
  end.

(** ** [simulate_disruption] *)

(** What the function prints. *)
Inductive message :=
| WARNING_empty_path
| WARNING_path_edges_not_found
| EVENT_targeted_disruption (factor : Q) (src tgt : string).

(** Edge tables live in a store and are passed by reference, so that a
    write through one name is seen through every alias of it. *)
Record World := {
  heap : gmap nat (list EdgeRow);
  stdout : list message
}.

Definition print (m : message) (w : World) : World :=
  {| heap := heap w; stdout := stdout w ++ [m] |}.

Definition df_rows (r : nat) (w : World) : list EdgeRow :=
  default [] (heap w !! r).

(** [df.copy()]: a new table with the same rows. *)
Definition df_copy (r : nat) (w : World) : option (nat * World) :=
  match heap w !! r with
  | None => None
  | Some rows =>
      let r' := fresh (dom (heap w)) in
      Some (r', {| heap := <[r' := rows]> (heap w); stdout := stdout w |})
  end.

Definition with_cost (c : Q) (row : EdgeRow) : EdgeRow :=
  {| source := source row; target := target row; cost_eur := c |}.

(** [df.loc[i, 'cost_eur'] = c] *)
Definition df_set_cost (r i : nat) (c : Q) (w : World) : World :=
  {| heap := alter (alter (with_cost c) i) r (heap w); stdout := stdout w |}.

(** [random.choice(seq)]; [rnd] is the generator's draw. *)
Definition choice {A} (rnd : nat) (l : list A) : exn + A :=
  match l !! (rnd mod length l) with
  | Some x => inr x
  | None => inl IndexError
  end.

Definition on_path (path_edges : list (string * string)) (row : EdgeRow)
  : Prop := (source row, target row) ∈ path_edges.

Global Instance on_path_dec pe row : Decision (on_path pe row).
Proof. unfold on_path. apply _. Defined.

Definition simulate_disruption (rnd : nat) (edges_df : nat)
    (optimal_path : list string) (disruption_factor : Q) (w : World)
  : outcome nat * World :=
  match df_copy edges_df w with
  | None => (Raise InvalidReference, w)
  | Some (disrupted_edges, w) =>
      let path_edges := zip (removelast optimal_path) (tail optimal_path) in
      if decide (path_edges = []) then
        (Ret disrupted_edges, print WARNING_empty_path w)
      else
        let rows := df_rows disrupted_edges w in
        let on_path_indices :=
          fst <$> filter (λ p, on_path path_edges p.2) (enumerate rows) in
        let '(w, pool) :=
          if decide (on_path_indices = [])
          then (print WARNING_path_edges_not_found w, seq 0 (length rows))
          else (w, on_path_indices) in
        match choice rnd pool with
        | inl e => (Raise e, w)
        | inr random_index =>
            match rows !! random_index with
            | None => (Raise (KeyError (IntKey random_index)), w)
            | Some row =>
                let original_cost := cost_eur row in
                let w := df_set_cost disrupted_edges random_index
                           (original_cost * disruption_factor)%Q w in
                (Ret disrupted_edges,
                 print (EVENT_targeted_disruption disruption_factor
                          (source row) (target row)) w)
            end
        end
  end.

(** ** Walks and sums over arc indices *)

(** Sum of [g] over the entries of a list of indices. *)
Definition sum_over (W : list nat) (g : nat → Z) : Z :=
  foldr (λ j acc, g j + acc)%Z 0%Z W.

(** How often an index occurs in a list. *)
Definition count (W : list nat) (i : nat) : Z :=
  foldr (λ j acc, delta j i + acc)%Z 0%Z W.

(** [walk smcf u W v]: the arcs [W], taken in order, lead from node [u]
    to node [v]. *)
Inductive walk (smcf : SimpleMinCostFlow) : nat → list nat → nat → Prop :=
| walk_nil u : walk smcf u [] u
| walk_cons u i W v :
    i < num_arcs smcf → tail_of smcf i = u →
    walk smcf (head_of smcf i) W v → walk smcf u (i :: W) v.

(** The unit flow that sends one unit along each arc of [W]. *)
Definition along (W : list nat) : nat → Z := count W.

(** What [add_edge] makes of one row when both lookups succeed. *)
Definition arc_for (id_to_index : gmap string nat)
    (weight_column : EdgeRow → Q) (row : EdgeRow) (a : Arc) : Prop :=
  id_to_index !! source row = Some (arc_tail a) ∧
  id_to_index !! target row = Some (arc_head a) ∧
  arc_capacity a = 1%Z ∧
  arc_unit_cost a = int (weight_column row).

(** Every edge names two nodes of the node table. *)
Definition edges_resolve (id_to_index : gmap string nat)
    (edges_df : list EdgeRow) : Prop :=
  ∀ row, row ∈ edges_df →
    is_Some (id_to_index !! source row) ∧ is_Some (id_to_index !! target row).

(** An index that the dictionary gives out for some id. *)
Definition resolved (node_ids : list string) (x : nat) : Prop :=
  ∃ a, create_id_to_index_mapping node_ids !! a = Some x.

(** The node sequence that the loop has built after taking the arcs [W]. *)
Definition path_of (node_ids : list string) (smcf : SimpleMinCostFlow)
    (start_node_id : string) (W : list nat) : list string :=
  start_node_id ::
    ((λ i, default EmptyString (node_ids !! head_of smcf i)) <$> W).

(** ** Routes through the edge table *)

(** [route edges_df a R b]: the rows at the positions [R], taken in
    order, lead from the node id [a] to the node id [b]. *)
Inductive route (edges_df : list EdgeRow) : string → list nat → string → Prop :=
| route_nil a : route edges_df a [] a
| route_cons a i row R b :
    edges_df !! i = Some row → source row = a →
    route edges_df (target row) R b → route edges_df a (i :: R) b.

(** The node ids met along a route that starts at [a]. *)
Definition route_nodes (edges_df : list EdgeRow) (a : string)
    (R : list nat) : list string :=
  a :: ((λ i, from_option target EmptyString (edges_df !! i)) <$> R).

(** The cost of a route as the solver counts it: each edge at the
    integer value of its weight. *)
Definition route_cost (weight_column : EdgeRow → Q)
    (edges_df : list EdgeRow) (R : list nat) : Z :=
  sum_over R
    (λ i, from_option (λ row, int (weight_column row)) 0%Z (edges_df !! i)).

(** The exact sum of the weights along a route. *)
Definition route_cost_exact (weight_column : EdgeRow → Q)
    (edges_df : list EdgeRow) (R : list nat) : Q :=
  foldr (λ i acc, (from_option weight_column 0 (edges_df !! i) + acc)%Q)
        0%Q R.

(** The problem that [find_optimal_path_ortools] hands to [solve()]. *)
Definition problem_of (nodes_df : list NodeRow) (edges_df : list EdgeRow)
    (start_node_id end_node_id : string) (weight_column : EdgeRow → Q)
  : option SimpleMinCostFlow :=
  let id_to_index := create_id_to_index_mapping (node_id <$> nodes_df) in
  match id_to_index !! start_node_id, id_to_index !! end_node_id with
  | Some start_node_index, Some end_node_index =>
      match flow_problem id_to_index weight_column edges_df
              start_node_index end_node_index with
      | inr smcf => Some smcf
      | inl _ => None
      end
  | _, _ => None
  end.

(** The solver keeps its contract on the problem of this call. *)
Definition sound_on (solve : SimpleMinCostFlow → Solution)
    (nodes_df : list NodeRow) (edges_df : list EdgeRow)
    (start_node_id end_node_id : string) (weight_column : EdgeRow → Q)
  : Prop :=
  ∀ smcf,
    problem_of nodes_df edges_df start_node_id end_node_id weight_column
    = Some smcf →
    solver_sound smcf (solve smcf).

Definition complete_on (solve : SimpleMinCostFlow → Solution)
    (nodes_df : list NodeRow) (edges_df : list EdgeRow)
    (start_node_id end_node_id : string) (weight_column : EdgeRow → Q)
  : Prop :=
  ∀ smcf,
    problem_of nodes_df edges_df start_node_id end_node_id weight_column
    = Some smcf →
    solver_complete smcf (solve smcf).

(** ** Concrete graphs and solvers *)

(** The scenario of the specification: supplier S, hubs A and B,
    market M; S to A and A to M cost 5, S to B and B to M cost 3. *)
Definition mk_node (i t : string) : NodeRow :=
  {| node_id := i; node_name := i; node_type := t;
     latitude := 0; longitude := 0 |}.

Definition demo_nodes : list NodeRow :=
  [mk_node "S" "supplier"; mk_node "A" "hub";
   mk_node "B" "hub"; mk_node "M" "market"].

Definition demo_edges : list EdgeRow :=
  [{| source := "S"; target := "A"; cost_eur := 5 |};
   {| source := "A"; target := "M"; cost_eur := 5 |};
   {| source := "S"; target := "B"; cost_eur := 3 |};
   {| source := "B"; target := "M"; cost_eur := 3 |}].

(** The scenario's edge table after the edge B to M was disrupted by
    the factor 10. *)
Definition demo_edges_disrupted : list EdgeRow :=
  [{| source := "S"; target := "A"; cost_eur := 5 |};
   {| source := "A"; target := "M"; cost_eur := 5 |};
   {| source := "S"; target := "B"; cost_eur := 3 |};
   {| source := "B"; target := "M"; cost_eur := 30 |}].

(** A solver for the scenario above and for its disrupted variant: it
    sends the unit along S, B, M while the last edge costs 3 and along
    S, A, M otherwise. *)
Definition demo_solve (smcf : SimpleMinCostFlow) : Solution :=
  {| status := OPTIMAL;
     flow := λ i,
       if decide (unit_cost_of smcf 3 = 3%Z)
       then (if decide (2 ≤ i) then 1%Z else 0%Z)
       else (if decide (i < 2) then 1%Z else 0%Z) |}.

(** The problem built from the scenario for the route from S to M. *)
Definition demo_smcf : SimpleMinCostFlow :=
  set_node_supply 3 (-1)
    (set_node_supply 0 1
       (add_arc_with_capacity_and_unit_cost 2 3 1 3
          (add_arc_with_capacity_and_unit_cost 0 2 1 3
             (add_arc_with_capacity_and_unit_cost 1 3 1 5
                (add_arc_with_capacity_and_unit_cost 0 1 1 5 new_smcf))))).

(** A store that holds the scenario's edge table under reference 0. *)
Definition demo_world : World :=
  {| heap := {[0 := demo_edges]}; stdout := [] |}.

(** The store after the disruption of the scenario. *)
Definition demo_world_disrupted : World :=
  {| heap := <[1 := demo_edges_disrupted]> {[0 := demo_edges]};
     stdout := [EVENT_targeted_disruption 10 "B" "M"] |}.

(** A graph with a single edge, and the solver that fills every arc. *)
Definition pair_nodes : list NodeRow :=
  [mk_node "S" "supplier"; mk_node "M" "market"].

Definition pair_edges (c : Q) : list EdgeRow :=
  [{| source := "S"; target := "M"; cost_eur := c |}].

Definition unit_solve (smcf : SimpleMinCostFlow) : Solution :=
  {| status := OPTIMAL; flow := λ _, 1%Z |}.

(** A solver that reports every problem as unbalanced. *)
Definition refusing_solve (smcf : SimpleMinCostFlow) : Solution :=
  {| status := UNBALANCED; flow := λ _, 0%Z |}.

(** The problem of the single edge of cost 1, and a flow that is zero
    on it. *)
Definition pair_smcf : SimpleMinCostFlow :=
  set_node_supply 1 (-1)
    (set_node_supply 0 1
       (add_arc_with_capacity_and_unit_cost 0 1 1 1 new_smcf)).

Definition no_flow : Solution := {| status := OPTIMAL; flow := λ _, 0%Z |}.


(** Three nodes; two arcs leave S and both carry flow. *)
Definition fork_smcf : SimpleMinCostFlow :=
  add_arc_with_capacity_and_unit_cost 1 2 1 1
    (add_arc_with_capacity_and_unit_cost 0 2 1 1
       (add_arc_with_capacity_and_unit_cost 0 1 1 1 new_smcf)).

(** The scenario's nodes with a detour A, B, A whose two edges cost 1/2
    each, and the problem built from it. *)
Definition cycle_edges : list EdgeRow :=
  [{| source := "S"; target := "A"; cost_eur := 1 |};
   {| source := "A"; target := "B"; cost_eur := 1 # 2 |};
   {| source := "B"; target := "A"; cost_eur := 1 # 2 |};
   {| source := "A"; target := "M"; cost_eur := 1 |}].

Definition cycle_smcf : SimpleMinCostFlow :=
  set_node_supply 3 (-1)
    (set_node_supply 0 1
       (add_arc_with_capacity_and_unit_cost 1 3 1 1
          (add_arc_with_capacity_and_unit_cost 2 1 1 0
             (add_arc_with_capacity_and_unit_cost 1 2 1 0
                (add_arc_with_capacity_and_unit_cost 0 1 1 1 new_smcf))))).

(** ** [load_data] *)

(** What [pd.read_csv] finds under the two file names, already parsed
    into rows; [None] is a file that does not exist.  Other failures
    of the reader are not modelled. *)
Record Files := {
  nodes_csv : option (list NodeRow);
  edges_csv : option (list EdgeRow)
}.

(** What the program prints, in order.  The lines of [main] are their
    text; the line of [load_data] carries the name of the missing file
    in place of the text of the exception. *)
Inductive line :=
| Text (s : string)
| CRITICAL_not_found (file : string)
| Sim (m : message).

(** ** The map drawn with folium *)

(** The elements this program adds to a map, with the arguments it
    passes. *)
Inductive element :=
| CircleMarker (location : Q * Q) (radius : Z) (popup : string)
    (color : string) (fill : bool) (fill_color : string)
| PolyLine (locations : list (Q * Q)) (color : string)
    (weight opacity : Q) (tooltip : string).

(** A [folium.Map]: its view and the elements added to it, oldest
    first. *)
Record FoliumMap := {
  map_location : Q * Q;
  zoom_start : Z;
  children : list element
}.

(** The state of a run: the edge tables and the maps, by reference,
    the console, and the files written. *)
Record Process := {
  tables : gmap nat (list EdgeRow);
  maps : gmap nat FoliumMap;
  console : list line;
  disk : gmap string FoliumMap
}.

Definition new_process : Process :=
  {| tables := ∅; maps := ∅; console := []; disk := ∅ |}.

Definition say (l : line) (p : Process) : Process :=
  {| tables := tables p; maps := maps p;
     console := console p ++ [l]; disk := disk p |}.

(** [nodes.csv] is read first; the first missing file ends the [try]
    block.  The edge table becomes a new object of the store; the node
    table is only ever read and stays a value. *)
Definition load_data (fs : Files) (p : Process)
  : option (list NodeRow * nat) * Process :=
  match nodes_csv fs with
  | None => (None, say (CRITICAL_not_found "nodes.csv") p)
  | Some nodes =>
      match edges_csv fs with
      | None => (None, say (CRITICAL_not_found "edges.csv") p)
      | Some edges =>
          let r := fresh (dom (tables p)) in
          (Some (nodes, r),
           {| tables := <[r := edges]> (tables p); maps := maps p;
              console := console p; disk := disk p |})
      end
  end.

(** ** [create_map] *)

(** [folium.CircleMarker(...)] for one row of the node table. *)
Definition marker_of (node : NodeRow) : element :=
  CircleMarker (latitude node, longitude node) 5%Z
    (node_name node +:+ " (" +:+ node_type node +:+ ")")
    "#3186cc" true "#3186cc".

(** [nodes_df[nodes_df['id'] == node_id].iloc[0]], read at latitude and
    longitude: the first row with this id, [IndexError] when there is
    none. *)
Definition coords_of (nodes_df : list NodeRow) (i : string) : exn + Q * Q :=
  match head (filter (λ node, node_id node = i) nodes_df) with
  | Some node => inr (latitude node, longitude node)
  | None => inl IndexError
  end.

(** The list comprehension: in path order, stopping at the first id
    without a row. *)
Fixpoint path_coords (nodes_df : list NodeRow) (path : list string)
  : exn + list (Q * Q) :=
  match path with
  | [] => inr []
  | i :: path' =>
      match coords_of nodes_df i with
      | inl e => inl e
      | inr c =>
          match path_coords nodes_df path' with
          | inl e => inl e
          | inr cs => inr (c :: cs)
          end
      end
  end.

(** [element.add_to(map_object)] *)
Definition add_child (e : element) (m : FoliumMap) : FoliumMap :=
  {| map_location := map_location m; zoom_start := zoom_start m;
     children := children m ++ [e] |}.

Definition add_to (e : element) (map_object : nat)
    (ms : gmap nat FoliumMap) : gmap nat FoliumMap :=
  alter (add_child e) map_object ms.

(** [folium.Map(location=..., zoom_start=...)]: a map without
    elements. *)
Definition folium_Map (location : Q * Q) (zoom : Z) : FoliumMap :=
  {| map_location := location; zoom_start := zoom; children := [] |}.

(** The map [m] with the elements [es] added after its own. *)
Definition with_more (es : list element) (m : FoliumMap) : FoliumMap :=
  {| map_location := map_location m; zoom_start := zoom_start m;
     children := children m ++ es |}.

Definition create_map (nodes_df : list NodeRow) (path : list string)
    (color : string) (map_object : option nat) (tooltip : string)
    (ms : gmap nat FoliumMap) : outcome nat * gmap nat FoliumMap :=
  let '(target_map, ms) :=
    match map_object with
    | None =>
        let r := fresh (dom ms) in
        (Some r, <[r := folium_Map (40%Q, 0%Q) 2%Z]> ms)
    | Some r =>
        (match ms !! r with Some _ => Some r | None => None end, ms)
    end in
  match target_map with
  | None => (Raise InvalidReference, ms)
  | Some map_object =>
      let ms :=
        foldl (λ ms node, add_to (marker_of node) map_object ms)
              ms nodes_df in
      match path_coords nodes_df path with
      | inl e => (Raise e, ms)
      | inr coords =>
          (Ret map_object,
           add_to (PolyLine coords color (5 # 2)%Q 1%Q tooltip) map_object ms)
      end
  end.

(** ** [main] *)

(** The line feed that starts some of the printed texts. *)
Definition newline : string :=
  String (Ascii.Ascii false true false true false false false false)
         EmptyString.

(** The call of [simulate_disruption] made by [main]: the lines it
    prints go to the console of the run. *)
Definition run_simulate_disruption (rnd : nat) (edges_df : nat)
    (optimal_path : list string) (disruption_factor : Q) (p : Process)
  : outcome nat * Process :=
  let '(r, w) :=
    simulate_disruption rnd edges_df optimal_path disruption_factor
      {| heap := tables p; stdout := [] |} in
  (r, {| tables := heap w; maps := maps p;
         console := console p ++ (Sim <$> stdout w); disk := disk p |}).

(** The call of [create_map] made by [main]. *)
Definition run_create_map (nodes_df : list NodeRow) (path : list string)
    (color : string) (map_object : option nat) (tooltip : string)
    (p : Process) : outcome nat * Process :=
  let '(r, ms) :=
    create_map nodes_df path color map_object tooltip (maps p) in
  (r, {| tables := tables p; maps := ms;
         console := console p; disk := disk p |}).

(** [map_object.save(map_filename)] *)
Definition save (map_object : nat) (map_filename : string) (p : Process)
  : Process :=
  match maps p !! map_object with
  | Some m =>
      {| tables := tables p; maps := maps p; console := console p;
         disk := <[map_filename := m]> (disk p) |}
  | None => p
  end.

(** The lines that [main] prints and the tooltips it passes, in the
    order of the source. *)
Definition info_initiating : line := Text "INFO: Initiating Pathfinder...".

Definition critical_halting : line :=
  Text "CRITICAL: Halting execution due to data loading failure.".

Definition info_optimizing (start_node end_node : string) : line :=
  Text (newline +:+ "INFO: Optimizing new random route from "
        +:+ start_node +:+ " to " +:+ end_node +:+ ".").

Definition header_normal : line :=
  Text (newline +:+ "--- Analysis: Normal Conditions ---").

Definition line_optimal_path (path_normal : list string) : line :=
  Text ("  Optimal Path: " +:+ String.concat " -> " path_normal).

Definition line_total_cost (cost_normal : Z) : line :=
  Text ("  Total Cost: " +:+ pretty cost_normal +:+ " EUR").

Definition header_post_disruption : line :=
  Text (newline +:+ "--- Analysis: Post-Disruption ---").

Definition line_new_optimal_path (path_disrupted : list string) : line :=
  Text ("  New Optimal Path: " +:+ String.concat " -> " path_disrupted).

Definition line_new_total_cost (cost_disrupted : Z) : line :=
  Text ("  New Total Cost: " +:+ pretty cost_disrupted +:+ " EUR").

Definition line_impact (cost_disrupted cost_normal : Z) : line :=
  Text ("  Impact: Cost increased by "
        +:+ pretty (cost_disrupted - cost_normal)%Z +:+ " EUR.").

Definition info_generating : line :=
  Text (newline +:+ "INFO: Generating visualization...").

Definition tooltip_normal (cost_normal : Z) : string :=
  "Normal Route: " +:+ pretty cost_normal +:+ " EUR".

Definition tooltip_disrupted (cost_disrupted : Z) : string :=
  "Disrupted Route: " +:+ pretty cost_disrupted +:+ " EUR".

Definition success_saved (map_filename : string) : line :=
  Text ("SUCCESS: Map saved to '" +:+ map_filename +:+ "'").

Definition info_no_path (start_node end_node : string) : line :=
  Text ("INFO: No path found from " +:+ start_node +:+ " to "
        +:+ end_node +:+ ".").

(** The part of [main] after the first route was found. *)
Definition after_normal_route (solve : SimpleMinCostFlow → Solution)
    (fuel rnd_edge : nat) (nodes_df : list NodeRow) (edges_df : nat)
    (start_node end_node : string)
    (path_normal : list string) (cost_normal : Z) (p : Process)
  : outcome unit * Process :=
  let p := say (line_optimal_path path_normal) p in
  let p := say (line_total_cost cost_normal) p in
  match run_simulate_disruption rnd_edge edges_df path_normal 10%Q p with
  | (Raise e, p) => (Raise e, p)
  | (OutOfFuel, p) => (OutOfFuel, p)
  | (Ret disrupted_edges_df, p) =>
      let p := say header_post_disruption p in
      match find_optimal_path_ortools solve fuel nodes_df
              (default [] (tables p !! disrupted_edges_df))
              start_node end_node cost_eur with
      | Raise e => (Raise e, p)
      | OutOfFuel => (OutOfFuel, p)
      | Ret None => (Ret (), p)
      | Ret (Some (path_disrupted, cost_disrupted)) =>
          if decide (path_disrupted = []) then (Ret (), p)
          else
            let p := say (line_new_optimal_path path_disrupted) p in
            let p := say (line_new_total_cost cost_disrupted) p in
            let p := say (line_impact cost_disrupted cost_normal) p in
            let p := say info_generating p in
            match run_create_map nodes_df path_normal "blue" None
                    (tooltip_normal cost_normal) p with
            | (Raise e, p) => (Raise e, p)
            | (OutOfFuel, p) => (OutOfFuel, p)
            | (Ret map_object, p) =>
                match run_create_map nodes_df path_disrupted "red"
                        (Some map_object)
                        (tooltip_disrupted cost_disrupted) p with
                | (Raise e, p) => (Raise e, p)
                | (OutOfFuel, p) => (OutOfFuel, p)
                | (Ret _, p) =>
                    let map_filename := "supply_chain_map.html" in
                    let p := save map_object map_filename p in
                    (Ret (), say (success_saved map_filename) p)
                end
            end
      end
  end.

(** [main()].  The three draws of the random generator are arguments;
    both calls of the solving function get the same fuel.  The solving
    function prints only where the start or the end id is unknown,
    which does not happen for ids drawn from the node table, so its
    calls add no line to the console. *)
Definition main (solve : SimpleMinCostFlow → Solution)
    (fuel rnd_start rnd_end rnd_edge : nat) (fs : Files)
  : outcome unit * Process :=
  let p := say info_initiating new_process in
  match load_data fs p with
  | (None, p) => (Ret (), say critical_halting p)
  | (Some (nodes_df, edges_df), p) =>
      let suppliers :=
        node_id <$> filter (λ node, node_type node = "supplier") nodes_df in
      let markets :=
        node_id <$> filter (λ node, node_type node = "market") nodes_df in
      match choice rnd_start suppliers with
      | inl e => (Raise e, p)
      | inr start_node =>
          match choice rnd_end markets with
          | inl e => (Raise e, p)
          | inr end_node =>
              let p := say (info_optimizing start_node end_node) p in
              let p := say header_normal p in
              match find_optimal_path_ortools solve fuel nodes_df
                      (default [] (tables p !! edges_df))
                      start_node end_node cost_eur with
              | Raise e => (Raise e, p)
              | OutOfFuel => (OutOfFuel, p)
              | Ret None => (Ret (), say (info_no_path start_node end_node) p)
              | Ret (Some (path_normal, cost_normal)) =>
                  if decide (path_normal = [])
                  then (Ret (), say (info_no_path start_node end_node) p)
                  else
                    after_normal_route solve fuel rnd_edge nodes_df edges_df
                      start_node end_node path_normal cost_normal p
              end
          end
      end
  end.

(** The scenario's two files, and the same without a file of edges. *)
Definition demo_files : Files :=
  {| nodes_csv := Some demo_nodes; edges_csv := Some demo_edges |}.

Definition no_edges_file : Files :=
  {| nodes_csv := Some demo_nodes; edges_csv := None |}.

(** A store whose only table has no rows. *)
Definition empty_table_world : World :=
  {| heap := {[0 := []]}; stdout := [] |}.

(** Three places with coordinates; the id S is used by two rows. *)
Definition place (i t : string) (lat lon : Q) : NodeRow :=
  {| node_id := i; node_name := i; node_type := t;
     latitude := lat; longitude := lon |}.

Definition place_nodes : list NodeRow :=
  [place "S" "supplier" 10 20; place "M" "market" 30 40;
   place "S" "hub" 50 60].

(** A map that already shows a line, and a store that holds it. *)
Definition drawn_map : FoliumMap :=
  with_more [PolyLine [(1%Q, 2%Q)] "green" 1%Q 1%Q "old"]
    (folium_Map (40%Q, 0%Q) 2%Z).

Definition drawn_maps : gmap nat FoliumMap := {[0 := drawn_map]}.

(** A node file without a market; the two nodes S and M with an edge
    from an unknown node; the two nodes without any edge. *)
Definition no_market_files : Files :=
  {| nodes_csv := Some [mk_node "S" "supplier"; mk_node "A" "hub"];
     edges_csv := Some [] |}.


Definition pair_no_edges_files : Files :=
  {| nodes_csv := Some pair_nodes; edges_csv := Some [] |}.


(** * Proofs *)

(** ** Finite sums *)

Section Sums.
Local Open Scope Z_scope.

Lemma sumZ_ext g h n :
  (∀ i, (i < n)%nat → g i = h i) → sumZ g n = sumZ h n.
Proof.
  induction n as [|n IH]; intros E; simpl; [done|].
  rewrite IH, (E n); auto with lia.
Qed.

Lemma sumZ_add g h n : sumZ (λ i, g i + h i) n = sumZ g n + sumZ h n.
Proof. induction n as [|n IH]; simpl; lia. Qed.

Lemma sumZ_sub g h n : sumZ (λ i, g i - h i) n = sumZ g n - sumZ h n.
Proof. induction n as [|n IH]; simpl; lia. Qed.

Lemma sumZ_zero n : sumZ (λ _, 0) n = 0.
Proof. induction n as [|n IH]; simpl; lia. Qed.

Lemma sumZ_le g h n :
  (∀ i, (i < n)%nat → g i ≤ h i) → sumZ g n ≤ sumZ h n.
Proof.
  induction n as [|n IH]; intros E; simpl; [lia|].
  specialize (E n ltac:(lia)) as En.
  assert (sumZ g n ≤ sumZ h n) by (apply IH; auto with lia). lia.
Qed.

Lemma sumZ_nonneg g n : (∀ i, (i < n)%nat → 0 ≤ g i) → 0 ≤ sumZ g n.
Proof. intros E. rewrite <- (sumZ_zero n). by apply sumZ_le. Qed.

Lemma sumZ_term_le g n j :
  (∀ i, (i < n)%nat → 0 ≤ g i) → (j < n)%nat → g j ≤ sumZ g n.
Proof.
  induction n as [|n IH]; intros E Hj; simpl; [lia|].
  assert (0 ≤ sumZ g n) by (apply sumZ_nonneg; auto with lia).
  destruct (decide (j = n)) as [->|].
  - lia.
  - assert (g j ≤ sumZ g n) by (apply IH; auto with lia).
    specialize (E n ltac:(lia)). lia.
Qed.

Lemma sumZ_pos_exists g n : 0 < sumZ g n → ∃ i, (i < n)%nat ∧ 0 < g i.
Proof.
  induction n as [|n IH]; simpl; [lia|]. intros H.
  destruct (decide (0 < g n)) as [?|?]; [exists n; split; [lia|done]|].
  destruct IH as (i & ? & ?); [lia|]. exists i. split; [lia|done].
Qed.

Lemma delta_refl a : delta a a = 1.
Proof. unfold delta. by rewrite decide_True. Qed.

Lemma delta_ne a b : a ≠ b → delta a b = 0.
Proof. intros. unfold delta. by rewrite decide_False. Qed.

Lemma delta_range a b : 0 ≤ delta a b ≤ 1.
Proof. unfold delta. case_decide; lia. Qed.

Lemma sumZ_delta g n j :
  sumZ (λ i, delta j i * g i) n = if decide (j < n)%nat then g j else 0.
Proof.
  induction n as [|n IH]; cbn [sumZ].
  - case_decide; [lia|done].
  - rewrite IH. unfold delta.
    repeat case_decide; subst; lia.
Qed.

Lemma sum_over_app W1 W2 g :
  sum_over (W1 ++ W2) g = sum_over W1 g + sum_over W2 g.
Proof. induction W1 as [|j W1 IH]; simpl; [done|]. rewrite IH. lia. Qed.

Lemma sum_over_nonneg W g : (∀ j, j ∈ W → 0 ≤ g j) → 0 ≤ sum_over W g.
Proof.
  induction W as [|j W IH]; intros E; simpl; [done|].
  assert (0 ≤ g j) by (apply E; left).
  assert (0 ≤ sum_over W g) by (apply IH; intros; apply E; by right).
  lia.
Qed.

Lemma sum_over_pos W g :
  W ≠ [] → (∀ j, j ∈ W → 0 < g j) → 0 < sum_over W g.
Proof.
  destruct W as [|j W]; [done|]. intros _ E. simpl.
  assert (0 < g j) by (apply E; left).
  assert (0 ≤ sum_over W g).
  { apply sum_over_nonneg. intros k Hk. 
    assert (0 < g k) by (apply E; by right). lia. }
  lia.
Qed.

Lemma sum_over_ext W g h :
  (∀ j, j ∈ W → g j = h j) → sum_over W g = sum_over W h.
Proof.
  induction W as [|j W IH]; intros E; simpl; [done|].
  rewrite IH, (E j); [done|left|]. intros; apply E; by right.
Qed.

Lemma count_cons j W i : count (j :: W) i = delta j i + count W i.
Proof. reflexivity. Qed.

Lemma count_not_in W i : i ∉ W → count W i = 0.
Proof.
  induction W as [|j W IH]; simpl; [done|].
  intros [? ?]%not_elem_of_cons. rewrite delta_ne, IH by done. lia.
Qed.

Lemma count_NoDup W i : NoDup W → i ∈ W → count W i = 1.
Proof.
  induction 1 as [|j W Hj HW IH]; [by intros ?%elem_of_nil|].
  simpl. intros [->|Hi]%elem_of_cons.
  - rewrite delta_refl, count_not_in by done. lia.
  - rewrite delta_ne, IH by (done || congruence). lia.
Qed.

Lemma count_NoDup_le W i : NoDup W → 0 ≤ count W i ≤ 1.
Proof.
  intros HW. destruct (decide (i ∈ W)).
  - rewrite count_NoDup by done. lia.
  - rewrite count_not_in by done. lia.
Qed.

Lemma sumZ_count W g n :
  (∀ j, j ∈ W → (j < n)%nat) →
  sumZ (λ i, count W i * g i) n = sum_over W g.
Proof.
  induction W as [|j W IH]; intros E.
  - transitivity (sumZ (λ _, 0) n); [|apply sumZ_zero].
    apply sumZ_ext. intros; by cbn.
  - cbn [sum_over foldr]. fold (sum_over W g).
    rewrite <- IH by (intros; apply E; by right).
    rewrite (sumZ_ext _ (λ i, delta j i * g i + count W i * g i))
      by (intros; rewrite count_cons; lia).
    rewrite sumZ_add, sumZ_delta, decide_True; [done|]. apply E; left.
Qed.
End Sums.

(** ** Lists of indices *)

Lemma NoDup_bounded (l : list nat) n :
  NoDup l → (∀ x, x ∈ l → x < n) → length l ≤ n.
Proof.
  intros Hnd Hlt. rewrite <- (length_seq n 0). apply submseteq_length.
  apply NoDup_submseteq; [done|]. intros x Hx. apply elem_of_seq.
  specialize (Hlt x Hx). lia.
Qed.

Lemma not_NoDup_split (l : list nat) :
  ¬ NoDup l → ∃ l1 x l2 l3, l = l1 ++ x :: l2 ++ x :: l3.
Proof.
  induction l as [|a l IH]; intros Hn; [destruct Hn; constructor|].
  destruct (decide (a ∈ l)) as [Hin|Hin].
  - apply list_elem_of_split in Hin as (l2 & l3 & ->).
    by exists [], a, l2, l3.
  - destruct IH as (l1 & x & l2 & l3 & ->).
    + intros Hl. apply Hn. by constructor.
    + by exists (a :: l1), x, l2, l3.
Qed.

(** ** Walks in the arc list and the flows they carry *)

Section Walks.
Local Open Scope Z_scope.
Variable smcf : SimpleMinCostFlow.
Local Abbreviation m := (num_arcs smcf).
Local Abbreviation tl := (tail_of smcf).
Local Abbreviation hd := (head_of smcf).
Local Abbreviation uc := (unit_cost_of smcf).

Lemma walk_app u A x B v :
  walk smcf u A x → walk smcf x B v → walk smcf u (A ++ B) v.
Proof.
  induction 1 as [|u i W x Hi Ht HW IH]; intros HB; [done|].
  simpl. econstructor; eauto.
Qed.

Lemma walk_snoc u W x i :
  walk smcf u W x → (i < m)%nat → tl i = x → walk smcf u (W ++ [i]) (hd i).
Proof.
  intros HW Hi Ht. eapply walk_app; [done|].
  econstructor; [done..|constructor].
Qed.

Lemma walk_app_inv u A B v :
  walk smcf u (A ++ B) v → ∃ x, walk smcf u A x ∧ walk smcf x B v.
Proof.
  revert u. induction A as [|i A IH]; intros u H; simpl in *.
  - exists u. split; [constructor|done].
  - inversion H as [|? ? ? ? Hi Ht HW]; subst.
    destruct (IH _ HW) as (x & ? & ?). exists x. split; [|done].
    by econstructor.
Qed.

Lemma walk_lt u W v i : walk smcf u W v → i ∈ W → (i < m)%nat.
Proof.
  induction 1 as [|u j W v Hj Ht HW IH]; [by intros ?%elem_of_nil|].
  intros [->|?]%elem_of_cons; auto.
Qed.

(** Where a walk passes through a node, it can be cut there. *)
Lemma walk_split u W v x :
  walk smcf u W v → x ∈ (tl <$> W) ++ [v] →
  ∃ A C, W = A ++ C ∧ walk smcf u A x ∧ walk smcf x C v.
Proof.
  induction 1 as [u|u i W v Hi Ht HW IH]; simpl.
  - intros ->%list_elem_of_singleton. exists [], []. repeat split; constructor.
  - intros [->|Hx]%elem_of_cons.
    + exists [], (i :: W). rewrite Ht.
      repeat split; [constructor|by econstructor].
    + destruct (IH Hx) as (A & C & -> & HA & HC).
      exists (i :: A), C. repeat split; [by econstructor|done].
Qed.

Lemma excess_sub f g v :
  excess smcf (λ i, f i - g i) v = excess smcf f v - excess smcf g v.
Proof.
  unfold excess. rewrite <- sumZ_sub. apply sumZ_ext. intros; lia.
Qed.

Lemma flow_cost_sub f g :
  flow_cost smcf (λ i, f i - g i) = flow_cost smcf f - flow_cost smcf g.
Proof.
  unfold flow_cost. rewrite <- sumZ_sub. apply sumZ_ext. intros; lia.
Qed.

Lemma flow_cost_along W :
  (∀ i, i ∈ W → (i < m)%nat) → flow_cost smcf (along W) = sum_over W uc.
Proof. intros HW. unfold flow_cost, along. by apply sumZ_count. Qed.

(** A walk from [u] to [v] carries one unit out of [u] and into [v]. *)
Lemma excess_along u W v x :
  walk smcf u W v → excess smcf (along W) x = delta u x - delta v x.
Proof.
  intros HW. unfold excess, along.
  rewrite sumZ_count by (intros; by eapply walk_lt).
  induction HW as [u|u i W v Hi Ht HW IH]; simpl; [lia|].
  rewrite IH, Ht. lia.
Qed.

(** A flow that dominates another costs at least as much, when no unit
    cost is negative. *)
Lemma flow_cost_mono f g :
  (∀ i, (i < m)%nat → 0 ≤ uc i) →
  (∀ i, (i < m)%nat → g i ≤ f i) →
  flow_cost smcf g ≤ flow_cost smcf f.
Proof.
  intros Hc Hfg. apply sumZ_le. intros i Hi.
  specialize (Hc i Hi). specialize (Hfg i Hi). nia.
Qed.

(** Removing a closed walk without repeated arcs from a flow that fills
    it leaves a feasible flow, cheaper by the cost of the walk. *)
Lemma cancel_cycle f v C :
  feasible smcf f → walk smcf v C v → NoDup C →
  (∀ i, i ∈ C → 1 ≤ f i) →
  feasible smcf (λ i, f i - along C i) ∧
  flow_cost smcf (λ i, f i - along C i) = flow_cost smcf f - sum_over C uc.
Proof.
  intros [Hcap Hex] HC Hnd Hf. split; [split|].
  - intros i Hi. specialize (Hcap i Hi). unfold along.
    destruct (decide (i ∈ C)) as [Hin|Hin].
    + rewrite count_NoDup by done. specialize (Hf i Hin). lia.
    + rewrite count_not_in by done. lia.
  - intros x. rewrite excess_sub, (excess_along v C v) by done.
    rewrite Hex. lia.
  - rewrite flow_cost_sub, flow_cost_along; [done|].
    intros; by eapply walk_lt.
Qed.
(** Cutting out the closed parts of a walk leaves a walk between the
    same ends that visits no node twice and weighs no more, under any
    weighting of the arcs without negative weights. *)
Lemma walk_simplify (g : nat → Z) u W v :
  (∀ i, (i < m)%nat → 0 ≤ g i) →
  walk smcf u W v →
  ∃ W', walk smcf u W' v ∧ NoDup (tl <$> W') ∧ W' ⊆ W ∧
        sum_over W' g ≤ sum_over W g.
Proof.
  intros Hpos.
  assert (∀ n W, (length W ≤ n)%nat → walk smcf u W v →
            ∃ W', walk smcf u W' v ∧ NoDup (tl <$> W') ∧ W' ⊆ W ∧
                  sum_over W' g ≤ sum_over W g) as Hind; [|by eauto].
  clear W. induction n as [|n IH]; intros W Hlen HW.
  - destruct W; [|simpl in Hlen; lia]. exists [].
    split_and!; [done|constructor|done|done].
  - destruct (decide (NoDup (tl <$> W))) as [Hnd|Hnd];
      [exists W; split_and!; done|].
    apply not_NoDup_split in Hnd as (l1 & x & l2 & l3 & Hsplit).
    apply fmap_app_inv in Hsplit as (A & R1 & -> & HR1 & ->).
    symmetry in HR1.
    apply fmap_cons_inv in HR1 as (i & R2 & Hi & HR2 & ->).
    symmetry in HR2.
    apply fmap_app_inv in HR2 as (B & R3 & -> & HR3 & ->).
    symmetry in HR3.
    apply fmap_cons_inv in HR3 as (j & D & Hj & -> & ->).
    apply walk_app_inv in HW as (y & HA & HW).
    inversion HW as [|? ? ? ? Him Hti HW']; subst.
    apply walk_app_inv in HW' as (z & HB & HD).
    inversion HD as [|? ? ? ? Hjm Htj HD']; subst.
    destruct (IH (A ++ j :: D)) as (W' & HW' & Hnd' & Hsub & Hle).
    { rewrite length_app in Hlen |- *. simpl in *.
      rewrite length_app in Hlen. simpl in Hlen. lia. }
    { eapply walk_app; [done|]. econstructor; [done| |done]. congruence. }
    exists W'. split_and!; [done..| |].
    + intros k Hk. apply Hsub in Hk.
      apply elem_of_app in Hk as [Hk|Hk]; [by apply elem_of_app; left|].
      apply elem_of_app; right. right. apply elem_of_app. by right.
    + assert (0 ≤ sum_over (i :: B) g).
      { apply sum_over_nonneg. intros k Hk. apply Hpos.
        apply elem_of_cons in Hk as [->|Hk]; [done|].
        by eapply (walk_lt _ B). }
      rewrite sum_over_app in Hle |- *.
      change (sum_over (i :: B ++ j :: D) g)
        with (g i + sum_over (B ++ j :: D) g).
      rewrite sum_over_app. simpl in *. lia.
Qed.
End Walks.

(** ** The id-to-index dictionary *)

Lemma foldl_insert_lookup (l : list (nat * string)) (d : gmap string nat) s i :
  foldl (λ d p, <[p.2 := p.1]> d) d l !! s = Some i →
  (i, s) ∈ l ∨ d !! s = Some i.
Proof.
  revert d. induction l as [|[j a] l IH]; intros d; simpl; [auto|].
  intros [H|H]%IH; [left; by right|].
  destruct (decide (a = s)) as [->|Hne].
  - rewrite lookup_insert_eq in H. injection H as ->. left; left.
  - rewrite lookup_insert_ne in H by done. by right.
Qed.

Lemma foldl_insert_is_Some (l : list (nat * string)) (d : gmap string nat) s :
  s ∈ l.*2 ∨ is_Some (d !! s) →
  is_Some (foldl (λ d p, <[p.2 := p.1]> d) d l !! s).
Proof.
  revert d. induction l as [|[j a] l IH]; intros d; simpl.
  - intros [?%elem_of_nil|?]; done.
  - intros [[->|?]%elem_of_cons|[x Hx]]; apply IH; auto.
    + right. rewrite lookup_insert_eq. eauto.
    + right. destruct (decide (a = s)) as [->|].
      * rewrite lookup_insert_eq. eauto.
      * rewrite lookup_insert_ne by done. eauto.
Qed.

Lemma enumerate_elem_of {A} (l : list A) i x :
  (i, x) ∈ enumerate l ↔ l !! i = Some x.
Proof.
  unfold enumerate. rewrite list_elem_of_lookup. split.
  - intros (j & Hj). apply lookup_zip_with_Some in Hj
      as (a & b & [= -> ->] & [-> _]%lookup_seq & Hb). done.
  - intros Hx. exists i. apply lookup_zip_with_Some.
    exists i, x. split_and!; [done| |done].
    apply lookup_seq. split; [done|]. by eapply lookup_lt_Some.
Qed.

Lemma enumerate_snd {A} (l : list A) : (enumerate l).*2 = l.
Proof. unfold enumerate. apply snd_zip. rewrite length_seq. lia. Qed.

(** The index stored for an id is a position that holds this id. *)
Lemma id_to_index_Some node_ids s i :
  create_id_to_index_mapping node_ids !! s = Some i → node_ids !! i = Some s.
Proof.
  unfold create_id_to_index_mapping.
  intros [H|H]%foldl_insert_lookup; [by apply enumerate_elem_of|].
  by rewrite lookup_empty in H.
Qed.

Lemma id_to_index_is_Some node_ids s :
  s ∈ node_ids → is_Some (create_id_to_index_mapping node_ids !! s).
Proof.
  intros Hs. apply foldl_insert_is_Some. left. by rewrite enumerate_snd.
Qed.

Lemma id_to_index_None node_ids s :
  s ∉ node_ids → create_id_to_index_mapping node_ids !! s = None.
Proof.
  intros Hs. destruct (_ !! s) as [i|] eqn:E; [|done].
  apply id_to_index_Some in E. destruct Hs. by eapply list_elem_of_lookup_2.
Qed.

Lemma id_to_index_lt node_ids s i :
  create_id_to_index_mapping node_ids !! s = Some i → i < length node_ids.
Proof. intros H%id_to_index_Some. by eapply lookup_lt_Some. Qed.

(** Two ids with the same index are the same id. *)
Lemma id_to_index_inj node_ids a b i :
  create_id_to_index_mapping node_ids !! a = Some i →
  create_id_to_index_mapping node_ids !! b = Some i → a = b.
Proof. intros Ha%id_to_index_Some Hb%id_to_index_Some. congruence. Qed.

(** ** The arcs and supplies given to the solver *)

Lemma add_edge_inr d w smcf row smcf' :
  add_edge d w smcf row = inr smcf' →
  ∃ a, arc_for d w row a ∧ arcs smcf' = arcs smcf ++ [a] ∧
       supplies smcf' = supplies smcf.
Proof.
  unfold add_edge. destruct (d !! source row) as [u|] eqn:Eu; [|done].
  destruct (d !! target row) as [v|] eqn:Ev; [|done].
  intros [= <-]. eexists. split; [|done]. by repeat split.
Qed.

Lemma add_edges_inr d w rows smcf smcf' :
  add_edges d w rows smcf = inr smcf' →
  ∃ new, Forall2 (arc_for d w) rows new ∧
         arcs smcf' = arcs smcf ++ new ∧ supplies smcf' = supplies smcf.
Proof.
  revert smcf. induction rows as [|row rows IH]; intros smcf; simpl.
  - intros [= <-]. exists []. by rewrite app_nil_r.
  - destruct (add_edge d w smcf row) as [e|smcf1] eqn:E1; [done|].
    apply add_edge_inr in E1 as (a & Ha & Harcs & Hsup).
    intros (new & Hnew & -> & ->)%IH. exists (a :: new).
    split; [by constructor|]. rewrite Harcs, Hsup, <- app_assoc. done.
Qed.

Lemma add_edges_resolve d w rows smcf :
  edges_resolve d rows → ∃ smcf', add_edges d w rows smcf = inr smcf'.
Proof.
  revert smcf. induction rows as [|row rows IH]; intros smcf Hr; simpl.
  - eauto.
  - destruct (Hr row) as [[u Hu] [v Hv]]; [left|].
    unfold add_edge. rewrite Hu, Hv. apply IH.
    intros r Hrin. apply Hr. by right.
Qed.

(** The first row with an unknown id stops the loop with a [KeyError]
    for that id. *)
Lemma add_edges_unresolved d w rows smcf :
  ¬ edges_resolve d rows →
  ∃ k, add_edges d w rows smcf = inl (KeyError (StrKey k)) ∧
       d !! k = None ∧
       ∃ row, row ∈ rows ∧ (k = source row ∨ k = target row).
Proof.
  revert smcf. induction rows as [|row rows IH]; intros smcf Hr; simpl.
  - destruct Hr. by intros ? ?%elem_of_nil.
  - unfold add_edge.
    destruct (d !! source row) as [u|] eqn:Eu;
      [|exists (source row); split_and!; [done..|exists row; split; [left|auto]]].
    destruct (d !! target row) as [v|] eqn:Ev;
      [|exists (target row); split_and!; [done..|exists row; split; [left|auto]]].
    destruct (IH (add_arc_with_capacity_and_unit_cost
                    u v 1 (int (w row)) smcf)) as (k & -> & Hk & r & Hr' & Hkr).
    + intros Hres. apply Hr. intros r [->|Hin]%elem_of_cons; [|by apply Hres].
      rewrite Eu, Ev. eauto.
    + exists k. split_and!; [done..|]. exists r. split; [by right|done].
Qed.

Lemma flow_problem_inr d w edges s t smcf :
  flow_problem d w edges s t = inr smcf →
  Forall2 (arc_for d w) edges (arcs smcf) ∧
  supplies smcf = <[t := (-1)%Z]> (<[s := 1%Z]> ∅).
Proof.
  unfold flow_problem.
  destruct (add_edges d w edges new_smcf) as [e|smcf0] eqn:E; [done|].
  apply add_edges_inr in E as (new & Hnew & Harcs & Hsup).
  intros [= <-]. simpl. rewrite Harcs, Hsup. done.
Qed.

Lemma flow_problem_supply d w edges s t smcf v :
  flow_problem d w edges s t = inr smcf →
  supply_of smcf v =
    if decide (v = t) then (-1)%Z else if decide (v = s) then 1%Z else 0%Z.
Proof.
  intros [_ Hsup]%flow_problem_inr. unfold supply_of. rewrite Hsup.
  repeat case_decide; subst; simplify_map_eq; done.
Qed.

Lemma flow_problem_arc d w edges s t smcf i :
  flow_problem d w edges s t = inr smcf → i < num_arcs smcf →
  ∃ row, edges !! i = Some row ∧
         d !! source row = Some (tail_of smcf i) ∧
         d !! target row = Some (head_of smcf i) ∧
         capacity_of smcf i = 1%Z ∧
         unit_cost_of smcf i = int (w row).
Proof.
  intros [HF _]%flow_problem_inr Hi.
  destruct (lookup_lt_is_Some_2 (arcs smcf) i Hi) as [a Ha].
  destruct (Forall2_lookup_r _ _ _ _ _ HF Ha) as (row & Hrow & H1 & H2 & H3 & H4).
  exists row. unfold tail_of, head_of, capacity_of, unit_cost_of.
  rewrite Ha. simpl. done.
Qed.

Lemma flow_problem_length d w edges s t smcf :
  flow_problem d w edges s t = inr smcf → num_arcs smcf = length edges.
Proof. intros [HF _]%flow_problem_inr. symmetry. by eapply Forall2_length. Qed.

(** ** The inner [for] loop: the first arc that passes the test *)

Lemma first_flow_arc_Some smcf sol cur i :
  first_flow_arc smcf sol cur = Some i ↔
  i < num_arcs smcf ∧ tail_of smcf i = cur ∧ (0 < flow sol i)%Z ∧
  ∀ j, j < i → ¬ (tail_of smcf j = cur ∧ (0 < flow sol j)%Z).
Proof.
  unfold first_flow_arc. rewrite fmap_Some. split.
  - intros ([k x] & Hf & ->). simpl.
    apply list_find_Some in Hf as ([-> Hk]%lookup_seq & [Ht Hp] & Hmin).
    simpl in *. split_and!; [done..|]. intros j Hj.
    apply (Hmin j j); [|done]. apply lookup_seq. lia.
  - intros (Hi & Ht & Hp & Hmin). exists (i, i). split; [|done].
    apply list_find_Some. split_and!; [apply lookup_seq; lia|done..|].
    intros j y [-> _]%lookup_seq Hj. simpl. by apply Hmin.
Qed.

Lemma first_flow_arc_None smcf sol cur :
  first_flow_arc smcf sol cur = None ↔
  ∀ i, i < num_arcs smcf → ¬ (tail_of smcf i = cur ∧ (0 < flow sol i)%Z).
Proof.
  unfold first_flow_arc. rewrite fmap_None, list_find_None, Forall_forall.
  split.
  - intros H i Hi. apply H. apply elem_of_seq. lia.
  - intros H i [_ Hi]%elem_of_seq. apply H. lia.
Qed.

Lemma first_flow_arc_exists smcf sol cur i :
  i < num_arcs smcf → tail_of smcf i = cur → (0 < flow sol i)%Z →
  ∃ j, first_flow_arc smcf sol cur = Some j.
Proof.
  intros Hi Ht Hp.
  destruct (first_flow_arc smcf sol cur) as [j|] eqn:E; [eauto|].
  rewrite first_flow_arc_None in E. destruct (E i Hi). done.
Qed.

(** ** The [while] loop on a unit-flow problem with distinct ends *)

Section Reconstruct.
Local Open Scope Z_scope.
Variables (node_ids : list string) (smcf : SimpleMinCostFlow).
Variables (s_id t_id : string) (s t : nat).
Local Abbreviation d := (create_id_to_index_mapping node_ids).
Local Abbreviation m := (num_arcs smcf).
Local Abbreviation tl := (tail_of smcf).
Local Abbreviation hd := (head_of smcf).
Local Abbreviation uc := (unit_cost_of smcf).
Local Abbreviation N := (length node_ids).
Hypothesis Hs : d !! s_id = Some s.
Hypothesis Ht : d !! t_id = Some t.
Hypothesis Hst : s ≠ t.
Hypothesis Harcs : ∀ i, (i < m)%nat →
  resolved node_ids (tl i) ∧ resolved node_ids (hd i).
Hypothesis Hcap : ∀ i, (i < m)%nat → capacity_of smcf i = 1.
Hypothesis Hsup : ∀ v, supply_of smcf v = delta s v - delta t v.

Lemma resolved_lookup x :
  resolved node_ids x → ∃ a, node_ids !! x = Some a ∧ d !! a = Some x.
Proof. intros [a Ha]. exists a. split; [by apply id_to_index_Some|done]. Qed.

Lemma at_sink x here :
  resolved node_ids x → node_ids !! x = Some here → here = t_id ↔ x = t.
Proof.
  intros (a & Hx & Ha)%resolved_lookup Hhere.
  assert (a = here) as -> by congruence. split.
  - intros ->. congruence.
  - intros ->. eapply id_to_index_inj; eauto.
Qed.

Lemma walk_resolved u W v :
  walk smcf u W v → resolved node_ids u → resolved node_ids v.
Proof.
  induction 1 as [|u i W v Hi Hti HW IH]; [done|].
  intros _. apply IH, Harcs, Hi.
Qed.

Lemma walk_nodes_lt W cur x :
  walk smcf s W cur → x ∈ (tl <$> W) ++ [cur] → (x < N)%nat.
Proof.
  intros HW Hx. destruct (walk_split smcf _ _ _ _ HW Hx) as (A & C & _ & HA & _).
  destruct (walk_resolved _ _ _ HA) as [a Ha]; [by exists s_id|].
  by eapply id_to_index_lt.
Qed.

Lemma excess_split f v :
  excess smcf f v =
  sumZ (λ i, f i * delta (tl i) v) m - sumZ (λ i, f i * delta (hd i) v) m.
Proof.
  unfold excess. rewrite <- sumZ_sub. apply sumZ_ext. intros; lia.
Qed.

(** Away from the sink, a node reached along arcs that carry flow has an
    outgoing arc that carries flow, so the inner loop finds one. *)
Lemma out_arc sol W cur :
  feasible smcf (flow sol) → walk smcf s W cur →
  (∀ i, i ∈ W → 1 ≤ flow sol i) → cur ≠ t →
  ∃ i, first_flow_arc smcf sol cur = Some i.
Proof.
  intros [Hcapf Hex] HW Hf Hne.
  assert (0 < sumZ (λ i, flow sol i * delta (tl i) cur) m) as Hout.
  { pose proof (Hex cur) as E. rewrite excess_split, Hsup in E.
    rewrite (delta_ne t cur) in E by congruence.
    assert (0 ≤ sumZ (λ i, flow sol i * delta (hd i) cur) m) as Hin0.
    { apply sumZ_nonneg. intros i Hi. specialize (Hcapf i Hi).
      pose proof (delta_range (hd i) cur). nia. }
    destruct W as [|j W _] using rev_ind.
    - inversion HW; subst. rewrite delta_refl in E. lia.
    - apply walk_app_inv in HW as (x & _ & Hj).
      inversion Hj as [|? ? ? ? Hjm Htj Hnil]; subst.
      inversion Hnil; subst.
      assert (flow sol j * delta (hd j) (hd j)
              ≤ sumZ (λ i, flow sol i * delta (hd i) (hd j)) m) as Hterm.
      { apply (sumZ_term_le (λ i, flow sol i * delta (hd i) (hd j))); [|done].
        intros i Hi. specialize (Hcapf i Hi).
        pose proof (delta_range (hd i) (hd j)). nia. }
      rewrite delta_refl in Hterm.
      assert (1 ≤ flow sol j) by (apply Hf, elem_of_app; right; left).
      pose proof (delta_range s (hd j)). lia. }
  apply sumZ_pos_exists in Hout as (i & Hi & Hpos).
  unfold delta in Hpos. case_decide; [|lia].
  apply (first_flow_arc_exists smcf sol cur i); [done..|lia].
Qed.

Lemma path_of_snoc W i next_id :
  node_ids !! hd i = Some next_id →
  path_of node_ids smcf s_id (W ++ [i]) =
  path_of node_ids smcf s_id W ++ [next_id].
Proof.
  intros H. unfold path_of. rewrite fmap_app. simpl. by rewrite H.
Qed.

(** From any state of the loop reached along arcs with flow and without
    a repeated node, enough fuel either brings the loop to the sink or
    exhibits a closed walk of arcs that all carry flow. *)
Lemma reconstruct_progress sol fuel :
  feasible smcf (flow sol) →
  ∀ W cur,
    walk smcf s W cur → NoDup ((tl <$> W) ++ [cur]) →
    (∀ i, i ∈ W → 1 ≤ flow sol i) →
    (N - length W ≤ fuel)%nat →
    (∃ W', walk smcf s W' t ∧ NoDup W' ∧ (∀ i, i ∈ W' → 1 ≤ flow sol i) ∧
           reconstruct node_ids smcf sol t_id fuel cur
             (path_of node_ids smcf s_id W)
           = Ret (path_of node_ids smcf s_id W')) ∨
    (∃ v C, walk smcf v C v ∧ C ≠ [] ∧ NoDup C ∧
            ∀ i, i ∈ C → 1 ≤ flow sol i).
Proof.
  intros Hfeas. induction fuel as [|fuel IH]; intros W cur HW Hnd Hf Hfuel.
  - exfalso.
    assert (length ((tl <$> W) ++ [cur]) ≤ N)%nat as Hlen.
    { apply NoDup_bounded; [done|]. intros x Hx. by eapply walk_nodes_lt. }
    rewrite length_app, length_fmap in Hlen. simpl in Hlen. lia.
  - assert (resolved node_ids cur) as Hcur
      by (eapply walk_resolved; [done|by exists s_id]).
    destruct (resolved_lookup _ Hcur) as (here & Hhere & _).
    cbn [reconstruct]. rewrite Hhere.
    destruct (decide (here = t_id)) as [Heq|Hneq].
    + left. exists W. apply (at_sink cur here Hcur Hhere) in Heq as ->.
      split_and!; [done| |done..].
      apply NoDup_app in Hnd as (Hnd & _ & _). by eapply NoDup_fmap_1.
    + assert (cur ≠ t) as Hne
        by (intros ->; by apply Hneq, (at_sink t here Hcur Hhere)).
      destruct (out_arc sol W cur Hfeas HW Hf Hne) as [i Hi].
      rewrite Hi. apply first_flow_arc_Some in Hi as (Him & Hti & Hpos & _).
      destruct (resolved_lookup (hd i)) as (next_id & Hnext & _);
        [by apply Harcs|].
      rewrite Hnext.
      destruct (decide (hd i ∈ (tl <$> W) ++ [cur])) as [Hin|Hnin].
      * right.
        destruct (walk_split smcf _ _ _ _ HW Hin) as (A & C & -> & HA & HC).
        exists (hd i), (C ++ [i]). split_and!.
        -- by eapply walk_snoc.
        -- by intros [? ?]%app_eq_nil.
        -- apply (NoDup_fmap_1 tl). rewrite fmap_app. simpl. rewrite Hti.
           rewrite fmap_app, <- app_assoc in Hnd.
           apply NoDup_app in Hnd as (_ & _ & Hnd). done.
        -- intros j [Hj| ->%list_elem_of_singleton]%elem_of_app; [|lia].
           apply Hf, elem_of_app. by right.
      * rewrite <- (path_of_snoc W i next_id Hnext).
        apply IH.
        -- by eapply walk_snoc.
        -- rewrite fmap_app. simpl. rewrite Hti. apply NoDup_app.
           split_and!; [done| |apply NoDup_singleton].
           intros x Hx ->%list_elem_of_singleton. done.
        -- intros j [Hj| ->%list_elem_of_singleton]%elem_of_app; [auto|lia].
        -- rewrite length_app. simpl. lia.
Qed.
(** A walk from source to sink without repeated arcs is itself a
    feasible flow. *)
Lemma along_feasible W :
  walk smcf s W t → NoDup W → feasible smcf (along W).
Proof.
  intros HW Hnd. split.
  - intros i Hi. rewrite Hcap by done. by apply count_NoDup_le.
  - intros v. rewrite Hsup. by apply excess_along.
Qed.

(** With positive unit costs, a cheapest flow fills no closed walk. *)
Lemma no_flow_cycle f v C :
  feasible smcf f →
  (∀ g, feasible smcf g → flow_cost smcf f ≤ flow_cost smcf g) →
  (∀ i, (i < m)%nat → 1 ≤ uc i) →
  walk smcf v C v → C ≠ [] → NoDup C → (∀ i, i ∈ C → 1 ≤ f i) → False.
Proof.
  intros Hfeas Hopt Hpos HC Hne Hnd Hf.
  destruct (cancel_cycle smcf f v C Hfeas HC Hnd Hf) as [Hg Hcost].
  specialize (Hopt _ Hg).
  assert (0 < sum_over C uc).
  { apply sum_over_pos; [done|]. intros j Hj.
    specialize (Hpos j (walk_lt smcf _ _ _ _ HC Hj)). lia. }
  lia.
Qed.

(** The cost of a cheapest flow is the cost of any source-to-sink walk
    that it fills. *)
Lemma optimal_cost_path f W :
  feasible smcf f →
  (∀ g, feasible smcf g → flow_cost smcf f ≤ flow_cost smcf g) →
  (∀ i, (i < m)%nat → 0 ≤ uc i) →
  walk smcf s W t → NoDup W → (∀ i, i ∈ W → 1 ≤ f i) →
  flow_cost smcf f = sum_over W uc.
Proof.
  intros [Hcapf _] Hopt Hpos HW Hnd Hf.
  rewrite <- (flow_cost_along smcf W) by (intros; by eapply walk_lt).
  apply Z.le_antisymm.
  - apply Hopt. by apply along_feasible.
  - apply flow_cost_mono; [done|]. intros i Hi. unfold along.
    destruct (decide (i ∈ W)) as [Hin|Hin].
    + rewrite count_NoDup by done. by apply Hf.
    + rewrite count_not_in by done. by apply Hcapf.
Qed.

(** No source-to-sink walk is cheaper than a cheapest flow. *)
Lemma optimal_le_walk f W :
  (∀ g, feasible smcf g → flow_cost smcf f ≤ flow_cost smcf g) →
  (∀ i, (i < m)%nat → 0 ≤ uc i) →
  walk smcf s W t → flow_cost smcf f ≤ sum_over W uc.
Proof.
  intros Hopt Hpos HW.
  destruct (walk_simplify smcf uc s W t Hpos HW) as (W' & HW' & Hnd & _ & Hle).
  rewrite <- (flow_cost_along smcf W') in Hle by (intros; by eapply walk_lt).
  etrans; [|exact Hle].
  apply Hopt, along_feasible; [done|]. by eapply NoDup_fmap_1.
Qed.

(** On a cheapest flow of a problem with positive unit costs the loop
    ends within as many turns as there are nodes; the arcs it followed
    form a walk from source to sink whose cost is the cost of the
    flow. *)
Lemma reconstruct_optimal sol fuel :
  feasible smcf (flow sol) →
  (∀ g, feasible smcf g → flow_cost smcf (flow sol) ≤ flow_cost smcf g) →
  (∀ i, (i < m)%nat → 1 ≤ uc i) →
  (N ≤ fuel)%nat →
  ∃ W, walk smcf s W t ∧ NoDup W ∧ (∀ i, i ∈ W → 1 ≤ flow sol i) ∧
       reconstruct node_ids smcf sol t_id fuel s [s_id]
       = Ret (path_of node_ids smcf s_id W) ∧
       flow_cost smcf (flow sol) = sum_over W uc.
Proof.
  intros Hfeas Hopt Hpos Hfuel.
  destruct (reconstruct_progress sol fuel Hfeas [] s)
    as [(W & HW & Hnd & Hf & Hrec)|(v & C & HC & Hne & Hnd & Hf)].
  - constructor.
  - simpl. apply NoDup_singleton.
  - by intros i ?%elem_of_nil.
  - simpl. lia.
  - exists W. split_and!; [done..|].
    apply optimal_cost_path; [done..| |done|done|done].
    intros i Hi. specialize (Hpos i Hi). lia.
  - destruct (no_flow_cycle (flow sol) v C); done.
Qed.

(** A feasible flow exists only if some walk leads from the source to
    the sink. *)
Lemma feasible_walk f : feasible smcf f → ∃ W, walk smcf s W t.
Proof.
  assert (∀ n f, sumZ f m ≤ Z.of_nat n → feasible smcf f →
                 ∃ W, walk smcf s W t) as Hind.
  { clear f. intros n. induction n as [|n IH]; intros f Hn Hfeas.
    all: destruct (reconstruct_progress
                     {| status := OPTIMAL; flow := f |} N Hfeas [] s)
        as [(W & HW & _)|(v & C & HC & Hne & Hnd & Hf)];
        [constructor|apply NoDup_singleton|by intros i ?%elem_of_nil
        |simpl; lia|by exists W|].
    all: simpl in Hf.
    all: destruct (cancel_cycle smcf f v C Hfeas HC Hnd Hf) as [Hg _].
    all: assert (sumZ (λ i, f i - along C i) m = sumZ f m - sum_over C (λ _, 1))
        as Htot
        by (rewrite sumZ_sub; f_equal;
            rewrite <- (sumZ_count C (λ _, 1) m)
              by (intros; by eapply walk_lt);
            apply sumZ_ext; intros; unfold along; lia).
    all: assert (0 < sum_over C (λ _, 1))
        by (apply sum_over_pos; [done|intros; lia]).
    all: assert (0 ≤ sumZ (λ i, f i - along C i) m)
        by (apply sumZ_nonneg; intros i Hi; by apply Hg).
    - lia.
    - apply (IH (λ i, f i - along C i)); [lia|done]. }
  intros Hfeas. apply (Hind (Z.to_nat (sumZ f m)) f); [|done].
  assert (0 ≤ sumZ f m) by (apply sumZ_nonneg; intros i Hi; by apply Hfeas).
  lia.
Qed.
End Reconstruct.

(** ** Flow conservation summed over all nodes *)

Lemma sumZ_swap (F : nat → nat → Z) n k :
  sumZ (λ v, sumZ (λ i, F v i) k) n = sumZ (λ i, sumZ (λ v, F v i) n) k.
Proof.
  induction k as [|k IH]; cbn [sumZ].
  - apply sumZ_zero.
  - rewrite <- IH. by rewrite sumZ_add.
Qed.

Lemma sumZ_delta_r a c n :
  sumZ (λ v, c * delta a v)%Z n = if decide (a < n) then c else 0%Z.
Proof.
  rewrite <- (sumZ_delta (λ _, c) n a). apply sumZ_ext. intros; lia.
Qed.

(** Whatever the flow, what leaves the nodes is what enters them. *)
Lemma excess_total smcf f n :
  (∀ i, i < num_arcs smcf → tail_of smcf i < n ∧ head_of smcf i < n) →
  sumZ (excess smcf f) n = 0%Z.
Proof.
  intros Hlt. unfold excess. rewrite sumZ_swap.
  rewrite <- (sumZ_zero (num_arcs smcf)). apply sumZ_ext. intros i Hi.
  destruct (Hlt i Hi) as [Ht Hh].
  rewrite (sumZ_ext _ (λ v, f i * delta (tail_of smcf i) v
                            - f i * delta (head_of smcf i) v)%Z)
    by (intros; lia).
  rewrite sumZ_sub, !sumZ_delta_r, !decide_True by done. lia.
Qed.

(** ** From the tables to the flow problem and back *)

Section Problem.
Variables (node_ids : list string) (w : EdgeRow → Q) (edges : list EdgeRow).
Variables (s t : nat) (smcf : SimpleMinCostFlow).
Local Abbreviation d := (create_id_to_index_mapping node_ids).
Local Abbreviation m := (num_arcs smcf).
Hypothesis Hprob : flow_problem d w edges s t = inr smcf.

Lemma problem_arcs_resolved i :
  i < m →
  resolved node_ids (tail_of smcf i) ∧ resolved node_ids (head_of smcf i).
Proof.
  intros Hi.
  destruct (flow_problem_arc _ _ _ _ _ _ i Hprob Hi)
    as (row & _ & Hsrc & Htgt & _).
  split; [by exists (source row)|by exists (target row)].
Qed.

Lemma problem_arcs_lt i :
  i < m → tail_of smcf i < length node_ids ∧ head_of smcf i < length node_ids.
Proof.
  intros [[a Ha] [b Hb]]%problem_arcs_resolved.
  split; by eapply id_to_index_lt.
Qed.

Lemma problem_capacity i : i < m → capacity_of smcf i = 1%Z.
Proof.
  intros Hi.
  by destruct (flow_problem_arc _ _ _ _ _ _ i Hprob Hi) as (row & _ & _ & _ & ? & _).
Qed.

Lemma problem_supply v :
  s ≠ t → supply_of smcf v = (delta s v - delta t v)%Z.
Proof.
  intros Hst. rewrite (flow_problem_supply _ _ _ _ _ _ v Hprob).
  unfold delta. repeat case_decide; subst; done.
Qed.


Lemma problem_cost_ge c :
  (∀ row, row ∈ edges → (c ≤ int (w row))%Z) →
  ∀ i, i < m → (c ≤ unit_cost_of smcf i)%Z.
Proof.
  intros Hc i Hi.
  destruct (flow_problem_arc _ _ _ _ _ _ i Hprob Hi) as (row & Hrow & _ & _ & _ & ->).
  apply Hc. by eapply list_elem_of_lookup_2.
Qed.

(** A walk in the arc list is a route through the edge table. *)
Lemma walk_route u W v a :
  walk smcf u W v → d !! a = Some u →
  ∃ b, d !! b = Some v ∧ route edges a W b.
Proof.
  intros HW. revert a. induction HW as [u|u i W v Hi Hti HW IH]; intros a Ha.
  - exists a. split; [done|constructor].
  - destruct (flow_problem_arc _ _ _ _ _ _ i Hprob Hi)
      as (row & Hrow & Hsrc & Htgt & _).
    destruct (IH _ Htgt) as (b & Hb & HR). exists b. split; [done|].
    econstructor; [done| |done].
    eapply id_to_index_inj; [done|]. by rewrite Ha, <- Hti.
Qed.

(** A route through the edge table is a walk in the arc list. *)
Lemma route_walk a R b u :
  route edges a R b → d !! a = Some u →
  ∃ v, d !! b = Some v ∧ walk smcf u R v.
Proof.
  intros HR. revert u. induction HR as [a|a i row R b Hrow Hsrc HR IH]; intros u Ha.
  - exists u. split; [done|constructor].
  - assert (i < m) as Hi.
    { rewrite (flow_problem_length _ _ _ _ _ _ Hprob). by eapply lookup_lt_Some. }
    destruct (flow_problem_arc _ _ _ _ _ _ i Hprob Hi)
      as (row' & Hrow' & Hsrc' & Htgt' & _).
    assert (row' = row) as -> by congruence.
    destruct (IH _ Htgt') as (v & Hv & HW). exists v. split; [done|].
    econstructor; [done| |done]. rewrite Hsrc, Ha in Hsrc'. congruence.
Qed.

Lemma path_of_route s_id W :
  (∀ i, i ∈ W → i < m) →
  path_of node_ids smcf s_id W = route_nodes edges s_id W.
Proof.
  intros HW. unfold path_of, route_nodes. f_equal.
  apply Forall_fmap_ext, Forall_forall. intros i Hi%HW.
  destruct (flow_problem_arc _ _ _ _ _ _ i Hprob Hi)
    as (row & -> & _ & Htgt%id_to_index_Some & _).
  by rewrite Htgt.
Qed.

Lemma cost_of_route W :
  (∀ i, i ∈ W → i < m) →
  sum_over W (unit_cost_of smcf) = route_cost w edges W.
Proof.
  intros HW. apply sum_over_ext. intros i Hi%HW.
  destruct (flow_problem_arc _ _ _ _ _ _ i Hprob Hi)
    as (row & -> & _ & _ & _ & ->).
  done.
Qed.
End Problem.

(** ** One call of [find_optimal_path_ortools] *)

Lemma problem_of_Some nodes_df edges_df s_id t_id w smcf :
  problem_of nodes_df edges_df s_id t_id w = Some smcf →
  ∃ s t,
    create_id_to_index_mapping (node_id <$> nodes_df) !! s_id = Some s ∧
    create_id_to_index_mapping (node_id <$> nodes_df) !! t_id = Some t ∧
    flow_problem (create_id_to_index_mapping (node_id <$> nodes_df))
      w edges_df s t = inr smcf.
Proof.
  unfold problem_of.
  destruct (_ !! s_id) as [s|]; [|done].
  destruct (_ !! t_id) as [t|]; [|done].
  destruct (flow_problem _ _ _ _ _) as [|smcf'] eqn:E; [done|].
  intros [= ->]. by exists s, t.
Qed.

Lemma problem_of_exists nodes_df edges_df s_id t_id w s t :
  create_id_to_index_mapping (node_id <$> nodes_df) !! s_id = Some s →
  create_id_to_index_mapping (node_id <$> nodes_df) !! t_id = Some t →
  edges_resolve (create_id_to_index_mapping (node_id <$> nodes_df)) edges_df →
  ∃ smcf,
    problem_of nodes_df edges_df s_id t_id w = Some smcf ∧
    flow_problem (create_id_to_index_mapping (node_id <$> nodes_df))
      w edges_df s t = inr smcf.
Proof.
  intros Hs Ht Hr. unfold problem_of, flow_problem. rewrite Hs, Ht.
  destruct (add_edges_resolve _ w _ new_smcf Hr) as [smcf0 ->]. eauto.
Qed.

Lemma find_optimal_eq solve fuel nodes_df edges_df s_id t_id w s smcf :
  create_id_to_index_mapping (node_id <$> nodes_df) !! s_id = Some s →
  problem_of nodes_df edges_df s_id t_id w = Some smcf →
  find_optimal_path_ortools solve fuel nodes_df edges_df s_id t_id w =
    if decide (status (solve smcf) = OPTIMAL) then
      match reconstruct (node_id <$> nodes_df) smcf (solve smcf) t_id fuel
              s [s_id] with
      | Ret path => Ret (Some (path, optimal_cost smcf (solve smcf)))
      | Raise e => Raise e
      | OutOfFuel => OutOfFuel
      end
    else Ret None.
Proof.
  intros Hs. unfold problem_of, find_optimal_path_ortools. rewrite Hs.
  destruct (_ !! t_id) as [t|]; [|done].
  destruct (flow_problem _ _ _ _ _) as [|smcf'] eqn:E; [done|].
  by intros [= ->].
Qed.

Section Solve.
Local Open Scope Z_scope.
Variables (nodes_df : list NodeRow) (edges : list EdgeRow).
Variables (s_id t_id : string) (w : EdgeRow → Q).
Variables (s t : nat) (smcf : SimpleMinCostFlow).
Local Abbreviation node_ids := (node_id <$> nodes_df).
Local Abbreviation d := (create_id_to_index_mapping node_ids).
Hypothesis Hs : d !! s_id = Some s.
Hypothesis Ht : d !! t_id = Some t.
Hypothesis Hst : s_id ≠ t_id.
Hypothesis Hprob : flow_problem d w edges s t = inr smcf.

Lemma solve_ends_differ : s ≠ t.
Proof. intros ->. apply Hst. by eapply id_to_index_inj. Qed.

Lemma solve_route_end W b :
  route edges s_id W b → d !! b = Some t → route edges s_id W t_id.
Proof.
  intros HR Hb. by rewrite (id_to_index_inj _ _ _ _ Ht Hb).
Qed.

Lemma solve_walk_route W :
  walk smcf s W t → route edges s_id W t_id.
Proof.
  intros HW.
  destruct (walk_route _ _ _ _ _ _ Hprob _ _ _ _ HW Hs) as (b & Hb & HR).
  by eapply solve_route_end.
Qed.

Lemma solve_route_walk R :
  route edges s_id R t_id → walk smcf s R t.
Proof.
  intros HR.
  destruct (route_walk _ _ _ _ _ _ Hprob _ _ _ _ HR Hs) as (v & Hv & HW).
  by assert (v = t) as -> by congruence.
Qed.

(** A feasible flow exists only if a route leads from source to sink. *)
Lemma solve_feasible_route f :
  feasible smcf f → ∃ R, route edges s_id R t_id.
Proof.
  intros Hf.
  destruct (feasible_walk node_ids smcf s_id t_id s t Hs Ht solve_ends_differ
              (problem_arcs_resolved _ _ _ _ _ _ Hprob)
              (λ v, problem_supply _ _ _ _ _ _ Hprob v solve_ends_differ)
              f Hf) as [W HW].
  exists W. by apply solve_walk_route.
Qed.

(** A route from source to sink yields a feasible flow. *)
Lemma solve_route_feasible R :
  route edges s_id R t_id → ∃ g, feasible smcf g.
Proof.
  intros HW%solve_route_walk.
  destruct (walk_simplify smcf (λ _, 0) s R t) as (W & HW' & Hnd & _);
    [done..|].
  exists (along W).
  apply (along_feasible smcf s t (problem_capacity _ _ _ _ _ _ Hprob)
           (λ v, problem_supply _ _ _ _ _ _ Hprob v solve_ends_differ));
    [done|]. by eapply NoDup_fmap_1.
Qed.

(** What the loop returns on a cheapest flow when every edge costs at
    least 1 after truncation. *)
Lemma solve_optimal sol fuel :
  feasible smcf (flow sol) →
  (∀ g, feasible smcf g → flow_cost smcf (flow sol) ≤ flow_cost smcf g) →
  (∀ row, row ∈ edges → 1 ≤ int (w row)) →
  (length nodes_df ≤ fuel)%nat →
  ∃ R, route edges s_id R t_id ∧ NoDup R ∧
       (∀ i, i ∈ R → 1 ≤ flow sol i) ∧
       reconstruct node_ids smcf sol t_id fuel s [s_id]
       = Ret (route_nodes edges s_id R) ∧
       flow_cost smcf (flow sol) = route_cost w edges R.
Proof.
  intros Hf Hopt Hpos Hfuel.
  destruct (reconstruct_optimal node_ids smcf s_id t_id s t Hs Ht solve_ends_differ
              (problem_arcs_resolved _ _ _ _ _ _ Hprob)
              (problem_capacity _ _ _ _ _ _ Hprob)
              (λ v, problem_supply _ _ _ _ _ _ Hprob v solve_ends_differ)
              sol fuel Hf Hopt)
    as (W & HW & Hnd & HfW & Hrec & Hcost).
  { by apply (problem_cost_ge _ _ _ _ _ _ Hprob). }
  { by rewrite length_fmap. }
  assert (∀ i, i ∈ W → (i < num_arcs smcf)%nat) as Hlt
    by (intros; by eapply walk_lt).
  exists W. split_and!; [by apply solve_walk_route|done..| |].
  - by rewrite <- (path_of_route _ _ _ _ _ _ Hprob).
  - by rewrite <- (cost_of_route _ _ _ _ _ _ Hprob).
Qed.

(** No route from source to sink costs less than a cheapest flow. *)
Lemma solve_lower_bound f R :
  (∀ g, feasible smcf g → flow_cost smcf f ≤ flow_cost smcf g) →
  (∀ row, row ∈ edges → 0 ≤ int (w row)) →
  route edges s_id R t_id → flow_cost smcf f ≤ route_cost w edges R.
Proof.
  intros Hopt Hpos HR%solve_route_walk.
  rewrite <- (cost_of_route _ _ _ _ _ _ Hprob)
    by (intros; by eapply walk_lt).
  apply (optimal_le_walk smcf s t (problem_capacity _ _ _ _ _ _ Hprob)
           (λ v, problem_supply _ _ _ _ _ _ Hprob v solve_ends_differ));
    [done| |done].
  by apply (problem_cost_ge _ _ _ _ _ _ Hprob).
Qed.
End Solve.

(** ** Source and sink on the same node *)

Lemma same_node_infeasible node_ids w edges n smcf :
  flow_problem (create_id_to_index_mapping node_ids) w edges n n = inr smcf →
  n < length node_ids →
  supply_of smcf n = (-1)%Z ∧ ¬ ∃ g, feasible smcf g.
Proof.
  intros Hprob Hn.
  assert (∀ v, supply_of smcf v = (-1 * delta n v)%Z) as Hsup.
  { intros v. rewrite (flow_problem_supply _ _ _ _ _ _ v Hprob).
    unfold delta. repeat case_decide; subst; done. }
  split; [rewrite Hsup, delta_refl; lia|].
  intros [g [_ Hex]].
  pose proof (excess_total smcf g (length node_ids)
                (problem_arcs_lt _ _ _ _ _ _ Hprob)) as Htot.
  rewrite (sumZ_ext _ (λ v, -1 * delta n v)%Z) in Htot
    by (intros; by rewrite Hex, Hsup).
  rewrite sumZ_delta_r, decide_True in Htot by done. lia.
Qed.

(** C10. When the source id and the sink id name the same node, the
    second [set_node_supply] replaces the +1 at that node by -1, no flow
    is feasible, and the call returns [(None, None)], never a one-node
    route of cost 0. *)
Theorem same_node_path_not_found solve fuel nodes_df edges_df n_id w :
  edges_resolve (create_id_to_index_mapping (node_id <$> nodes_df)) edges_df →
  sound_on solve nodes_df edges_df n_id n_id w →
  find_optimal_path_ortools solve fuel nodes_df edges_df n_id n_id w
  = Ret None ∧
  ∀ smcf n,
    problem_of nodes_df edges_df n_id n_id w = Some smcf →
    create_id_to_index_mapping (node_id <$> nodes_df) !! n_id = Some n →
    supply_of smcf n = (-1)%Z ∧ ¬ ∃ g, feasible smcf g.
Proof.
  intros Hres Hsound.
  assert (∀ smcf n,
    problem_of nodes_df edges_df n_id n_id w = Some smcf →
    create_id_to_index_mapping (node_id <$> nodes_df) !! n_id = Some n →
    supply_of smcf n = (-1)%Z ∧ ¬ ∃ g, feasible smcf g) as Hinf.
  { intros smcf n (s & t & Hs & Ht & Hprob)%problem_of_Some Hn.
    assert (s = n) as -> by congruence. assert (t = n) as -> by congruence.
    eapply same_node_infeasible; [done|]. by eapply id_to_index_lt. }
  split; [|done].
  destruct (create_id_to_index_mapping (node_id <$> nodes_df) !! n_id)
    as [n|] eqn:Hn.
  - destruct (problem_of_exists nodes_df edges_df n_id n_id w n n Hn Hn Hres)
      as (smcf & Hp & _).
    rewrite (find_optimal_eq _ _ _ _ _ _ _ n smcf Hn Hp).
    case_decide as Hopt; [|done].
    destruct (Hsound smcf Hp Hopt) as [Hf _].
    destruct (Hinf smcf n Hp eq_refl) as [_ []]. eauto.
  - unfold find_optimal_path_ortools. by rewrite Hn.
Qed.

(** ** Source and sink not connected *)

(** C5. When both ids resolve and no route leads from the source to the
    sink, the call returns [(None, None)]; in particular it does not
    return an empty route with cost 0. *)
Theorem disconnected_path_not_found solve fuel nodes_df edges_df s_id t_id w :
  is_Some (create_id_to_index_mapping (node_id <$> nodes_df) !! s_id) →
  is_Some (create_id_to_index_mapping (node_id <$> nodes_df) !! t_id) →
  edges_resolve (create_id_to_index_mapping (node_id <$> nodes_df)) edges_df →
  sound_on solve nodes_df edges_df s_id t_id w →
  (¬ ∃ R, route edges_df s_id R t_id) →
  find_optimal_path_ortools solve fuel nodes_df edges_df s_id t_id w
  = Ret None ∧
  find_optimal_path_ortools solve fuel nodes_df edges_df s_id t_id w
  ≠ Ret (Some ([], 0%Z)).
Proof.
  intros [s Hs] [t Ht] Hres Hsound Hno.
  assert (find_optimal_path_ortools solve fuel nodes_df edges_df s_id t_id w
          = Ret None) as ->; [|done].
  assert (s_id ≠ t_id) as Hst.
  { intros ->. apply Hno. exists []. constructor. }
  destruct (problem_of_exists nodes_df edges_df s_id t_id w s t Hs Ht Hres)
    as (smcf & Hp & Hprob).
  rewrite (find_optimal_eq _ _ _ _ _ _ _ s smcf Hs Hp).
  case_decide as Hopt; [|done].
  destruct (Hsound smcf Hp Hopt) as [Hf _].
  destruct Hno.
  by eapply (solve_feasible_route nodes_df edges_df s_id t_id w s t smcf).
Qed.

(** ** The least-cost route *)

Lemma route_ends_resolve d edges a R b :
  edges_resolve d edges → route edges a R b →
  (R = [] ∧ a = b) ∨ (is_Some (d !! a) ∧ is_Some (d !! b)).
Proof.
  intros Hres. induction 1 as [a|a i row R b Hrow Hsrc HR IH]; [by left|].
  right. destruct (Hres row) as [Ha Hb]; [by eapply list_elem_of_lookup_2|].
  rewrite <- Hsrc. split; [done|].
  destruct IH as [[_ <-]|[_ ?]]; done.
Qed.

Lemma int_inject_Z z : int (inject_Z z) = z.
Proof. unfold int. simpl. apply Z.quot_1_r. Qed.

(** C1 (amended). On a graph whose edges name known nodes and cost at
    least 1 after truncation to an integer, with distinct source and
    sink joined by some route, and a solver that keeps its contract, the
    call returns a route from source to sink together with the sum of
    the truncated costs of its edges, and no route from source to sink
    has a smaller such sum. *)
Theorem optimal_route_least_cost solve fuel nodes_df edges_df s_id t_id w :
  edges_resolve (create_id_to_index_mapping (node_id <$> nodes_df)) edges_df →
  (∀ row, row ∈ edges_df → (1 ≤ int (w row))%Z) →
  s_id ≠ t_id →
  (∃ R, route edges_df s_id R t_id) →
  sound_on solve nodes_df edges_df s_id t_id w →
  complete_on solve nodes_df edges_df s_id t_id w →
  length nodes_df ≤ fuel →
  ∃ R,
    find_optimal_path_ortools solve fuel nodes_df edges_df s_id t_id w
    = Ret (Some (route_nodes edges_df s_id R, route_cost w edges_df R)) ∧
    route edges_df s_id R t_id ∧
    ∀ R', route edges_df s_id R' t_id →
          (route_cost w edges_df R ≤ route_cost w edges_df R')%Z.
Proof.
  intros Hres Hpos Hst [R0 HR0] Hsound Hcomplete Hfuel.
  destruct (route_ends_resolve _ _ _ _ _ Hres HR0)
    as [[_ ?]|[[s Hs] [t Ht]]]; [done|].
  destruct (problem_of_exists nodes_df edges_df s_id t_id w s t Hs Ht Hres)
    as (smcf & Hp & Hprob).
  rewrite (find_optimal_eq _ _ _ _ _ _ _ s smcf Hs Hp).
  assert (status (solve smcf) = OPTIMAL) as Hopt.
  { apply (Hcomplete smcf Hp).
    by eapply (solve_route_feasible nodes_df edges_df s_id t_id w s t smcf). }
  rewrite decide_True by done.
  destruct (Hsound smcf Hp Hopt) as [Hf Hmin].
  destruct (solve_optimal nodes_df edges_df s_id t_id w s t smcf
              Hs Ht Hst Hprob (solve smcf) fuel Hf Hmin Hpos Hfuel)
    as (R & HR & _ & _ & -> & Hcost).
  exists R. unfold optimal_cost. rewrite Hcost. split_and!; [done..|].
  intros R' HR'. rewrite <- Hcost.
  apply (solve_lower_bound nodes_df edges_df s_id t_id w s t smcf
           Hs Ht Hst Hprob); [done| |done].
  intros row Hrow. specialize (Hpos row Hrow). lia.
Qed.

(** ** Concrete problems *)

(** The facts about arc [i] of a problem built from a given edge table. *)
Ltac arc_facts Hprob i Htl Hhd Hcap Huc :=
  let row := fresh "row" in
  let Hrow := fresh "Hrow" in
  let Hsrc := fresh "Hsrc" in
  let Htgt := fresh "Htgt" in
  let Hc := fresh "Hc" in
  let x := fresh "x" in
  let y := fresh "y" in
  let z := fresh "z" in
  destruct (flow_problem_arc _ _ _ _ _ _ i Hprob
              ltac:(rewrite (flow_problem_length _ _ _ _ _ _ Hprob);
                    simpl; lia))
    as (row & Hrow & Hsrc & Htgt & Hcap & Hc);
  cbn in Hrow; injection Hrow as <-;
  remember (tail_of _ i) as x eqn:Htl;
  remember (head_of _ i) as y eqn:Hhd;
  remember (unit_cost_of _ i) as z eqn:Huc;
  vm_compute in Hsrc, Htgt, Hc;
  injection Hsrc as <-; injection Htgt as <-;
  rewrite Hc in Huc; clear Hc z;
  symmetry in Htl; symmetry in Hhd; symmetry in Huc.

(** Evaluate [delta] on closed arguments. *)
Ltac compute_delta :=
  repeat match goal with
  | H : context [delta ?a ?b] |- _ =>
      let r := eval vm_compute in (delta a b) in
      change (delta a b) with r in H
  end.

Lemma edges_resolve_Forall d edges :
  Forall (λ row, is_Some (d !! source row) ∧ is_Some (d !! target row)) edges →
  edges_resolve d edges.
Proof. intros H row Hrow. by eapply Forall_forall in H. Qed.

Ltac solve_edges_resolve :=
  apply edges_resolve_Forall; repeat constructor; vm_compute; eauto.

Lemma demo_edges_resolve :
  edges_resolve (create_id_to_index_mapping (node_id <$> demo_nodes))
    demo_edges.
Proof. solve_edges_resolve. Qed.

(** On the single edge every feasible flow fills the arc. *)
Lemma pair_unit_solve c :
  sound_on unit_solve pair_nodes (pair_edges c) "S" "M" cost_eur ∧
  complete_on unit_solve pair_nodes (pair_edges c) "S" "M" cost_eur.
Proof.
  split; [|by intros smcf _ _].
  intros smcf (s & t & Hs & Ht & Hprob)%problem_of_Some _.
  vm_compute in Hs, Ht. injection Hs as <-. injection Ht as <-.
  pose proof (λ v, problem_supply _ _ _ _ _ _ Hprob v ltac:(lia)) as Hsup.
  pose proof (flow_problem_length _ _ _ _ _ _ Hprob) as Hlen. simpl in Hlen.
  destruct (flow_problem_arc _ _ _ _ _ _ 0 Hprob ltac:(lia))
    as (row & [= <-] & Hsrc & Htgt & Hcap & _).
  remember (tail_of smcf 0) as x eqn:Htl.
  remember (head_of smcf 0) as y eqn:Hhd.
  vm_compute in Hsrc, Htgt. injection Hsrc as <-. injection Htgt as <-.
  unfold feasible, excess, flow_cost. rewrite Hlen. cbn [sumZ].
  rewrite <- Htl, <- Hhd.
  split; [split|].
  - intros i Hi. assert (i = 0) as -> by lia. rewrite Hcap. simpl. lia.
  - intros v. rewrite Hsup. simpl. lia.
  - intros g [_ Hex]. specialize (Hex 0). rewrite Hsup in Hex.
    unfold delta in Hex. simpl in *. nia.
Qed.

(** The scenario: the unit goes along S, B, M at cost 6. *)
Lemma demo_solve_normal :
  sound_on demo_solve demo_nodes demo_edges "S" "M" cost_eur ∧
  complete_on demo_solve demo_nodes demo_edges "S" "M" cost_eur.
Proof.
  split; [|by intros smcf _ _].
  intros smcf (s & t & Hs & Ht & Hprob)%problem_of_Some _.
  vm_compute in Hs, Ht. injection Hs as <-. injection Ht as <-.
  pose proof (λ v, problem_supply _ _ _ _ _ _ Hprob v ltac:(lia)) as Hsup.
  pose proof (flow_problem_length _ _ _ _ _ _ Hprob) as Hlen. simpl in Hlen.
  arc_facts Hprob 0 Htl0 Hhd0 Hcap0 Huc0.
  arc_facts Hprob 1 Htl1 Hhd1 Hcap1 Huc1.
  arc_facts Hprob 2 Htl2 Hhd2 Hcap2 Huc2.
  arc_facts Hprob 3 Htl3 Hhd3 Hcap3 Huc3.
  unfold feasible, excess, flow_cost, demo_solve. rewrite Hlen. cbn [sumZ flow].
  rewrite Htl0, Htl1, Htl2, Htl3, Hhd0, Hhd1, Hhd2, Hhd3,
    Huc0, Huc1, Huc2, Huc3.
  rewrite decide_True by done. simpl.
  split; [split|].
  - intros i Hi.
    destruct i as [|[|[|[|i]]]]; [rewrite ?Hcap0, ?Hcap1, ?Hcap2, ?Hcap3..|lia];
      simpl; lia.
  - intros v. rewrite Hsup. lia.
  - intros g [Hcapg Hex].
    pose proof (Hex 0) as E0. pose proof (Hex 1) as E1.
    pose proof (Hex 2) as E2. pose proof (Hex 3) as E3.
    rewrite Hsup in E0, E1, E2, E3. compute_delta.
    pose proof (Hcapg 0 ltac:(lia)). pose proof (Hcapg 2 ltac:(lia)). lia.
Qed.

Lemma costs_Forall (w : EdgeRow → Q) edges c :
  Forall (λ row, (c ≤ int (w row))%Z) edges →
  ∀ row, row ∈ edges → (c ≤ int (w row))%Z.
Proof. intros H row Hrow. by eapply Forall_forall in H. Qed.

Lemma demo_route : route demo_edges "S" [2; 3] "M".
Proof. repeat (econstructor; [reflexivity|reflexivity|]). constructor. Qed.

Lemma optimal_route_least_cost_witness :
  ∃ R,
    find_optimal_path_ortools demo_solve 4 demo_nodes demo_edges "S" "M"
      cost_eur
    = Ret (Some (route_nodes demo_edges "S" R,
                 route_cost cost_eur demo_edges R)) ∧
    route demo_edges "S" R "M" ∧
    ∀ R', route demo_edges "S" R' "M" →
          (route_cost cost_eur demo_edges R
           ≤ route_cost cost_eur demo_edges R')%Z.
Proof.
  apply (optimal_route_least_cost demo_solve 4 demo_nodes demo_edges
           "S" "M" cost_eur).
  - exact demo_edges_resolve.
  - apply costs_Forall. repeat constructor; by vm_compute.
  - discriminate.
  - exists [2; 3]. exact demo_route.
  - exact (proj1 demo_solve_normal).
  - exact (proj2 demo_solve_normal).
  - simpl. lia.
Defined.

(** The scenario of the specification: S, B, M at cost 6. *)
Example demo_normal_route :
  find_optimal_path_ortools demo_solve 4 demo_nodes demo_edges "S" "M"
    cost_eur
  = Ret (Some (["S"; "B"; "M"], 6%Z)).
Proof. by vm_compute. Qed.

(** With whole-number weights the truncated sum is the exact sum. *)
Lemma route_cost_exact_int (w : EdgeRow → Q) edges R :
  (∀ row, row ∈ edges → (inject_Z (int (w row)) == w row)%Q) →
  (∀ i, i ∈ R → i < length edges) →
  (inject_Z (route_cost w edges R) == route_cost_exact w edges R)%Q.
Proof.
  intros Hint. induction R as [|i R IH]; intros HR; [reflexivity|].
  unfold route_cost, route_cost_exact in *. simpl.
  rewrite inject_Z_plus, IH by (intros; apply HR; by right).
  destruct (lookup_lt_is_Some_2 edges i) as [row Hrow]; [apply HR; left|].
  rewrite Hrow. simpl. rewrite Hint; [reflexivity|].
  by eapply list_elem_of_lookup_2.
Qed.

(** C1, as stated, fails on a fractional cost: the single edge S to M
    costs 3/2, the solver keeps its contract, and the call returns the
    route S, M with total cost 1, which is not the cost of its edge. *)
Lemma fractional_cost_not_exact :
  (sound_on unit_solve pair_nodes (pair_edges (3 # 2)) "S" "M" cost_eur ∧
   complete_on unit_solve pair_nodes (pair_edges (3 # 2)) "S" "M" cost_eur) ∧
  route (pair_edges (3 # 2)) "S" [0] "M" ∧
  find_optimal_path_ortools unit_solve 2 pair_nodes (pair_edges (3 # 2))
    "S" "M" cost_eur
  = Ret (Some (route_nodes (pair_edges (3 # 2)) "S" [0], 1%Z)) ∧
  ¬ (inject_Z 1 == route_cost_exact cost_eur (pair_edges (3 # 2)) [0%nat])%Q.
Proof.
  split; [apply pair_unit_solve|]. split_and!.
  - econstructor; [reflexivity|reflexivity|constructor].
  - by vm_compute.
  - by vm_compute.
Qed.

Lemma disconnected_path_not_found_witness :
  find_optimal_path_ortools refusing_solve 5 pair_nodes
    [{| source := "M"; target := "S"; cost_eur := 1 |}] "S" "M" cost_eur
  = Ret None ∧
  find_optimal_path_ortools refusing_solve 5 pair_nodes
    [{| source := "M"; target := "S"; cost_eur := 1 |}] "S" "M" cost_eur
  ≠ Ret (Some ([], 0%Z)).
Proof.
  apply (disconnected_path_not_found refusing_solve 5 pair_nodes
           [{| source := "M"; target := "S"; cost_eur := 1 |}]
           "S" "M" cost_eur).
  - vm_compute. eauto.
  - vm_compute. eauto.
  - solve_edges_resolve.
  - intros smcf _ [=].
  - intros [R HR]. inversion HR as [|a i row R' b Hrow Hsrc HR']; subst.
    destruct i as [|i]; [|done]. injection Hrow as <-. discriminate.
Defined.

Lemma same_node_path_not_found_witness :
  find_optimal_path_ortools refusing_solve 5 demo_nodes demo_edges "S" "S"
    cost_eur
  = Ret None ∧
  ∀ smcf n,
    problem_of demo_nodes demo_edges "S" "S" cost_eur = Some smcf →
    create_id_to_index_mapping (node_id <$> demo_nodes) !! "S" = Some n →
    supply_of smcf n = (-1)%Z ∧ ¬ ∃ g, feasible smcf g.
Proof.
  apply (same_node_path_not_found refusing_solve 5 demo_nodes demo_edges
           "S" cost_eur).
  - exact demo_edges_resolve.
  - intros smcf _ [=].
Defined.

(** ** The [while] loop: fuel, determinism, and runs that never end *)

(** More fuel does not change a run that has finished. *)
Lemma reconstruct_fuel_mono node_ids smcf sol t_id fuel fuel' cur path r :
  reconstruct node_ids smcf sol t_id fuel cur path = r →
  r ≠ OutOfFuel → fuel ≤ fuel' →
  reconstruct node_ids smcf sol t_id fuel' cur path = r.
Proof.
  revert fuel' cur path. induction fuel as [|fuel IH];
    intros fuel' cur path Hr Hne Hle; [simpl in Hr; congruence|].
  destruct fuel' as [|fuel']; [lia|]. cbn [reconstruct] in *.
  destruct (node_ids !! cur) as [here|]; [|done].
  case_decide; [done|].
  destruct (first_flow_arc smcf sol cur) as [i|].
  - destruct (node_ids !! head_of smcf i); [|done]. apply IH; [done..|lia].
  - apply IH; [done..|lia].
Qed.


(** A node that is not the sink and has no outgoing arc with flow keeps
    the loop turning for ever. *)
Lemma reconstruct_stuck node_ids smcf sol t_id cur here path :
  node_ids !! cur = Some here → here ≠ t_id →
  first_flow_arc smcf sol cur = None →
  ∀ fuel, reconstruct node_ids smcf sol t_id fuel cur path = OutOfFuel.
Proof.
  intros Hhere Hne Hnone fuel. induction fuel as [|fuel IH]; [done|].
  cbn [reconstruct]. rewrite Hhere, decide_False, Hnone by done. exact IH.
Qed.

(** C2 (amended). The loop has no hop counter and no failure of its
    own.  On a flow that the solver reports as optimal for a problem
    with distinct source and sink whose edge costs are at least 1 after
    truncation, it ends within as many turns as there are nodes.  On
    any flow, once it stands at a node other than the sink without an
    outgoing arc that carries flow, it never ends. *)
Theorem reconstruct_terminates solve nodes_df edges_df s_id t_id w s smcf :
  create_id_to_index_mapping (node_id <$> nodes_df) !! s_id = Some s →
  s_id ≠ t_id →
  problem_of nodes_df edges_df s_id t_id w = Some smcf →
  (∀ row, row ∈ edges_df → (1 ≤ int (w row))%Z) →
  solver_sound smcf (solve smcf) →
  status (solve smcf) = OPTIMAL →
  (∃ path, ∀ fuel, length nodes_df ≤ fuel →
     reconstruct (node_id <$> nodes_df) smcf (solve smcf) t_id fuel s [s_id]
     = Ret path) ∧
  (∀ sol cur here path,
     (node_id <$> nodes_df) !! cur = Some here → here ≠ t_id →
     first_flow_arc smcf sol cur = None →
     ∀ fuel,
       reconstruct (node_id <$> nodes_df) smcf sol t_id fuel cur path
       = OutOfFuel).
Proof.
  intros Hs Hst (s' & t & Hs' & Ht & Hprob)%problem_of_Some Hpos Hsound Hopt.
  assert (s' = s) as -> by congruence.
  destruct (Hsound Hopt) as [Hf Hmin].
  destruct (solve_optimal nodes_df edges_df s_id t_id w s t smcf
              Hs Ht Hst Hprob (solve smcf) (length nodes_df) Hf Hmin Hpos)
    as (R & _ & _ & _ & Hrec & _); [done|].
  split.
  - eexists. intros fuel Hfuel. by eapply reconstruct_fuel_mono.
  - intros sol cur here path Hhere Hne Hnone. by eapply reconstruct_stuck.
Qed.

Lemma reconstruct_terminates_witness :
  (∃ path, ∀ fuel, length demo_nodes ≤ fuel →
     reconstruct (node_id <$> demo_nodes) demo_smcf (demo_solve demo_smcf)
       "M" fuel 0 ["S"]
     = Ret path) ∧
  (∀ sol cur here path,
     (node_id <$> demo_nodes) !! cur = Some here → here ≠ "M" →
     first_flow_arc demo_smcf sol cur = None →
     ∀ fuel,
       reconstruct (node_id <$> demo_nodes) demo_smcf sol "M" fuel cur path
       = OutOfFuel).
Proof.
  apply (reconstruct_terminates demo_solve demo_nodes demo_edges
           "S" "M" cost_eur 0 demo_smcf).
  - by vm_compute.
  - discriminate.
  - by vm_compute.
  - apply costs_Forall. repeat constructor; by vm_compute.
  - apply (proj1 demo_solve_normal). by vm_compute.
  - reflexivity.
Defined.

(** C2, as stated, fails: on the single arc S to M with a flow that is
    zero on it, no arc leaves S with flow, and the loop neither returns
    nor fails, whatever the number of turns. *)
Lemma reconstruct_never_ends :
  first_flow_arc pair_smcf no_flow 0 = None ∧
  ∀ fuel,
    reconstruct ["S"; "M"] pair_smcf no_flow "M" fuel 0 ["S"] = OutOfFuel.
Proof.
  split; [by vm_compute|].
  apply (reconstruct_stuck _ _ _ _ 0 "S"); [done|discriminate|by vm_compute].
Qed.

(** Costs that truncate to 0 leave room for a cheapest flow with a
    closed part.  Here the flow that fills every arc is feasible and of
    least cost, the solver that returns it keeps its contract, and the
    loop goes round A, B, A for ever. *)
Lemma cycle_unit_solve :
  sound_on unit_solve demo_nodes cycle_edges "S" "M" cost_eur ∧
  complete_on unit_solve demo_nodes cycle_edges "S" "M" cost_eur.
Proof.
  split; [|by intros smcf _ _].
  intros smcf (s & t & Hs & Ht & Hprob)%problem_of_Some _.
  vm_compute in Hs, Ht. injection Hs as <-. injection Ht as <-.
  pose proof (λ v, problem_supply _ _ _ _ _ _ Hprob v ltac:(lia)) as Hsup.
  pose proof (flow_problem_length _ _ _ _ _ _ Hprob) as Hlen. simpl in Hlen.
  arc_facts Hprob 0 Htl0 Hhd0 Hcap0 Huc0.
  arc_facts Hprob 1 Htl1 Hhd1 Hcap1 Huc1.
  arc_facts Hprob 2 Htl2 Hhd2 Hcap2 Huc2.
  arc_facts Hprob 3 Htl3 Hhd3 Hcap3 Huc3.
  unfold feasible, excess, flow_cost, unit_solve. rewrite Hlen. cbn [sumZ flow].
  rewrite Htl0, Htl1, Htl2, Htl3, Hhd0, Hhd1, Hhd2, Hhd3,
    Huc0, Huc1, Huc2, Huc3.
  split; [split|].
  - intros i Hi.
    destruct i as [|[|[|[|i]]]]; [rewrite ?Hcap0, ?Hcap1, ?Hcap2, ?Hcap3..|lia];
      lia.
  - intros v. rewrite Hsup. lia.
  - intros g [Hcapg Hex].
    pose proof (Hex 0) as E0. pose proof (Hex 3) as E3.
    rewrite Hsup in E0, E3. compute_delta. lia.
Qed.

Lemma cycle_turns fuel :
  ∀ path,
    reconstruct (node_id <$> demo_nodes) cycle_smcf (unit_solve cycle_smcf)
      "M" fuel 1 path = OutOfFuel ∧
    reconstruct (node_id <$> demo_nodes) cycle_smcf (unit_solve cycle_smcf)
      "M" fuel 2 path = OutOfFuel.
Proof.
  induction fuel as [|fuel IH]; intros path; [done|]. split.
  - change (reconstruct (node_id <$> demo_nodes) cycle_smcf
              (unit_solve cycle_smcf) "M" (S fuel) 1 path)
      with (reconstruct (node_id <$> demo_nodes) cycle_smcf
              (unit_solve cycle_smcf) "M" fuel 2 (path ++ ["B"])).
    apply IH.
  - change (reconstruct (node_id <$> demo_nodes) cycle_smcf
              (unit_solve cycle_smcf) "M" (S fuel) 2 path)
      with (reconstruct (node_id <$> demo_nodes) cycle_smcf
              (unit_solve cycle_smcf) "M" fuel 1 (path ++ ["A"])).
    apply IH.
Qed.

Example zero_cost_cycle_never_ends :
  (sound_on unit_solve demo_nodes cycle_edges "S" "M" cost_eur ∧
   complete_on unit_solve demo_nodes cycle_edges "S" "M" cost_eur) ∧
  (∀ row, row ∈ cycle_edges → (0 < cost_eur row)%Q) ∧
  route cycle_edges "S" [0; 3] "M" ∧
  ∀ fuel,
    find_optimal_path_ortools unit_solve fuel demo_nodes cycle_edges
      "S" "M" cost_eur = OutOfFuel.
Proof.
  split; [exact cycle_unit_solve|]. split_and!.
  - apply (Forall_forall (λ row, (0 < cost_eur row)%Q)).
    repeat constructor.
  - repeat (econstructor; [reflexivity|reflexivity|]). constructor.
  - intros fuel.
    rewrite (find_optimal_eq _ _ _ _ _ _ _ 0 cycle_smcf) by (by vm_compute).
    rewrite decide_True by done.
    destruct fuel as [|fuel]; [done|].
    change (reconstruct (node_id <$> demo_nodes) cycle_smcf
              (unit_solve cycle_smcf) "M" (S fuel) 0 ["S"])
      with (reconstruct (node_id <$> demo_nodes) cycle_smcf
              (unit_solve cycle_smcf) "M" fuel 1 (["S"] ++ ["A"])).
    by rewrite (proj1 (cycle_turns fuel _)).
Qed.



(** With two arcs out of S that both carry flow, the walk goes through
    the head of the first one. *)
Example fork_takes_first_arc :
  reconstruct ["S"; "A"; "B"] fork_smcf (unit_solve fork_smcf) "B" 3 0 ["S"]
  = Ret ["S"; "A"; "B"].
Proof. by vm_compute. Qed.

(** ** Costs as the solver sees them *)







Example int_examples :
  int (3 # 2) = 1%Z ∧ int (-3 # 2) = (-1)%Z ∧ int (15 # 8) = 1%Z ∧
  int 30 = 30%Z.
Proof. by vm_compute. Qed.

(** ** Edges that name unknown nodes *)

(** C4 (amended). There is no separate construction step.  When the
    start and end ids resolve and some edge names an id that is not in
    the node table, the call raises [KeyError] for such an id while it
    adds the arcs, whatever the solver would do; the edge is not
    dropped. *)
Theorem unknown_edge_node_raises nodes_df edges_df s_id t_id w :
  is_Some (create_id_to_index_mapping (node_id <$> nodes_df) !! s_id) →
  is_Some (create_id_to_index_mapping (node_id <$> nodes_df) !! t_id) →
  (∃ row, row ∈ edges_df ∧
     (create_id_to_index_mapping (node_id <$> nodes_df) !! source row = None ∨
      create_id_to_index_mapping (node_id <$> nodes_df) !! target row = None)) →
  ∃ k,
    (k ∉ node_id <$> nodes_df) ∧
    (∃ row, row ∈ edges_df ∧ (k = source row ∨ k = target row)) ∧
    ∀ solve fuel,
      find_optimal_path_ortools solve fuel nodes_df edges_df s_id t_id w
      = Raise (KeyError (StrKey k)).
Proof.
  intros [s Hs] [t Ht] (row & Hrow & Hbad).
  destruct (add_edges_unresolved
              (create_id_to_index_mapping (node_id <$> nodes_df))
              w edges_df new_smcf) as (k & Hadd & Hk & Hin).
  { intros Hres. destruct (Hres row Hrow) as [[? Ha] [? Hb]].
    destruct Hbad; congruence. }
  exists k. split_and!; [|done|].
  - intros [? Hk']%id_to_index_is_Some. congruence.
  - intros solve fuel. unfold find_optimal_path_ortools, flow_problem.
    by rewrite Hs, Ht, Hadd.
Qed.

Lemma unknown_edge_node_raises_witness :
  ∃ k,
    (k ∉ node_id <$> pair_nodes) ∧
    (∃ row,
       row ∈ [{| source := "X"; target := "M"; cost_eur := 1 |}] ∧
       (k = source row ∨ k = target row)) ∧
    ∀ solve fuel,
      find_optimal_path_ortools solve fuel pair_nodes
        [{| source := "X"; target := "M"; cost_eur := 1 |}] "S" "M" cost_eur
      = Raise (KeyError (StrKey k)).
Proof.
  apply (unknown_edge_node_raises pair_nodes
           [{| source := "X"; target := "M"; cost_eur := 1 |}]
           "S" "M" cost_eur).
  - vm_compute. eauto.
  - vm_compute. eauto.
  - eexists. split; [left|]. left. by vm_compute.
Defined.

(** C4, as stated, fails: with a start id that is not in the node
    table, an edge that names the unknown node X raises nothing; the
    call returns [(None, None)] without looking at the edges. *)
Lemma unknown_edge_node_unnoticed :
  ¬ edges_resolve (create_id_to_index_mapping (node_id <$> pair_nodes))
      [{| source := "X"; target := "M"; cost_eur := 1 |}] ∧
  ∀ solve fuel,
    find_optimal_path_ortools solve fuel pair_nodes
      [{| source := "X"; target := "M"; cost_eur := 1 |}] "Z" "M" cost_eur
    = Ret None.
Proof.
  split.
  - intros Hres. destruct (Hres _ ltac:(left)) as [[x Hx] _]. by vm_compute in Hx.
  - intros solve fuel. by vm_compute.
Qed.

(** ** [simulate_disruption] *)

Lemma choice_elem_of {A} rnd (l : list A) :
  l ≠ [] → ∃ x, choice rnd l = inr x ∧ x ∈ l.
Proof.
  intros Hl. unfold choice.
  assert (rnd mod length l < length l) as Hlt.
  { apply Nat.mod_upper_bound. destruct l; [done|simpl; lia]. }
  destruct (lookup_lt_is_Some_2 l _ Hlt) as [x Hx]. rewrite Hx.
  exists x. split; [done|]. by eapply list_elem_of_lookup_2.
Qed.

Lemma on_path_indices_elem_of pe (rows : list EdgeRow) k :
  k ∈ fst <$> filter (λ p, on_path pe p.2) (enumerate rows) ↔
  ∃ row, rows !! k = Some row ∧ on_path pe row.
Proof.
  rewrite list_elem_of_fmap. split.
  - intros ([i row] & -> & [Hp Hin%enumerate_elem_of]%list_elem_of_filter).
    by exists row.
  - intros (row & Hrow & Hp). exists (k, row). split; [done|].
    apply list_elem_of_filter. split; [done|]. by apply enumerate_elem_of.
Qed.

Lemma path_edges_length (path : list string) :
  length (zip (removelast path) (tail path)) = length path - 1.
Proof.
  rewrite length_zip_with.
  assert (length (tail path) = length path - 1) as ->
    by (destruct path; simpl; lia).
  assert (length (removelast path) = length path - 1) as ->; [|lia].
  induction path as [|a [|b path] IH]; [done..|].
  change (removelast (a :: b :: path)) with (a :: removelast (b :: path)).
  simpl in *. rewrite IH. lia.
Qed.


Lemma fresh_ref_ne (h : gmap nat (list EdgeRow)) r rows :
  h !! r = Some rows → fresh (dom h) ≠ r.
Proof.
  intros Hr Heq. apply (is_fresh (dom h)). rewrite Heq.
  apply elem_of_dom. eauto.
Qed.

(** C6. With a route of fewer than two nodes the call reports the empty
    path and changes no cost: it returns a fresh copy with the same
    rows, and the table it was given keeps its rows. *)
Theorem short_path_changes_nothing rnd r path factor w rows :
  heap w !! r = Some rows →
  length path < 2 →
  ∃ r' w',
    simulate_disruption rnd r path factor w = (Ret r', w') ∧
    stdout w' = stdout w ++ [WARNING_empty_path] ∧
    r' ≠ r ∧
    heap w' !! r' = Some rows ∧
    ∀ r0, r0 ≠ r' → heap w' !! r0 = heap w !! r0.
Proof.
  intros Hr Hlen. unfold simulate_disruption, df_copy. rewrite Hr.
  assert (zip (removelast path) (tail path) = []) as ->.
  { apply length_zero_iff_nil. rewrite path_edges_length. lia. }
  rewrite decide_True by done.
  eexists _, _. split; [done|]. cbn [heap stdout print].
  split_and!; [done|by eapply fresh_ref_ne|apply lookup_insert_eq|].
  intros r0 Hr0. by rewrite lookup_insert_ne.
Qed.

Lemma short_path_changes_nothing_witness :
  ∃ r' w',
    simulate_disruption 7 0 ["S"] 10 demo_world = (Ret r', w') ∧
    stdout w' = stdout demo_world ++ [WARNING_empty_path] ∧
    r' ≠ 0 ∧
    heap w' !! r' = Some demo_edges ∧
    ∀ r0, r0 ≠ r' → heap w' !! r0 = heap demo_world !! r0.
Proof.
  apply (short_path_changes_nothing 7 0 ["S"] 10 demo_world demo_edges).
  - reflexivity.
  - simpl. lia.
Defined.



(** ** Solving again after a disruption *)

Lemma find_optimal_Some solve fuel nodes_df edges_df s_id t_id w path c :
  find_optimal_path_ortools solve fuel nodes_df edges_df s_id t_id w
  = Ret (Some (path, c)) →
  ∃ s t smcf,
    create_id_to_index_mapping (node_id <$> nodes_df) !! s_id = Some s ∧
    create_id_to_index_mapping (node_id <$> nodes_df) !! t_id = Some t ∧
    flow_problem (create_id_to_index_mapping (node_id <$> nodes_df))
      w edges_df s t = inr smcf ∧
    problem_of nodes_df edges_df s_id t_id w = Some smcf ∧
    status (solve smcf) = OPTIMAL ∧
    reconstruct (node_id <$> nodes_df) smcf (solve smcf) t_id fuel s [s_id]
    = Ret path ∧
    c = optimal_cost smcf (solve smcf).
Proof.
  unfold find_optimal_path_ortools, problem_of.
  destruct (_ !! s_id) as [s|]; [|done].
  destruct (_ !! t_id) as [t|]; [|done].
  destruct (flow_problem _ _ _ _ _) as [|smcf] eqn:E; [done|].
  case_decide as Hopt; [|done].
  destruct (reconstruct _ _ _ _ _ _ _) as [p| |] eqn:Hrec; [|done..].
  intros [= <- <-]. by exists s, t, smcf.
Qed.

Lemma flow_problem_resolve d w edges s t smcf :
  flow_problem d w edges s t = inr smcf → edges_resolve d edges.
Proof.
  intros [HF _]%flow_problem_inr row [i Hi]%list_elem_of_lookup.
  destruct (Forall2_lookup_l _ _ _ _ _ HF Hi) as (a & _ & Hs & Ht & _).
  split; eauto.
Qed.





(** The routes of a table do not depend on its costs. *)
Lemma route_alter_cost edges k c a R b :
  route (alter (with_cost c) k edges) a R b ↔ route edges a R b.
Proof.
  split.
  - induction 1 as [a|a i row R b Hrow Hsrc HR IH]; [constructor|].
    destruct (decide (i = k)) as [->|Hne].
    + rewrite list_lookup_alter_eq in Hrow.
      destruct (edges !! k) as [row0|] eqn:E; [|done].
      injection Hrow as <-. by econstructor.
    + rewrite list_lookup_alter_ne in Hrow by done. by econstructor.
  - induction 1 as [a|a i row R b Hrow Hsrc HR IH]; [constructor|].
    destruct (decide (i = k)) as [->|Hne].
    + apply (route_cons _ a k (with_cost c row)); [|done..].
      by rewrite list_lookup_alter_eq, Hrow.
    + econstructor; [|done..]. by rewrite list_lookup_alter_ne.
Qed.


(** The first edge of a route is an edge of the node sequence. *)
Lemma route_nodes_first_edge edges a i row R b :
  route edges a (i :: R) b → edges !! i = Some row →
  (source row, target row)
    ∈ zip (removelast (route_nodes edges a (i :: R)))
          (tail (route_nodes edges a (i :: R))).
Proof.
  intros HR Hrow. inversion HR as [|? ? row' ? ? Hrow' Hsrc HR']; subst.
  assert (row' = row) as -> by congruence.
  unfold route_nodes. simpl. rewrite Hrow. simpl.
  destruct ((λ i0, from_option target EmptyString (edges !! i0)) <$> R); left.
Qed.








(** Solving again yields S, A, M at cost 10. *)
Example demo_disrupted_route :
  find_optimal_path_ortools demo_solve 4 demo_nodes demo_edges_disrupted
    "S" "M" cost_eur
  = Ret (Some (["S"; "A"; "M"], 10%Z)).
Proof. by vm_compute. Qed.



(** * Further properties of the code *)

(** ** The dictionary of [create_id_to_index_mapping] *)

Lemma enumerate_snoc {A} (l : list A) x :
  enumerate (l ++ [x]) = enumerate l ++ [(length l, x)].
Proof.
  unfold enumerate. rewrite length_app. simpl.
  rewrite Nat.add_1_r, seq_S. simpl.
  rewrite zip_with_app by (by rewrite length_seq). done.
Qed.

Lemma create_id_to_index_snoc node_ids x :
  create_id_to_index_mapping (node_ids ++ [x])
  = <[x := length node_ids]> (create_id_to_index_mapping node_ids).
Proof.
  unfold create_id_to_index_mapping. by rewrite enumerate_snoc, foldl_app.
Qed.

Lemma id_to_index_last node_ids s i :
  create_id_to_index_mapping node_ids !! s = Some i ↔
  node_ids !! i = Some s ∧ ∀ j, i < j → node_ids !! j ≠ Some s.
Proof.
  revert i. induction node_ids as [|x l IH] using rev_ind; intros i.
  - unfold create_id_to_index_mapping. simpl. rewrite lookup_empty.
    split; [done|by intros [? _]].
  - rewrite create_id_to_index_snoc.
    destruct (decide (x = s)) as [->|Hne].
    + rewrite lookup_insert_eq. split.
      * intros [= <-]. split; [by rewrite list_lookup_middle|].
        intros j Hj. rewrite lookup_ge_None_2; [done|].
        rewrite length_app. simpl. lia.
      * intros [Hi Hlast]. f_equal.
        destruct (decide (i = length l)) as [->|Hil]; [done|].
        destruct (Hlast (length l)); [|by rewrite list_lookup_middle].
        apply lookup_lt_Some in Hi. rewrite length_app in Hi. simpl in Hi. lia.
    + rewrite lookup_insert_ne, IH by done. split.
      * intros [Hi Hlast]. split; [by apply lookup_app_l_Some|].
        intros j Hj. destruct (decide (j < length l)).
        -- rewrite lookup_app_l by done. by apply Hlast.
        -- destruct (decide (j = length l)) as [->|].
           ++ rewrite list_lookup_middle by done. congruence.
           ++ rewrite lookup_ge_None_2; [done|].
              rewrite length_app. simpl. lia.
      * intros [Hi Hlast].
        assert (i < length l) as Hlt.
        { apply lookup_lt_Some in Hi as Hlt. rewrite length_app in Hlt.
          simpl in Hlt. destruct (decide (i = length l)) as [->|]; [|lia].
          rewrite list_lookup_middle in Hi by done. congruence. }
        rewrite lookup_app_l in Hi by done. split; [done|].
        intros j Hj Hjs. apply (Hlast j Hj). by apply lookup_app_l_Some.
Qed.

(** X1. The dictionary holds exactly the ids of the list: an id has an
    entry if and only if it occurs, and its entry is the last position
    at which it occurs (a later duplicate replaces the earlier one). *)
Theorem id_to_index_last_position node_ids s :
  (create_id_to_index_mapping node_ids !! s = None ↔ s ∉ node_ids) ∧
  ∀ i, create_id_to_index_mapping node_ids !! s = Some i ↔
       node_ids !! i = Some s ∧ ∀ j, i < j → node_ids !! j ≠ Some s.
Proof.
  split; [|intros i; apply id_to_index_last].
  split; [|apply id_to_index_None].
  intros Hnone Hin. apply id_to_index_is_Some in Hin as [i Hi]. congruence.
Qed.

Lemma id_to_index_size node_ids :
  NoDup node_ids → size (create_id_to_index_mapping node_ids) = length node_ids.
Proof.
  induction node_ids as [|x l IH] using rev_ind; intros Hnd; [done|].
  apply NoDup_app in Hnd as (Hl & Hx & _).
  rewrite create_id_to_index_snoc, map_size_insert_None, IH, length_app; [|done|].
  - simpl. lia.
  - apply id_to_index_None. intros Hin. apply (Hx x Hin). left.
Qed.

(** X2. When no id occurs twice, the dictionary is the inverse of
    indexing: the entry of an id is [i] exactly when the id stands at
    position [i], and there are as many entries as nodes, so the
    indices are 0 to N-1, each used once. *)
Theorem id_to_index_bijection node_ids :
  NoDup node_ids →
  (∀ s i, create_id_to_index_mapping node_ids !! s = Some i ↔
          node_ids !! i = Some s) ∧
  size (create_id_to_index_mapping node_ids) = length node_ids.
Proof.
  intros Hnd. split; [|by apply id_to_index_size].
  intros s i. rewrite id_to_index_last. split; [by intros [? _]|].
  intros Hi. split; [done|]. intros j Hj Hjs.
  pose proof (NoDup_lookup _ _ _ _ Hnd Hi Hjs). lia.
Qed.

Lemma id_to_index_bijection_witness :
  (∀ s i, create_id_to_index_mapping ["S"; "A"; "B"; "M"] !! s = Some i ↔
          ["S"; "A"; "B"; "M"] !! i = Some s) ∧
  size (create_id_to_index_mapping ["S"; "A"; "B"; "M"])
  = length ["S"; "A"; "B"; "M"].
Proof.
  apply (id_to_index_bijection ["S"; "A"; "B"; "M"]).
  apply (bool_decide_unpack _). by vm_compute.
Defined.

(** With a repeated id the later position wins. *)
Example id_to_index_duplicate :
  create_id_to_index_mapping ["a"; "b"; "a"] !! "a" = Some 2 ∧
  create_id_to_index_mapping ["a"; "b"; "a"] !! "b" = Some 1 ∧
  create_id_to_index_mapping ["a"; "b"; "a"] !! "c" = None.
Proof. by vm_compute. Qed.

(** ** [find_optimal_path_ortools] with any solver *)

Section AnySolver.
Variables (node_ids : list string) (w : EdgeRow → Q) (edges : list EdgeRow).
Variables (s_id t_id : string) (s t : nat) (smcf : SimpleMinCostFlow).
Local Abbreviation d := (create_id_to_index_mapping node_ids).
Hypothesis Hs : d !! s_id = Some s.
Hypothesis Ht : d !! t_id = Some t.
Hypothesis Hprob : flow_problem d w edges s t = inr smcf.

(** Whatever the flow, the loop only ever stands at nodes of the node
    list, follows arcs with flow, and can stop at the sink only. *)
Lemma reconstruct_any sol fuel :
  ∀ W cur,
    walk smcf s W cur → (∀ i, i ∈ W → (0 < flow sol i)%Z) →
    reconstruct node_ids smcf sol t_id fuel cur (path_of node_ids smcf s_id W)
    = OutOfFuel ∨
    ∃ W', reconstruct node_ids smcf sol t_id fuel cur
            (path_of node_ids smcf s_id W)
          = Ret (path_of node_ids smcf s_id W') ∧
          walk smcf s W' t ∧ (∀ i, i ∈ W' → (0 < flow sol i)%Z).
Proof.
  induction fuel as [|fuel IH]; intros W cur HW Hf; [by left|].
  assert (resolved node_ids cur) as Hcur.
  { eapply walk_resolved; [|done|by exists s_id].
    apply (problem_arcs_resolved _ _ _ _ _ _ Hprob). }
  destruct (resolved_lookup _ _ Hcur) as (here & Hhere & _).
  cbn [reconstruct]. rewrite Hhere.
  destruct (decide (here = t_id)) as [Heq|Hneq].
  - right. exists W.
    apply (at_sink node_ids t_id t Ht cur here Hcur Hhere) in Heq as ->. done.
  - destruct (first_flow_arc smcf sol cur) as [i|] eqn:Hi; [|by apply IH].
    apply first_flow_arc_Some in Hi as (Him & Hti & Hpos & _).
    destruct (resolved_lookup node_ids (head_of smcf i))
      as (next_id & Hnext & _);
      [by apply (problem_arcs_resolved _ _ _ _ _ _ Hprob)|].
    rewrite Hnext. rewrite <- (path_of_snoc _ _ _ W i next_id Hnext).
    apply IH; [by eapply walk_snoc|].
    intros j [Hj| ->%list_elem_of_singleton]%elem_of_app; auto.
Qed.
End AnySolver.

Lemma route_nodes_last edges a R b :
  route edges a R b → last (route_nodes edges a R) = Some b.
Proof.
  unfold route_nodes.
  induction 1 as [a|a i row R b Hrow Hsrc HR IH]; [done|].
  rewrite fmap_cons, Hrow. simpl in *. rewrite <- IH.
  by destruct (_ <$> R).
Qed.

Lemma find_optimal_raise solve fuel nodes_df edges_df s_id t_id w e :
  find_optimal_path_ortools solve fuel nodes_df edges_df s_id t_id w = Raise e →
  ∃ k, e = KeyError (StrKey k) ∧
       (k ∉ node_id <$> nodes_df) ∧
       ∃ row, row ∈ edges_df ∧ (k = source row ∨ k = target row).
Proof.
  unfold find_optimal_path_ortools.
  destruct (_ !! s_id) as [s|] eqn:Hs; [|done].
  destruct (_ !! t_id) as [t|] eqn:Ht; [|done].
  destruct (flow_problem _ _ _ _ _) as [e'|smcf] eqn:Hprob.
  - intros [= <-]. unfold flow_problem in Hprob.
    destruct (add_edges _ _ _ _) as [e''|] eqn:Hadd; [|done].
    injection Hprob as ->.
    destruct (add_edges_unresolved
                (create_id_to_index_mapping (node_id <$> nodes_df))
                w edges_df new_smcf) as (k & Hk & Hnone & Hrow).
    { intros Hres. destruct (add_edges_resolve _ w _ new_smcf Hres). congruence. }
    exists k. split_and!; [congruence| |done].
    intros [? ?]%id_to_index_is_Some. congruence.
  - case_decide; [|done].
    destruct (reconstruct_any (node_id <$> nodes_df) w edges_df s_id t_id s t
                smcf Hs Ht Hprob (solve smcf) fuel [] s)
      as [Hout|(W' & Hret & _)];
      [constructor|by intros i ?%elem_of_nil|..].
    + change (path_of (node_id <$> nodes_df) smcf s_id []) with [s_id] in Hout.
      by rewrite Hout.
    + change (path_of (node_id <$> nodes_df) smcf s_id []) with [s_id] in Hret.
      by rewrite Hret.
Qed.



Lemma find_optimal_route solve fuel nodes_df edges_df s_id t_id w path cost :
  find_optimal_path_ortools solve fuel nodes_df edges_df s_id t_id w
  = Ret (Some (path, cost)) →
  ∃ smcf R,
    problem_of nodes_df edges_df s_id t_id w = Some smcf ∧
    status (solve smcf) = OPTIMAL ∧
    path = route_nodes edges_df s_id R ∧
    route edges_df s_id R t_id ∧
    (∀ i, i ∈ R → (0 < flow (solve smcf) i)%Z) ∧
    cost = flow_cost smcf (flow (solve smcf)).
Proof.
  intros (s & t & smcf & Hs & Ht & Hprob & Hp & Hopt & Hrec & ->)%find_optimal_Some.
  destruct (reconstruct_any (node_id <$> nodes_df) w edges_df s_id t_id s t
              smcf Hs Ht Hprob (solve smcf) fuel [] s)
    as [Hout|(W' & Hret & HW' & Hf)];
    [constructor|by intros i ?%elem_of_nil|..].
  - change (path_of (node_id <$> nodes_df) smcf s_id []) with [s_id] in Hout.
    congruence.
  - change (path_of (node_id <$> nodes_df) smcf s_id []) with [s_id] in Hret.
    exists smcf, W'. split_and!; [done..| | |done|done].
    + rewrite <- (path_of_route _ _ _ _ _ _ Hprob)
        by (intros; by eapply walk_lt).
      congruence.
    + by eapply solve_walk_route.
Qed.

(** X4. Whatever the solver answers, a route that the call returns is
    a route of the edge table: it starts at the start id, ends at the
    end id, and each step follows a row of the table whose arc carries
    flow in the solver's answer. *)
Theorem returned_path_is_a_route
    solve fuel nodes_df edges_df s_id t_id w path cost :
  find_optimal_path_ortools solve fuel nodes_df edges_df s_id t_id w
  = Ret (Some (path, cost)) →
  head path = Some s_id ∧ last path = Some t_id ∧
  ∃ smcf R,
    problem_of nodes_df edges_df s_id t_id w = Some smcf ∧
    path = route_nodes edges_df s_id R ∧
    route edges_df s_id R t_id ∧
    ∀ i, i ∈ R → (0 < flow (solve smcf) i)%Z.
Proof.
  intros (smcf & R & Hp & _ & -> & HR & Hf & _)%find_optimal_route.
  split_and!; [done|by apply route_nodes_last|].
  by exists smcf, R.
Qed.

Lemma returned_path_is_a_route_witness :
  head ["S"; "B"; "M"] = Some "S" ∧ last ["S"; "B"; "M"] = Some "M" ∧
  ∃ smcf R,
    problem_of demo_nodes demo_edges "S" "M" cost_eur = Some smcf ∧
    ["S"; "B"; "M"] = route_nodes demo_edges "S" R ∧
    route demo_edges "S" R "M" ∧
    ∀ i, i ∈ R → (0 < flow (demo_solve smcf) i)%Z.
Proof.
  apply (returned_path_is_a_route demo_solve 4 demo_nodes demo_edges
           "S" "M" cost_eur ["S"; "B"; "M"] 6%Z).
  by vm_compute.
Defined.

(** X5. The call returns [(None, None)] in exactly two cases: the start
    or the end id is not in the node table (then neither the edges nor
    the solver are looked at), or the problem was built and the solver
    did not report [OPTIMAL]. *)
Theorem path_not_found_cases solve fuel nodes_df edges_df s_id t_id w :
  find_optimal_path_ortools solve fuel nodes_df edges_df s_id t_id w = Ret None ↔
  ((s_id ∉ node_id <$> nodes_df) ∨ (t_id ∉ node_id <$> nodes_df)) ∨
  ∃ smcf, problem_of nodes_df edges_df s_id t_id w = Some smcf ∧
          status (solve smcf) ≠ OPTIMAL.
Proof.
  split.
  - intros Hnone.
    destruct (create_id_to_index_mapping (node_id <$> nodes_df) !! s_id)
      as [s|] eqn:Hs.
    2: { left; left. intros [? ?]%id_to_index_is_Some. congruence. }
    destruct (create_id_to_index_mapping (node_id <$> nodes_df) !! t_id)
      as [t|] eqn:Ht.
    2: { left; right. intros [? ?]%id_to_index_is_Some. congruence. }
    right.
    destruct (problem_of nodes_df edges_df s_id t_id w) as [smcf|] eqn:Hp.
    + exists smcf. split; [done|]. intros Hopt.
      rewrite (find_optimal_eq _ _ _ _ _ _ _ s smcf Hs Hp) in Hnone.
      rewrite decide_True in Hnone by done.
      by destruct (reconstruct _ _ _ _ _ _ _).
    + unfold problem_of in Hp. unfold find_optimal_path_ortools in Hnone.
      rewrite Hs, Ht in Hp, Hnone.
      by destruct (flow_problem _ _ _ _ _).
  - intros [[Hs|Ht]|(smcf & Hp & Hst)].
    + unfold find_optimal_path_ortools. by rewrite (id_to_index_None _ _ Hs).
    + unfold find_optimal_path_ortools. rewrite (id_to_index_None _ _ Ht).
      by destruct (_ !! s_id).
    + destruct (problem_of_Some _ _ _ _ _ _ Hp) as (s & t & Hs & _).
      rewrite (find_optimal_eq _ _ _ _ _ _ _ s smcf Hs Hp).
      by rewrite decide_False.
Qed.

(** ** Routes returned under the solver's contract *)

Lemma walk_nodes_eq smcf u W v :
  walk smcf u W v →
  (tail_of smcf <$> W) ++ [v] = u :: (head_of smcf <$> W).
Proof.
  induction 1 as [u|u i W v Hi Hti HW IH]; [done|].
  by rewrite !fmap_cons, <- app_comm_cons, IH, Hti.
Qed.

(** A walk filled by a cheapest flow, under positive unit costs, passes
    through no node twice. *)
Lemma simple_nodes smcf f u W v :
  feasible smcf f →
  (∀ g, feasible smcf g → (flow_cost smcf f ≤ flow_cost smcf g)%Z) →
  (∀ i, i < num_arcs smcf → (1 ≤ unit_cost_of smcf i)%Z) →
  walk smcf u W v → (∀ i, i ∈ W → (1 ≤ f i)%Z) →
  NoDup ((tail_of smcf <$> W) ++ [v]).
Proof.
  intros Hfeas Hmin Hpos HW. induction HW as [u|u i W v Hi Hti HW IH];
    intros Hf; [apply NoDup_singleton|].
  assert (NoDup ((tail_of smcf <$> W) ++ [v])) as Hnd
    by (apply IH; intros; apply Hf; by right).
  rewrite fmap_cons, <- app_comm_cons, Hti. apply NoDup_cons. split; [|done].
  intros Hin.
  destruct (walk_split smcf _ _ _ _ HW Hin) as (A & C & -> & HA & HC).
  assert (u ∈ (tail_of smcf <$> C) ++ [v]) as HuC.
  { inversion HC as [|? j C' ? Hj Htj HC']; subst.
    - by apply list_elem_of_singleton.
    - rewrite fmap_cons, <- app_comm_cons, Htj. left. }
  rewrite fmap_app, <- app_assoc in Hnd.
  apply NoDup_app in Hnd as (HndA & Hdisj & _).
  apply (no_flow_cycle smcf 0 1 ltac:(lia) f u (i :: A) Hfeas Hmin Hpos).
  - by econstructor.
  - done.
  - apply (NoDup_fmap_1 (tail_of smcf)). rewrite fmap_cons, Hti.
    apply NoDup_cons. split; [|done]. intros HuA. by apply (Hdisj u HuA).
  - intros j Hj. apply Hf.
    apply elem_of_cons in Hj as [->|Hj]; [left|right].
    apply elem_of_app. by left.
Qed.

(** X6. Under the solver's contract and edge costs of at least 1 after
    truncation, a route that the call returns visits no node twice,
    and so has at most as many nodes as the node table. *)
Theorem returned_path_is_simple
    solve fuel nodes_df edges_df s_id t_id w path cost :
  sound_on solve nodes_df edges_df s_id t_id w →
  (∀ row, row ∈ edges_df → (1 ≤ int (w row))%Z) →
  find_optimal_path_ortools solve fuel nodes_df edges_df s_id t_id w
  = Ret (Some (path, cost)) →
  NoDup path ∧ length path ≤ length nodes_df.
Proof.
  intros Hsound Hpos
    (s & t & smcf & Hs & Ht & Hprob & Hp & Hopt & Hrec & ->)%find_optimal_Some.
  destruct (Hsound smcf Hp Hopt) as [Hf Hmin].
  destruct (reconstruct_any (node_id <$> nodes_df) w edges_df s_id t_id s t
              smcf Hs Ht Hprob (solve smcf) fuel [] s)
    as [Hout|(W & Hret & HW & HfW)];
    [constructor|by intros i ?%elem_of_nil|..].
  { change (path_of (node_id <$> nodes_df) smcf s_id []) with [s_id] in Hout.
    congruence. }
  change (path_of (node_id <$> nodes_df) smcf s_id []) with [s_id] in Hret.
  assert (path = path_of (node_id <$> nodes_df) smcf s_id W) as -> by congruence.
  assert (NoDup ((tail_of smcf <$> W) ++ [t])) as Hnd.
  { apply (simple_nodes smcf (flow (solve smcf)) s W t); [done|done| |done|].
    - by apply (problem_cost_ge _ _ _ _ _ _ Hprob).
    - intros i Hi. specialize (HfW i Hi). lia. }
  assert (∀ x, x ∈ (tail_of smcf <$> W) ++ [t] →
               resolved (node_id <$> nodes_df) x) as Hres.
  { intros x Hx.
    destruct (walk_split smcf _ _ _ _ HW Hx) as (A & C & _ & HA & _).
    eapply walk_resolved; [|done|by exists s_id].
    apply (problem_arcs_resolved _ _ _ _ _ _ Hprob). }
  assert (path_of (node_id <$> nodes_df) smcf s_id W
          = (λ x, default EmptyString ((node_id <$> nodes_df) !! x))
              <$> ((tail_of smcf <$> W) ++ [t])) as Hpath.
  { rewrite (walk_nodes_eq _ _ _ _ HW). unfold path_of. simpl.
    rewrite (id_to_index_Some _ _ _ Hs). simpl. f_equal.
    by rewrite <- list_fmap_compose. }
  rewrite Hpath. split.
  - apply NoDup_fmap_2_strong; [|done].
    intros x y [a [Hxa Ha]]%Hres%resolved_lookup
      [b [Hyb Hb]]%Hres%resolved_lookup.
    rewrite Hxa, Hyb. simpl. intros ->. congruence.
  - rewrite length_fmap, <- (length_fmap node_id nodes_df).
    apply NoDup_bounded; [done|].
    intros x [a Ha]%Hres. by eapply id_to_index_lt.
Qed.

Lemma returned_path_is_simple_witness :
  NoDup ["S"; "B"; "M"] ∧ length ["S"; "B"; "M"] ≤ length demo_nodes.
Proof.
  apply (returned_path_is_simple demo_solve 4 demo_nodes demo_edges
           "S" "M" cost_eur ["S"; "B"; "M"] 6%Z).
  - exact (proj1 demo_solve_normal).
  - apply costs_Forall. repeat constructor; by vm_compute.
  - by vm_compute.
Defined.

(** ** [simulate_disruption] on every branch *)

(** The messages printed before the event and the rows the draw is made
    from: the rows on the route, or every row after a warning. *)
Lemma simulate_disruption_eq rnd r path factor w rows :
  heap w !! r = Some rows →
  simulate_disruption rnd r path factor w =
  let r' := fresh (dom (heap w)) in
  let pe := zip (removelast path) (tail path) in
  let idx := fst <$> filter (λ p, on_path pe p.2) (enumerate rows) in
  if decide (pe = []) then
    (Ret r', {| heap := <[r' := rows]> (heap w);
                stdout := stdout w ++ [WARNING_empty_path] |})
  else
    let pre := if decide (idx = []) then [WARNING_path_edges_not_found]
               else [] in
    let pool := if decide (idx = []) then seq 0 (length rows) else idx in
    match choice rnd pool with
    | inl e => (Raise e, {| heap := <[r' := rows]> (heap w);
                            stdout := stdout w ++ pre |})
    | inr k =>
        match rows !! k with
        | None => (Raise (KeyError (IntKey k)),
                   {| heap := <[r' := rows]> (heap w);
                      stdout := stdout w ++ pre |})
        | Some row =>
            (Ret r',
             {| heap := <[r' := alter (with_cost (cost_eur row * factor)%Q)
                                  k rows]> (heap w);
                stdout := stdout w ++ pre
                          ++ [EVENT_targeted_disruption factor
                                (source row) (target row)] |})
        end
    end.
Proof.
  intros Hr. unfold simulate_disruption, df_copy. rewrite Hr.
  lazy zeta. case_decide; [done|].
  unfold df_rows. cbn [heap]. rewrite lookup_insert_eq.
  change (default [] (Some rows)) with rows.
  case_decide; lazy beta iota zeta.
  - destruct (choice rnd _) as [e|k]; [done|].
    destruct (rows !! k) as [row|]; [|done].
    unfold df_set_cost, print. cbn [heap stdout].
    by rewrite alter_insert_eq, <- !app_assoc.
  - destruct (choice rnd _) as [e|k].
    { by rewrite app_nil_r. }
    destruct (rows !! k) as [row|].
    + unfold df_set_cost, print. cbn [heap stdout].
      by rewrite alter_insert_eq.
    + by rewrite app_nil_r.
Qed.


Lemma path_edges_nil (path : list string) :
  zip (removelast path) (tail path) = [] ↔ length path < 2.
Proof.
  rewrite <- length_zero_iff_nil, path_edges_length. lia.
Qed.



(** X8. With a route of at least two nodes and a table without rows,
    the draw among all rows fails: the call raises [IndexError] after
    the warning, and the empty copy it made stays in the store. *)
Theorem disruption_of_empty_table_raises rnd r path factor w :
  heap w !! r = Some [] →
  2 ≤ length path →
  simulate_disruption rnd r path factor w =
    (Raise IndexError,
     {| heap := <[fresh (dom (heap w)) := []]> (heap w);
        stdout := stdout w ++ [WARNING_path_edges_not_found] |}).
Proof.
  intros Hr Hlen. rewrite (simulate_disruption_eq _ _ _ _ _ [] Hr). lazy zeta.
  by rewrite decide_False by (rewrite path_edges_nil; lia).
Qed.

Lemma disruption_of_empty_table_raises_witness :
  simulate_disruption 3 0 ["S"; "M"] 10 empty_table_world =
    (Raise IndexError,
     {| heap := <[fresh (dom (heap empty_table_world)) := []]>
                  (heap empty_table_world);
        stdout := stdout empty_table_world ++ [WARNING_path_edges_not_found] |}).
Proof.
  apply (disruption_of_empty_table_raises 3 0 ["S"; "M"] 10 empty_table_world).
  - reflexivity.
  - simpl. lia.
Defined.


Lemma endpoints_alter (rows : list EdgeRow) k c :
  (λ row, (source row, target row)) <$> alter (with_cost c) k rows
  = (λ row, (source row, target row)) <$> rows.
Proof.
  apply list_eq. intros i. rewrite !list_lookup_fmap.
  destruct (decide (k = i)) as [->|Hne].
  - rewrite list_lookup_alter_eq. by destruct (rows !! i).
  - by rewrite list_lookup_alter_ne.
Qed.

Lemma edges_resolve_endpoints d (rows rows' : list EdgeRow) :
  (λ row, (source row, target row)) <$> rows'
  = (λ row, (source row, target row)) <$> rows →
  edges_resolve d rows → edges_resolve d rows'.
Proof.
  intros Heq Hres row' Hrow'.
  assert ((source row', target row')
          ∈ (λ row, (source row, target row)) <$> rows') as Hin
    by (apply list_elem_of_fmap; eauto).
  rewrite Heq in Hin.
  apply list_elem_of_fmap in Hin as (row & [= Hs Ht] & Hrow).
  rewrite Hs, Ht. by apply Hres.
Qed.

(** X10. The table that the call returns describes the same graph as the
    one it was given: the same sources and targets row by row, hence
    the same routes and the same ids to resolve; it is the given table
    or differs from it in the cost of one row. *)
Theorem disruption_keeps_the_graph rnd r path factor w r' w' :
  simulate_disruption rnd r path factor w = (Ret r', w') →
  ∃ rows rows',
    heap w !! r = Some rows ∧ heap w' !! r' = Some rows' ∧
    (λ row, (source row, target row)) <$> rows'
    = (λ row, (source row, target row)) <$> rows ∧
    (∀ a R b, route rows' a R b ↔ route rows a R b) ∧
    (∀ d, edges_resolve d rows' ↔ edges_resolve d rows) ∧
    (rows' = rows ∨
     ∃ k row, rows !! k = Some row ∧
              rows' = alter (with_cost (cost_eur row * factor)%Q) k rows).
Proof.
  intros Hsim.
  destruct (heap w !! r) as [rows|] eqn:Hr.
  2: { unfold simulate_disruption, df_copy in Hsim. by rewrite Hr in Hsim. }
  rewrite (simulate_disruption_eq _ _ _ _ _ rows Hr) in Hsim.
  lazy zeta in Hsim. exists rows.
  assert (∀ rows',
    (rows' = rows ∨
     ∃ k row, rows !! k = Some row ∧
              rows' = alter (with_cost (cost_eur row * factor)%Q) k rows) →
    (λ row, (source row, target row)) <$> rows'
    = (λ row, (source row, target row)) <$> rows ∧
    (∀ a R b, route rows' a R b ↔ route rows a R b) ∧
    (∀ d, edges_resolve d rows' ↔ edges_resolve d rows) ∧
    (rows' = rows ∨
     ∃ k row, rows !! k = Some row ∧
              rows' = alter (with_cost (cost_eur row * factor)%Q) k rows))
    as Hgraph.
  { intros rows' Hrows'.
    assert ((λ row, (source row, target row)) <$> rows'
            = (λ row, (source row, target row)) <$> rows) as Hends.
    { destruct Hrows' as [->|(k & row & _ & ->)]; [done|].
      apply endpoints_alter. }
    split_and!; [done| | |done].
    - destruct Hrows' as [->|(k & row & _ & ->)]; [done|].
      intros a R b. apply route_alter_cost.
    - intros d. split; by apply edges_resolve_endpoints. }
  case_decide.
  - injection Hsim as <- <-. exists rows. cbn [heap].
    rewrite lookup_insert_eq. split; [done|]. split; [done|].
    apply Hgraph. by left.
  - destruct (choice rnd _) as [e|k]; [done|].
    destruct (rows !! k) as [row|] eqn:Hk; [|done].
    injection Hsim as <- <-.
    exists (alter (with_cost (cost_eur row * factor)%Q) k rows). cbn [heap].
    rewrite lookup_insert_eq. split; [done|]. split; [done|]. apply Hgraph.
    right. by exists k, row.
Qed.

Lemma disruption_keeps_the_graph_witness :
  ∃ rows rows',
    heap demo_world !! 0 = Some rows ∧
    heap demo_world_disrupted !! 1 = Some rows' ∧
    (λ row, (source row, target row)) <$> rows'
    = (λ row, (source row, target row)) <$> rows ∧
    (∀ a R b, route rows' a R b ↔ route rows a R b) ∧
    (∀ d, edges_resolve d rows' ↔ edges_resolve d rows) ∧
    (rows' = rows ∨
     ∃ k row, rows !! k = Some row ∧
              rows' = alter (with_cost (cost_eur row * 10)%Q) k rows).
Proof.
  apply (disruption_keeps_the_graph 1 0 ["S"; "B"; "M"] 10 demo_world
           1 demo_world_disrupted).
  by vm_compute.
Defined.

Lemma choice_lookup {A} rnd (l : list A) x :
  choice rnd l = inr x → l !! (rnd mod length l) = Some x.
Proof.
  unfold choice. destruct (l !! (rnd mod length l)); [|done]. by intros [= ->].
Qed.



(** ** [create_map] *)

Lemma coords_of_inr nodes_df i c :
  coords_of nodes_df i = inr c ↔
  ∃ j node,
    nodes_df !! j = Some node ∧ node_id node = i ∧
    (∀ j' node', j' < j → nodes_df !! j' = Some node' → node_id node' ≠ i) ∧
    c = (latitude node, longitude node).
Proof.
  unfold coords_of. split.
  - destruct (head (filter _ nodes_df)) as [node|] eqn:Hhead; [|done].
    intros [= <-].
    assert (node_id node = i) as Hid.
    { apply head_Some_elem_of in Hhead.
      by apply list_elem_of_filter in Hhead as [? _]. }
    apply head_filter_Some in Hhead as (l1 & l2 & -> & Hl1).
    exists (length l1), node. split_and!; [|done| |done].
    + by rewrite lookup_app_r, Nat.sub_diag by lia.
    + intros j' node' Hj' Hnode'. rewrite lookup_app_l in Hnode' by done.
      rewrite Forall_forall in Hl1. apply Hl1.
      by eapply list_elem_of_lookup_2.
  - intros (j & node & Hj & Hid & Hfirst & ->).
    rewrite <- (take_drop_middle nodes_df j node Hj), filter_app.
    assert (filter (λ node0, node_id node0 = i) (take j nodes_df) = []) as ->.
    { apply elem_of_nil_inv. intros node' [Hid' Hin]%list_elem_of_filter.
      apply list_elem_of_lookup in Hin as [j' Hj'].
      apply lookup_take_Some in Hj' as [Hj' Hlt].
      by apply (Hfirst j' node'). }
    by rewrite filter_cons_True.
Qed.

Lemma coords_of_inl nodes_df i e :
  coords_of nodes_df i = inl e ↔ e = IndexError ∧ i ∉ node_id <$> nodes_df.
Proof.
  unfold coords_of. split.
  - destruct (head (filter _ nodes_df)) as [node|] eqn:Hhead; [done|].
    intros [= <-]. split; [done|].
    intros (node & Hid & Hin)%list_elem_of_fmap.
    apply head_None in Hhead.
    assert (node ∈ filter (λ node0, node_id node0 = i) nodes_df) as Hf
      by (by apply list_elem_of_filter).
    rewrite Hhead in Hf. by apply elem_of_nil in Hf.
  - intros [-> Hi].
    destruct (head (filter _ nodes_df)) as [node|] eqn:Hhead; [|done].
    destruct Hi. apply head_Some_elem_of in Hhead.
    apply list_elem_of_filter in Hhead as [<- Hin].
    apply list_elem_of_fmap. eauto.
Qed.


Lemma path_coords_inl nodes_df path e :
  path_coords nodes_df path = inl e ↔
  e = IndexError ∧ ∃ i, i ∈ path ∧ i ∉ node_id <$> nodes_df.
Proof.
  induction path as [|i path IH]; simpl.
  - split; [done|]. intros (_ & i & []%elem_of_nil & _).
  - destruct (coords_of nodes_df i) as [e'|c] eqn:Hc.
    + apply coords_of_inl in Hc as [-> Hi]. split.
      * intros [= <-]. split; [done|]. exists i. split; [left|done].
      * by intros [-> _].
    + assert (i ∈ node_id <$> nodes_df) as Hi.
      { apply coords_of_inr in Hc as (j & node & Hj & <- & _).
        apply list_elem_of_fmap. exists node. split; [done|].
        by eapply list_elem_of_lookup_2. }
      destruct (path_coords nodes_df path) as [e'|cs].
      * rewrite IH. split.
        -- intros (-> & i' & Hin & Hi'). split; [done|].
           exists i'. split; [by right|done].
        -- intros (-> & i' & Hin & Hi'). split; [done|].
           exists i'. split; [|done].
           apply elem_of_cons in Hin as [->|Hin]; done.
      * split; [done|]. intros (-> & i' & Hin & Hi').
        apply elem_of_cons in Hin as [->|Hin]; [done|].
        destruct IH as [_ IH]. discriminate IH. eauto.
Qed.

Lemma add_markers r nodes_df :
  ∀ ms m, ms !! r = Some m →
    foldl (λ ms node, add_to (marker_of node) r ms) ms nodes_df
    = <[r := with_more (marker_of <$> nodes_df) m]> ms.
Proof.
  induction nodes_df as [|node nodes IH]; intros ms m Hr; simpl.
  - unfold with_more. rewrite app_nil_r. destruct m. by rewrite insert_id.
  - unfold add_to at 2. rewrite (alter_alt_Some _ _ _ _ Hr).
    rewrite (IH _ (add_child (marker_of node) m)) by apply lookup_insert_eq.
    rewrite insert_insert_eq. unfold with_more, add_child. simpl.
    by rewrite <- app_assoc.
Qed.

Lemma create_map_on nodes_df path color r tooltip ms m :
  ms !! r = Some m →
  create_map nodes_df path color (Some r) tooltip ms =
  match path_coords nodes_df path with
  | inl e => (Raise e, <[r := with_more (marker_of <$> nodes_df) m]> ms)
  | inr coords =>
      (Ret r,
       <[r := with_more ((marker_of <$> nodes_df)
                         ++ [PolyLine coords color (5 # 2) 1 tooltip]) m]> ms)
  end.
Proof.
  intros Hr. unfold create_map. rewrite Hr. lazy beta iota zeta.
  rewrite (add_markers _ _ _ _ Hr).
  destruct (path_coords nodes_df path) as [e|coords]; [done|].
  unfold add_to. rewrite (alter_alt_Some _ _ _ _ (lookup_insert_eq _ _ _)).
  rewrite insert_insert_eq. unfold with_more, add_child. simpl.
  by rewrite <- app_assoc.
Qed.

Lemma create_map_new nodes_df path color tooltip ms :
  create_map nodes_df path color None tooltip ms =
  create_map nodes_df path color (Some (fresh (dom ms))) tooltip
    (<[fresh (dom ms) := folium_Map (40%Q, 0%Q) 2%Z]> ms).
Proof. unfold create_map. by rewrite lookup_insert_eq. Qed.



(** X13. When an id of the path is not in the node table, the call
    raises [IndexError] from the list of coordinates; by then the map
    it was given has already received the markers, and no line. *)
Theorem create_map_unknown_id_raises nodes_df path color r tooltip ms m i :
  ms !! r = Some m →
  i ∈ path → (i ∉ node_id <$> nodes_df) →
  create_map nodes_df path color (Some r) tooltip ms =
    (Raise IndexError, <[r := with_more (marker_of <$> nodes_df) m]> ms).
Proof.
  intros Hr Hin Hi. rewrite (create_map_on _ _ _ _ _ _ _ Hr).
  destruct (path_coords nodes_df path) as [e|coords] eqn:Hc.
  - by apply path_coords_inl in Hc as [-> _].
  - assert (path_coords nodes_df path = inl IndexError) as Hc'
      by (apply path_coords_inl; eauto).
    congruence.
Qed.

Lemma create_map_unknown_id_raises_witness :
  create_map place_nodes ["S"; "X"] "blue" (Some 0) "t" drawn_maps =
    (Raise IndexError,
     <[0 := with_more (marker_of <$> place_nodes) drawn_map]> drawn_maps).
Proof.
  apply (create_map_unknown_id_raises place_nodes ["S"; "X"] "blue" 0 "t"
           drawn_maps drawn_map "X").
  - reflexivity.
  - apply (bool_decide_unpack _). by vm_compute.
  - apply (bool_decide_unpack _). by vm_compute.
Defined.

(** X14. Whatever the outcome, the call leaves every map of the store in
    place with its view, only adds elements after those a map had, and
    alters no map other than the one it was given; a call without a map
    alters none of them and returns a reference that was not in use. *)
Theorem create_map_only_adds nodes_df path color map_object tooltip ms :
  let res := create_map nodes_df path color map_object tooltip ms in
  (∀ r0 m0, ms !! r0 = Some m0 →
     ∃ m1, res.2 !! r0 = Some m1 ∧
           map_location m1 = map_location m0 ∧
           zoom_start m1 = zoom_start m0 ∧
           children m0 `prefix_of` children m1 ∧
           (map_object ≠ Some r0 → m1 = m0)) ∧
  (∀ r, res.1 = Ret r →
     is_Some (res.2 !! r) ∧
     match map_object with
     | Some r' => r = r'
     | None => ms !! r = None
     end).
Proof.
  intros res. unfold res. clear res.
  assert (∀ r m es o r0 m0,
    ms !! r = Some m → ms !! r0 = Some m0 →
    ∃ m1, (o : outcome nat, <[r := with_more es m]> ms).2 !! r0 = Some m1 ∧
          map_location m1 = map_location m0 ∧
          zoom_start m1 = zoom_start m0 ∧
          children m0 `prefix_of` children m1 ∧
          (Some r ≠ Some r0 → m1 = m0)) as Hold.
  { intros r m es o r0 m0 Hr Hr0. cbn [snd].
    destruct (decide (r = r0)) as [->|Hne].
    - rewrite lookup_insert_eq. eexists. split; [done|].
      assert (m0 = m) as -> by congruence.
      split_and!; [done|done|by apply prefix_app_r|done].
    - rewrite lookup_insert_ne by done. exists m0.
      split_and!; done. }
  destruct map_object as [r|].
  - destruct (ms !! r) as [m|] eqn:Hr.
    + rewrite (create_map_on _ _ _ _ _ _ _ Hr).
      destruct (path_coords nodes_df path) as [e|coords].
      * split; [intros r0 m0 Hr0; by apply Hold|]. by intros r0.
      * split; [intros r0 m0 Hr0; by apply Hold|].
        intros r0 [= <-]. cbn [snd]. by rewrite lookup_insert_eq.
    + unfold create_map. rewrite Hr. cbn [fst snd]. split; [|done].
      intros r0 m0 Hr0. exists m0. split_and!; done.
  - rewrite create_map_new.
    set (r := fresh (dom ms)).
    assert (ms !! r = None) as Hfresh.
    { apply not_elem_of_dom. apply is_fresh. }
    rewrite (create_map_on _ _ _ _ _ _ (folium_Map (40%Q, 0%Q) 2%Z)
               (lookup_insert_eq _ _ _)).
    assert (∀ es r0 m0, ms !! r0 = Some m0 →
      <[r := with_more es (folium_Map (40%Q, 0%Q) 2%Z)]>
        (<[r := folium_Map (40%Q, 0%Q) 2%Z]> ms) !! r0 = Some m0) as Hkeep.
    { intros es r0 m0 Hr0. rewrite insert_insert_eq.
      rewrite lookup_insert_ne; [done|]. intros <-. congruence. }
    destruct (path_coords nodes_df path) as [e|coords]; cbn [fst snd].
    + split; [|done]. intros r0 m0 Hr0. exists m0.
      split_and!; [by apply Hkeep|done..].
    + split.
      * intros r0 m0 Hr0. exists m0. split_and!; [by apply Hkeep|done..].
      * intros r0 [= <-]. by rewrite lookup_insert_eq.
Qed.

(** ** [main] *)

Lemma route_lookup edges a R b i :
  route edges a R b → i ∈ R → is_Some (edges !! i).
Proof.
  induction 1 as [|a j row R b Hj Ha HR IH]; intros Hin;
    [by apply elem_of_nil in Hin|].
  apply elem_of_cons in Hin as [->|Hin]; eauto.
Qed.

(** A returned path is the node sequence of a route of the table, and
    all its ids are ids of the node table. *)
Lemma find_optimal_known solve fuel nodes_df edges_df s_id t_id w path cost :
  find_optimal_path_ortools solve fuel nodes_df edges_df s_id t_id w
  = Ret (Some (path, cost)) →
  edges_resolve (create_id_to_index_mapping (node_id <$> nodes_df)) edges_df ∧
  (∀ i, i ∈ path → i ∈ node_id <$> nodes_df) ∧
  ∃ R, path = route_nodes edges_df s_id R ∧ route edges_df s_id R t_id.
Proof.
  intros Hfind.
  destruct (find_optimal_route _ _ _ _ _ _ _ _ _ Hfind)
    as (smcf & R & Hp & Hopt & -> & HR & _).
  destruct (problem_of_Some _ _ _ _ _ _ Hp) as (s & t & Hs & Ht & Hprob).
  pose proof (flow_problem_resolve _ _ _ _ _ _ Hprob) as Hres.
  split; [done|]. split; [|eauto].
  intros i. unfold route_nodes. intros [->|Hin]%elem_of_cons.
  - apply id_to_index_Some in Hs. by eapply list_elem_of_lookup_2.
  - apply list_elem_of_fmap in Hin as (j & -> & Hj).
    destruct (route_lookup _ _ _ _ _ HR Hj) as [row Hrow]. rewrite Hrow. simpl.
    destruct (Hres row) as [_ [x Hx]]; [by eapply list_elem_of_lookup_2|].
    apply id_to_index_Some in Hx. by eapply list_elem_of_lookup_2.
Qed.

(** Along a route of the table the disruption returns: with the
    warning for a route without edges, else with one row of the route
    changed and the event line alone. *)
Lemma simulate_disruption_on_route rnd r factor w edges a R b :
  heap w !! r = Some edges → route edges a R b →
  ∃ rows' msgs,
    simulate_disruption rnd r (route_nodes edges a R) factor w =
      (Ret (fresh (dom (heap w))),
       {| heap := <[fresh (dom (heap w)) := rows']> (heap w);
          stdout := stdout w ++ msgs |}) ∧
    (λ row, (source row, target row)) <$> rows'
    = (λ row, (source row, target row)) <$> edges ∧
    ((R = [] ∧ rows' = edges ∧ msgs = [WARNING_empty_path]) ∨
     ∃ k row,
       edges !! k = Some row ∧
       (source row, target row)
         ∈ zip (removelast (route_nodes edges a R))
               (tail (route_nodes edges a R)) ∧
       rows' = alter (with_cost (cost_eur row * factor)%Q) k edges ∧
       msgs = [EVENT_targeted_disruption factor (source row) (target row)]).
Proof.
  intros Hr HR. rewrite (simulate_disruption_eq _ _ _ _ _ edges Hr). lazy zeta.
  destruct R as [|i R].
  - rewrite decide_True by done. exists edges, [WARNING_empty_path].
    split_and!; [done..|]. by left.
  - assert (∃ row, edges !! i = Some row) as [row0 Hrow0]
      by (inversion HR; eauto).
    pose proof (route_nodes_first_edge _ _ _ _ _ _ HR Hrow0) as Hon.
    set (pe := zip (removelast (route_nodes edges a (i :: R)))
                   (tail (route_nodes edges a (i :: R)))) in *.
    set (idx := fst <$> filter (λ p, on_path pe p.2) (enumerate edges)).
    assert (i ∈ idx) as Hin by (apply on_path_indices_elem_of; eauto).
    assert (idx ≠ []) as Hidx
      by (intros E; rewrite E in Hin; by apply elem_of_nil in Hin).
    assert (pe ≠ []) as Hpe
      by (intros E; rewrite E in Hon; by apply elem_of_nil in Hon).
    rewrite !decide_False by done.
    destruct (choice_elem_of rnd idx Hidx) as (k & -> & Hk).
    apply on_path_indices_elem_of in Hk as (row & Hrow & Hrowon).
    rewrite Hrow. eexists _, _. split; [done|].
    split; [apply endpoints_alter|].
    right. by exists k, row.
Qed.

Lemma find_optimal_no_raise solve fuel nodes_df rows s_id t_id w e :
  edges_resolve (create_id_to_index_mapping (node_id <$> nodes_df)) rows →
  find_optimal_path_ortools solve fuel nodes_df rows s_id t_id w ≠ Raise e.
Proof.
  intros Hres Hraise.
  destruct (find_optimal_raise _ _ _ _ _ _ _ _ Hraise)
    as (k & _ & Hk & row & Hrow & Hend).
  destruct (Hres row Hrow) as [[x Hx] [y Hy]].
  apply id_to_index_Some in Hx, Hy.
  destruct Hend as [-> | ->]; apply Hk; by eapply list_elem_of_lookup_2.
Qed.

Lemma path_coords_total nodes_df path :
  (∀ i, i ∈ path → i ∈ node_id <$> nodes_df) →
  ∃ coords, path_coords nodes_df path = inr coords.
Proof.
  intros Hknown. destruct (path_coords nodes_df path) as [e|coords] eqn:Hc;
    [|eauto].
  apply path_coords_inl in Hc as (_ & i & Hin & Hi). destruct Hi.
  by apply Hknown.
Qed.

(** The two calls of [create_map] in [main], on paths of known ids:
    a new map with the markers, the first line, the markers again and
    the second line. *)
Lemma create_map_twice nodes_df path1 color1 tip1 path2 color2 tip2 ms
    coords1 coords2 :
  path_coords nodes_df path1 = inr coords1 →
  path_coords nodes_df path2 = inr coords2 →
  create_map nodes_df path1 color1 None tip1 ms =
    (Ret (fresh (dom ms)),
     <[fresh (dom ms) :=
         with_more ((marker_of <$> nodes_df)
                    ++ [PolyLine coords1 color1 (5 # 2) 1 tip1])
           (folium_Map (40%Q, 0%Q) 2%Z)]> ms) ∧
  create_map nodes_df path2 color2 (Some (fresh (dom ms))) tip2
    (<[fresh (dom ms) :=
         with_more ((marker_of <$> nodes_df)
                    ++ [PolyLine coords1 color1 (5 # 2) 1 tip1])
           (folium_Map (40%Q, 0%Q) 2%Z)]> ms) =
    (Ret (fresh (dom ms)),
     <[fresh (dom ms) :=
         with_more ((marker_of <$> nodes_df)
                    ++ [PolyLine coords1 color1 (5 # 2) 1 tip1]
                    ++ (marker_of <$> nodes_df)
                    ++ [PolyLine coords2 color2 (5 # 2) 1 tip2])
           (folium_Map (40%Q, 0%Q) 2%Z)]> ms).
Proof.
  intros Hc1 Hc2. split.
  - rewrite create_map_new.
    rewrite (create_map_on _ _ _ _ _ _ _ (lookup_insert_eq _ _ _)), Hc1.
    by rewrite insert_insert_eq.
  - rewrite (create_map_on _ _ _ _ _ _ _ (lookup_insert_eq _ _ _)), Hc2.
    rewrite insert_insert_eq. unfold with_more. simpl.
    by rewrite <- !app_assoc.
Qed.

(** The run of [main] from the first route on. *)
Lemma after_normal_route_runs solve fuel rnd nodes_df r s_id t_id R cost1 p
    edges :
  tables p !! r = Some edges →
  edges_resolve (create_id_to_index_mapping (node_id <$> nodes_df)) edges →
  (∀ i, i ∈ route_nodes edges s_id R → i ∈ node_id <$> nodes_df) →
  route edges s_id R t_id →
  ∃ rows' msgs coords1,
    (λ row, (source row, target row)) <$> rows'
    = (λ row, (source row, target row)) <$> edges ∧
    ((R = [] ∧ rows' = edges ∧ msgs = [WARNING_empty_path]) ∨
     ∃ k row,
       edges !! k = Some row ∧
       (source row, target row)
         ∈ zip (removelast (route_nodes edges s_id R))
               (tail (route_nodes edges s_id R)) ∧
       rows' = alter (with_cost (cost_eur row * 10)%Q) k edges ∧
       msgs = [EVENT_targeted_disruption 10 (source row) (target row)]) ∧
    path_coords nodes_df (route_nodes edges s_id R) = inr coords1 ∧
    let p3 :=
      {| tables := <[fresh (dom (tables p)) := rows']> (tables p);
         maps := maps p;
         console := console p
                    ++ [line_optimal_path (route_nodes edges s_id R);
                        line_total_cost cost1]
                    ++ (Sim <$> msgs) ++ [header_post_disruption];
         disk := disk p |} in
    let run :=
      after_normal_route solve fuel rnd nodes_df r s_id t_id
        (route_nodes edges s_id R) cost1 p in
    match find_optimal_path_ortools solve fuel nodes_df rows' s_id t_id
            cost_eur with
    | Raise e => False
    | OutOfFuel => run = (OutOfFuel, p3)
    | Ret None => run = (Ret (), p3)
    | Ret (Some (path2, cost2)) =>
        ∃ coords2,
          path_coords nodes_df path2 = inr coords2 ∧
          let m :=
            with_more
              ((marker_of <$> nodes_df)
               ++ [PolyLine coords1 "blue" (5 # 2) 1 (tooltip_normal cost1)]
               ++ (marker_of <$> nodes_df)
               ++ [PolyLine coords2 "red" (5 # 2) 1 (tooltip_disrupted cost2)])
              (folium_Map (40%Q, 0%Q) 2%Z) in
          run =
            (Ret (),
             {| tables := tables p3;
                maps := <[fresh (dom (maps p)) := m]> (maps p);
                console := console p3
                           ++ [line_new_optimal_path path2;
                               line_new_total_cost cost2;
                               line_impact cost2 cost1;
                               info_generating;
                               success_saved "supply_chain_map.html"];
                disk := <["supply_chain_map.html" := m]> (disk p) |})
    end.
Proof.
  intros Hr Hres Hknown HR.
  destruct (simulate_disruption_on_route rnd r 10
              {| heap := tables p; stdout := [] |} edges s_id R t_id Hr HR)
    as (rows' & msgs & Hsim & Hends & Hcases).
  cbn [heap stdout] in Hsim.
  destruct (path_coords_total nodes_df _ Hknown) as [coords1 Hc1].
  exists rows', msgs, coords1. split_and!; [done..|].
  intros p3 run.
  assert (edges_resolve (create_id_to_index_mapping (node_id <$> nodes_df))
            rows') as Hres' by (by eapply edges_resolve_endpoints).
  assert (∀ l, (((console p ++ [line_optimal_path (route_nodes edges s_id R)])
                 ++ [line_total_cost cost1]) ++ (Sim <$> [] ++ msgs))
               ++ header_post_disruption :: l
               = (console p
                  ++ [line_optimal_path (route_nodes edges s_id R);
                      line_total_cost cost1]
                  ++ (Sim <$> msgs) ++ [header_post_disruption]) ++ l) as Hcon.
  { intros l. by rewrite <- !app_assoc. }
  unfold run, after_normal_route, run_simulate_disruption.
  cbn [say tables maps console disk]. rewrite Hsim.
  cbn [say tables maps console disk heap stdout].
  rewrite lookup_insert_eq.
  change (default [] (Some rows')) with rows'.
  destruct (find_optimal_path_ortools solve fuel nodes_df rows' s_id t_id
              cost_eur) as [[[path2 cost2]|]|e|] eqn:Hfind.
  - destruct (find_optimal_known _ _ _ _ _ _ _ _ _ Hfind)
      as (_ & Hknown2 & R2 & Hpath2 & _).
    destruct (path_coords_total nodes_df _ Hknown2) as [coords2 Hc2].
    exists coords2. split; [done|].
    rewrite decide_False by (by rewrite Hpath2).
    destruct (create_map_twice nodes_df (route_nodes edges s_id R) "blue"
                (tooltip_normal cost1) path2 "red" (tooltip_disrupted cost2)
                (maps p) coords1 coords2 Hc1 Hc2) as [Hm1 Hm2].
    unfold run_create_map. cbn [say tables maps console disk].
    rewrite Hm1. cbn [say tables maps console disk].
    rewrite Hm2. unfold save. cbn [say tables maps console disk].
    rewrite lookup_insert_eq. unfold say, p3.
    cbn [say tables maps console disk].
    f_equal. f_equal. rewrite <- Hcon. by rewrite <- !app_assoc.
  - unfold say, p3. cbn [tables maps console disk]. f_equal. f_equal.
    by rewrite <- (app_nil_r (_ ++ _ ++ _ ++ [header_post_disruption])),
         <- Hcon.
  - by apply find_optimal_no_raise in Hfind.
  - unfold say, p3. cbn [tables maps console disk]. f_equal. f_equal.
    by rewrite <- (app_nil_r (_ ++ _ ++ _ ++ [header_post_disruption])),
         <- Hcon.
Qed.

(** [main] once both files were read: the table is object 0 of the
    store, and a returned path is never empty. *)
Lemma main_loaded solve fuel rnd_start rnd_end rnd_edge fs nodes edges :
  nodes_csv fs = Some nodes → edges_csv fs = Some edges →
  main solve fuel rnd_start rnd_end rnd_edge fs =
  let p0 := {| tables := {[0 := edges]}; maps := ∅;
               console := [info_initiating]; disk := ∅ |} in
  match choice rnd_start
          (node_id <$> filter (λ node, node_type node = "supplier") nodes) with
  | inl e => (Raise e, p0)
  | inr s =>
      match choice rnd_end
              (node_id <$> filter (λ node, node_type node = "market") nodes)
      with
      | inl e => (Raise e, p0)
      | inr t =>
          let p2 := {| tables := {[0 := edges]}; maps := ∅;
                       console := [info_initiating; info_optimizing s t;
                                   header_normal];
                       disk := ∅ |} in
          match find_optimal_path_ortools solve fuel nodes edges s t cost_eur
          with
          | Raise e => (Raise e, p2)
          | OutOfFuel => (OutOfFuel, p2)
          | Ret None =>
              (Ret (),
               {| tables := {[0 := edges]}; maps := ∅;
                  console := [info_initiating; info_optimizing s t;
                              header_normal; info_no_path s t];
                  disk := ∅ |})
          | Ret (Some (path1, cost1)) =>
              after_normal_route solve fuel rnd_edge nodes 0 s t path1 cost1 p2
          end
      end
  end.
Proof.
  intros Hn He. unfold main, load_data. rewrite Hn, He.
  cbn [say new_process tables maps console disk app].
  change (fresh (dom (∅ : gmap nat (list EdgeRow)))) with 0.
  rewrite insert_empty.
  destruct (choice rnd_start _) as [e|s]; [done|].
  destruct (choice rnd_end _) as [e|t]; [done|].
  rewrite lookup_singleton_eq.
  change (default [] (Some edges)) with edges.
  destruct (find_optimal_path_ortools solve fuel nodes edges s t cost_eur)
    as [[[path1 cost1]|]|e|] eqn:Hfind; [|done..].
  destruct (find_optimal_known _ _ _ _ _ _ _ _ _ Hfind)
    as (_ & _ & R & -> & _).
  by rewrite decide_False by done.
Qed.

Lemma main_missing_file_run solve fuel rnd_start rnd_end rnd_edge fs :
  nodes_csv fs = None ∨ edges_csv fs = None →
  main solve fuel rnd_start rnd_end rnd_edge fs =
    (Ret (),
     {| tables := ∅; maps := ∅;
        console := [info_initiating;
                    CRITICAL_not_found
                      (match nodes_csv fs with
                       | None => "nodes.csv"
                       | Some _ => "edges.csv"
                       end);
                    critical_halting];
        disk := ∅ |}).
Proof.
  intros Hmiss. unfold main, load_data.
  destruct (nodes_csv fs) as [nodes|]; [|done].
  destruct (edges_csv fs) as [edges|]; [|done].
  by destruct Hmiss.
Qed.

(** X15. When [nodes.csv] or [edges.csv] does not exist, [main] names
    the first missing file, nodes before edges, says that it halts and
    returns: no table is kept, nothing is solved, drawn or saved,
    whatever the solver and the draws. *)
Theorem main_halts_on_missing_file solve fuel rnd_start rnd_end rnd_edge fs :
  nodes_csv fs = None ∨ edges_csv fs = None →
  main solve fuel rnd_start rnd_end rnd_edge fs =
    (Ret (),
     {| tables := ∅; maps := ∅;
        console := [info_initiating;
                    CRITICAL_not_found
                      (match nodes_csv fs with
                       | None => "nodes.csv"
                       | Some _ => "edges.csv"
                       end);
                    critical_halting];
        disk := ∅ |}).
Proof.
  intros Hmiss. unfold main, load_data.
  destruct (nodes_csv fs) as [nodes|]; [|done].
  destruct (edges_csv fs) as [edges|]; [|done].
  by destruct Hmiss.
Qed.

Lemma main_halts_on_missing_file_witness :
  main demo_solve 4 0 0 1 no_edges_file =
    (Ret (),
     {| tables := ∅; maps := ∅;
        console := [info_initiating;
                    CRITICAL_not_found
                      (match nodes_csv no_edges_file with
                       | None => "nodes.csv"
                       | Some _ => "edges.csv"
                       end);
                    critical_halting];
        disk := ∅ |}).
Proof.
  apply (main_halts_on_missing_file demo_solve 4 0 0 1 no_edges_file).
  right. reflexivity.
Defined.

Lemma choice_nil {A} rnd : choice rnd ([] : list A) = inl IndexError.
Proof. done. Qed.

Lemma choice_inl {A} rnd (l : list A) e :
  choice rnd l = inl e → e = IndexError ∧ l = [].
Proof.
  intros Hc. destruct l as [|x l]; [by injection Hc as <-|].
  destruct (choice_elem_of rnd (x :: l)) as (y & Hy & _); [done|]. congruence.
Qed.

Lemma no_rows_of_type (nodes : list NodeRow) ty :
  node_id <$> filter (λ node, node_type node = ty) nodes = [] ↔
  ∀ node, node ∈ nodes → node_type node ≠ ty.
Proof.
  split.
  - intros Hnil%fmap_nil_inv node Hin Hty.
    assert (node ∈ filter (λ node, node_type node = ty) nodes) as Hf
      by (by apply list_elem_of_filter).
    rewrite Hnil in Hf. by apply elem_of_nil in Hf.
  - intros Hno.
    assert (filter (λ node, node_type node = ty) nodes = []) as ->; [|done].
    apply elem_of_nil_inv.
    intros node [Hty Hin]%list_elem_of_filter. by apply (Hno node).
Qed.

(** X16. With both files read but no row of type supplier, or none of
    type market, in the node table, [main] raises [IndexError] from the
    draw, having printed its first line only and solved nothing. *)
Theorem main_without_supplier_or_market_raises
    solve fuel rnd_start rnd_end rnd_edge fs nodes edges :
  nodes_csv fs = Some nodes → edges_csv fs = Some edges →
  (∀ node, node ∈ nodes → node_type node ≠ "supplier") ∨
  (∀ node, node ∈ nodes → node_type node ≠ "market") →
  main solve fuel rnd_start rnd_end rnd_edge fs =
    (Raise IndexError,
     {| tables := {[0 := edges]}; maps := ∅;
        console := [info_initiating]; disk := ∅ |}).
Proof.
  intros Hn He Hno. rewrite (main_loaded _ _ _ _ _ _ _ _ Hn He). lazy zeta.
  destruct Hno as [Hno|Hno]; apply no_rows_of_type in Hno; rewrite Hno.
  - done.
  - rewrite choice_nil. by destruct (choice rnd_start _) as [e|s] eqn:Hc;
      [apply choice_inl in Hc as [-> _]|].
Qed.

Lemma main_without_supplier_or_market_raises_witness :
  main demo_solve 4 0 0 1 no_market_files =
    (Raise IndexError,
     {| tables := {[0 := []]}; maps := ∅;
        console := [info_initiating]; disk := ∅ |}).
Proof.
  apply (main_without_supplier_or_market_raises demo_solve 4 0 0 1
           no_market_files [mk_node "S" "supplier"; mk_node "A" "hub"] []).
  - reflexivity.
  - reflexivity.
  - right. apply Forall_forall. apply (bool_decide_unpack _). by vm_compute.
Defined.

(** Every way in which [main] ends once both files were read. *)
Lemma main_ends solve fuel rnd_start rnd_end rnd_edge fs nodes edges :
  nodes_csv fs = Some nodes → edges_csv fs = Some edges →
  let suppliers :=
    node_id <$> filter (λ node, node_type node = "supplier") nodes in
  let markets :=
    node_id <$> filter (λ node, node_type node = "market") nodes in
  let res := main solve fuel rnd_start rnd_end rnd_edge fs in
  let T0 : gmap nat (list EdgeRow) := {[0 := edges]} in
  (res = (Raise IndexError,
          {| tables := T0; maps := ∅; console := [info_initiating];
             disk := ∅ |}) ∧
   (suppliers = [] ∨ markets = [])) ∨
  ∃ s t,
    choice rnd_start suppliers = inr s ∧ choice rnd_end markets = inr t ∧
    s ∈ suppliers ∧ t ∈ markets ∧
    let first :=
      find_optimal_path_ortools solve fuel nodes edges s t cost_eur in
    let p2 := {| tables := T0; maps := ∅;
                 console := [info_initiating; info_optimizing s t;
                             header_normal];
                 disk := ∅ |} in
    (∃ k row, first = Raise (KeyError (StrKey k)) ∧
              res = (Raise (KeyError (StrKey k)), p2) ∧
              (k ∉ node_id <$> nodes) ∧ row ∈ edges ∧
              (k = source row ∨ k = target row)) ∨
    (first = OutOfFuel ∧ res = (OutOfFuel, p2)) ∨
    (first = Ret None ∧
     res = (Ret (),
            {| tables := T0; maps := ∅;
               console := [info_initiating; info_optimizing s t;
                           header_normal; info_no_path s t];
               disk := ∅ |})) ∨
    ∃ R cost1 rows' msgs coords1,
      first = Ret (Some (route_nodes edges s R, cost1)) ∧
      route edges s R t ∧
      (λ row, (source row, target row)) <$> rows'
      = (λ row, (source row, target row)) <$> edges ∧
      ((R = [] ∧ rows' = edges ∧ msgs = [WARNING_empty_path]) ∨
       ∃ k row,
         edges !! k = Some row ∧
         (source row, target row)
           ∈ zip (removelast (route_nodes edges s R))
                 (tail (route_nodes edges s R)) ∧
         rows' = alter (with_cost (cost_eur row * 10)%Q) k edges ∧
         msgs = [EVENT_targeted_disruption 10 (source row) (target row)]) ∧
      path_coords nodes (route_nodes edges s R) = inr coords1 ∧
      let second :=
        find_optimal_path_ortools solve fuel nodes rows' s t cost_eur in
      let p3 :=
        {| tables := <[fresh (dom T0) := rows']> T0; maps := ∅;
           console := [info_initiating; info_optimizing s t; header_normal;
                       line_optimal_path (route_nodes edges s R);
                       line_total_cost cost1]
                      ++ (Sim <$> msgs) ++ [header_post_disruption];
           disk := ∅ |} in
      (second = OutOfFuel ∧ res = (OutOfFuel, p3)) ∨
      (second = Ret None ∧ res = (Ret (), p3)) ∨
      ∃ path2 cost2 coords2,
        second = Ret (Some (path2, cost2)) ∧
        path_coords nodes path2 = inr coords2 ∧
        let m :=
          with_more
            ((marker_of <$> nodes)
             ++ [PolyLine coords1 "blue" (5 # 2) 1 (tooltip_normal cost1)]
             ++ (marker_of <$> nodes)
             ++ [PolyLine coords2 "red" (5 # 2) 1 (tooltip_disrupted cost2)])
            (folium_Map (40%Q, 0%Q) 2%Z) in
        res =
          (Ret (),
           {| tables := tables p3;
              maps := {[0 := m]};
              console := console p3
                         ++ [line_new_optimal_path path2;
                             line_new_total_cost cost2;
                             line_impact cost2 cost1;
                             info_generating;
                             success_saved "supply_chain_map.html"];
              disk := {["supply_chain_map.html" := m]} |}).
Proof.
  intros Hn He suppliers markets res T0. unfold res.
  rewrite (main_loaded _ _ _ _ _ _ _ _ Hn He). lazy zeta.
  fold suppliers markets T0.
  destruct (choice rnd_start suppliers) as [e|s] eqn:Hs.
  { apply choice_inl in Hs as [-> Hs]. left. eauto. }
  destruct (choice rnd_end markets) as [e|t] eqn:Ht.
  { apply choice_inl in Ht as [-> Ht]. left. eauto. }
  right. exists s, t.
  assert (s ∈ suppliers) as Hsin.
  { apply choice_lookup in Hs. by eapply list_elem_of_lookup_2. }
  assert (t ∈ markets) as Htin.
  { apply choice_lookup in Ht. by eapply list_elem_of_lookup_2. }
  split; [done|]. split; [done|]. split; [done|]. split; [done|]. lazy zeta.
  destruct (find_optimal_path_ortools solve fuel nodes edges s t cost_eur)
    as [[[path1 cost1]|]|e|] eqn:Hfind.
  - right. right. right.
    destruct (find_optimal_known _ _ _ _ _ _ _ _ _ Hfind)
      as (Hres & Hknown & R & -> & HR).
    set (p2 := {| tables := T0; maps := ∅;
                  console := [info_initiating; info_optimizing s t;
                              header_normal];
                  disk := ∅ |}).
    destruct (after_normal_route_runs solve fuel rnd_edge nodes 0 s t R cost1
                p2 edges (lookup_singleton_eq _ _) Hres Hknown HR)
      as (rows' & msgs & coords1 & Hends & Hcases & Hc1 & Hrun).
    exists R, cost1, rows', msgs, coords1.
    split_and!; [done..|]. lazy zeta in Hrun. lazy zeta.
    cbn [tables maps console disk p2] in Hrun.
    change (fresh (dom (∅ : gmap nat FoliumMap))) with 0 in Hrun.
    destruct (find_optimal_path_ortools solve fuel nodes rows' s t cost_eur)
      as [[[path2 cost2]|]|e|]; [|by right; left|done|by left].
    right. right. destruct Hrun as (coords2 & Hc2 & Hrun).
    exists path2, cost2, coords2. split_and!; [done..|].
    rewrite !insert_empty in Hrun. by rewrite Hrun.
  - right. right. left. done.
  - left. destruct (find_optimal_raise _ _ _ _ _ _ _ _ Hfind)
      as (k & -> & Hk & row & Hrow & Hend).
    by exists k, row.
  - right. left. done.
Qed.



(** X18. [main] writes at most one file, [supply_chain_map.html], and
    only at the end of a run that returns with the success line.  The
    saved map is a new one at (40, 0), zoom 2, and holds, in this
    order, one marker per row of the node table, the blue line, the
    same markers a second time, and the red line. *)
Theorem main_saves_one_map_or_nothing
    solve fuel rnd_start rnd_end rnd_edge fs :
  let res := main solve fuel rnd_start rnd_end rnd_edge fs in
  disk res.2 = ∅ ∨
  ∃ nodes coords1 coords2 tip1 tip2,
    nodes_csv fs = Some nodes ∧
    disk res.2 =
      {["supply_chain_map.html" :=
          with_more
            ((marker_of <$> nodes)
             ++ [PolyLine coords1 "blue" (5 # 2) 1 tip1]
             ++ (marker_of <$> nodes)
             ++ [PolyLine coords2 "red" (5 # 2) 1 tip2])
            (folium_Map (40%Q, 0%Q) 2%Z)]} ∧
    res.1 = Ret () ∧
    last (console res.2) = Some (success_saved "supply_chain_map.html").
Proof.
  intros res. unfold res. clear res.
  destruct (nodes_csv fs) as [nodes|] eqn:Hn.
  2: { rewrite main_missing_file_run by (left; done). by left. }
  destruct (edges_csv fs) as [edges|] eqn:He.
  2: { rewrite main_missing_file_run by (right; done). by left. }
  destruct (main_ends solve fuel rnd_start rnd_end rnd_edge fs nodes edges
              Hn He) as [[Hres Hno]|(s & t & _ & _ & _ & _ & Hcases)];
    lazy zeta in *.
  { rewrite Hres. by left. }
  destruct Hcases as [(k & row & _ & Hres & _)|[[_ Hres]|[[_ Hres]|Hrun]]];
    [rewrite Hres; by left..|].
  destruct Hrun as (R & cost1 & rows' & msgs & coords1 & _ & _ & _ & _
                    & _ & [[_ Hres]|[[_ Hres]|Hres]]);
    [rewrite Hres; by left..|].
  destruct Hres as (path2 & cost2 & coords2 & _ & _ & Hres).
  rewrite Hres. right.
  exists nodes, coords1, coords2, (tooltip_normal cost1),
    (tooltip_disrupted cost2).
  cbn [fst snd disk console]. split_and!; [done..|].
  rewrite app_assoc.
  change [line_new_optimal_path path2; line_new_total_cost cost2;
          line_impact cost2 cost1; info_generating;
          success_saved "supply_chain_map.html"]
    with ([line_new_optimal_path path2; line_new_total_cost cost2;
           line_impact cost2 cost1; info_generating]
          ++ [success_saved "supply_chain_map.html"]).
  by rewrite app_assoc, last_snoc.
Qed.

(** X19. In a run of [main] the disruption always finds an edge of the
    route in the table: the warning of the fallback to a random edge is
    never printed, whatever the solver answers.  The warning about an
    empty path needs a start that is also the end, that is, an id that
    a supplier row and a market row share. *)
Theorem main_never_falls_back_to_random_edge
    solve fuel rnd_start rnd_end rnd_edge fs :
  let res := main solve fuel rnd_start rnd_end rnd_edge fs in
  (Sim WARNING_path_edges_not_found ∉ console res.2) ∧
  (Sim WARNING_empty_path ∈ console res.2 →
   ∃ nodes s,
     nodes_csv fs = Some nodes ∧
     s ∈ node_id <$> filter (λ node, node_type node = "supplier") nodes ∧
     s ∈ node_id <$> filter (λ node, node_type node = "market") nodes).
Proof.
  intros res. unfold res. clear res.
  assert (∀ (P : Prop) (m : message) (l : list line),
    Forall (λ x, x ≠ Sim m) l → (Sim m ∉ l) ∧ (Sim m ∈ l → P)) as Hnone.
  { intros P m l Hl. rewrite Forall_forall in Hl. split.
    - intros Hin. by apply (Hl _ Hin).
    - intros Hin. by destruct (Hl _ Hin). }
  destruct (nodes_csv fs) as [nodes|] eqn:Hn.
  2: { rewrite main_missing_file_run by (left; done). cbn [snd console].
       split; [apply (Hnone True)|apply Hnone]; by repeat constructor. }
  destruct (edges_csv fs) as [edges|] eqn:He.
  2: { rewrite main_missing_file_run by (right; done). cbn [snd console].
       split; [apply (Hnone True)|apply Hnone]; by repeat constructor. }
  destruct (main_ends solve fuel rnd_start rnd_end rnd_edge fs nodes edges
              Hn He) as [[Hres Hno]|(s & t & _ & _ & Hs & Ht & Hcases)];
    lazy zeta in *.
  { rewrite Hres. cbn [snd console].
    split; [apply (Hnone True)|apply Hnone]; by repeat constructor. }
  destruct Hcases as [(k & row & _ & Hres & _)|[[_ Hres]|[[_ Hres]|Hrun]]];
    [rewrite Hres; cbn [snd console];
     (split; [apply (Hnone True)|apply Hnone]; by repeat constructor)..|].
  destruct Hrun as (R & cost1 & rows' & msgs & coords1 & _ & HR & _ & Hmsgs
                    & _ & Hres).
  assert (∀ l,
    let con := ([info_initiating; info_optimizing s t; header_normal;
                 line_optimal_path (route_nodes edges s R);
                 line_total_cost cost1]
                ++ (Sim <$> msgs) ++ [header_post_disruption]) ++ l in
    Forall (λ x, ∃ txt, x = Text txt) l →
    (Sim WARNING_path_edges_not_found ∉ con) ∧
    (Sim WARNING_empty_path ∈ con →
     ∃ nodes0 s0,
       Some nodes = Some nodes0 ∧
       s0 ∈ node_id <$> filter (λ node, node_type node = "supplier") nodes0 ∧
       s0 ∈ node_id <$> filter (λ node, node_type node = "market") nodes0))
    as Hcon.
  { intros l con Hl. rewrite Forall_forall in Hl.
    assert (∀ m, Sim m ∈ con → m ∈ msgs) as Hsim.
    { intros m. unfold con.
      rewrite !elem_of_app, !elem_of_cons, list_elem_of_fmap.
      intros [[H|[(m' & [= ->] & H)|H]]|H]; [|done| |].
      - destruct H as [H|[H|[H|[H|[H|H]]]]]; try discriminate H.
        by apply elem_of_nil in H.
      - destruct H as [H|H]; [discriminate H|].
        by apply elem_of_nil in H.
      - by destruct (Hl _ H). }
    split.
    - intros Hin%Hsim.
      destruct Hmsgs as [(_ & _ & ->)|(k & row & _ & _ & _ & ->)];
        by apply list_elem_of_singleton in Hin.
    - intros Hin%Hsim.
      destruct Hmsgs as [(-> & _ & _)|(k & row & _ & _ & _ & ->)].
      + inversion HR; subst. by exists nodes, t.
      + by apply list_elem_of_singleton in Hin. }
  destruct Hres as [[_ Hres]|[[_ Hres]|Hres]].
  - rewrite Hres. cbn [snd console].
    rewrite <- (app_nil_r (_ ++ _ ++ [header_post_disruption])).
    by apply Hcon.
  - rewrite Hres. cbn [snd console].
    rewrite <- (app_nil_r (_ ++ _ ++ [header_post_disruption])).
    by apply Hcon.
  - destruct Hres as (path2 & cost2 & coords2 & _ & _ & Hres).
    rewrite Hres. cbn [snd console]. apply Hcon.
    repeat constructor; by eexists.
Qed.

(** X20. [main] never changes the table it loaded: at the end of every
    run object 0 of the store still holds the rows of [edges.csv], and
    every table of the store has the same sources and targets, row by
    row. *)
Theorem main_keeps_loaded_table
    solve fuel rnd_start rnd_end rnd_edge fs nodes edges :
  nodes_csv fs = Some nodes → edges_csv fs = Some edges →
  let res := main solve fuel rnd_start rnd_end rnd_edge fs in
  tables res.2 !! 0 = Some edges ∧
  ∀ r rows, tables res.2 !! r = Some rows →
    (λ row, (source row, target row)) <$> rows
    = (λ row, (source row, target row)) <$> edges.
Proof.
  intros Hn He res. unfold res. clear res.
  assert (∀ T : gmap nat (list EdgeRow), T = {[0 := edges]} →
    T !! 0 = Some edges ∧
    ∀ r rows, T !! r = Some rows →
      (λ row, (source row, target row)) <$> rows
      = (λ row, (source row, target row)) <$> edges) as Hone.
  { intros T ->. split; [apply lookup_singleton_eq|].
    by intros r rows [_ <-]%lookup_singleton_Some. }
  assert (∀ rows', 
    (λ row, (source row, target row)) <$> rows'
    = (λ row, (source row, target row)) <$> edges →
    let T : gmap nat (list EdgeRow) :=
      <[fresh (dom ({[0 := edges]} : gmap nat (list EdgeRow))) := rows']>
        {[0 := edges]} in
    T !! 0 = Some edges ∧
    ∀ r rows, T !! r = Some rows →
      (λ row, (source row, target row)) <$> rows
      = (λ row, (source row, target row)) <$> edges) as Htwo.
  { intros rows' Hends T. unfold T. split.
    - rewrite lookup_insert_ne; [apply lookup_singleton_eq|].
      eapply fresh_ref_ne. apply lookup_singleton_eq.
    - intros r rows [[_ <-]|[_ [_ <-]%lookup_singleton_Some]]%lookup_insert_Some;
        done. }
  destruct (main_ends solve fuel rnd_start rnd_end rnd_edge fs nodes edges
              Hn He) as [[Hres Hno]|(s & t & _ & _ & _ & _ & Hcases)];
    lazy zeta in *.
  { rewrite Hres. by apply Hone. }
  destruct Hcases as [(k & row & _ & Hres & _)|[[_ Hres]|[[_ Hres]|Hrun]]];
    [rewrite Hres; by apply Hone..|].
  destruct Hrun as (R & cost1 & rows' & msgs & coords1 & _ & _ & Hends & _
                    & _ & [[_ Hres]|[[_ Hres]|Hres]]);
    [rewrite Hres; by apply Htwo..|].
  destruct Hres as (path2 & cost2 & coords2 & _ & _ & Hres).
  rewrite Hres. by apply Htwo.
Qed.

Lemma main_keeps_loaded_table_witness :
  let res := main demo_solve 4 0 0 1 demo_files in
  tables res.2 !! 0 = Some demo_edges ∧
  ∀ r rows, tables res.2 !! r = Some rows →
    (λ row, (source row, target row)) <$> rows
    = (λ row, (source row, target row)) <$> demo_edges.
Proof.
  apply (main_keeps_loaded_table demo_solve 4 0 0 1 demo_files
           demo_nodes demo_edges); reflexivity.
Defined.


(** Under a sound solver a call on a graph without a route from the
    start to the end returns [(None, None)]. *)
Lemma find_optimal_no_route solve fuel nodes_df edges_df s_id t_id w :
  is_Some (create_id_to_index_mapping (node_id <$> nodes_df) !! s_id) →
  is_Some (create_id_to_index_mapping (node_id <$> nodes_df) !! t_id) →
  edges_resolve (create_id_to_index_mapping (node_id <$> nodes_df)) edges_df →
  sound_on solve nodes_df edges_df s_id t_id w →
  (¬ ∃ R, route edges_df s_id R t_id) →
  find_optimal_path_ortools solve fuel nodes_df edges_df s_id t_id w
  = Ret None.
Proof.
  intros [s Hs] [t Ht] Hres Hsound Hno.
  assert (s_id ≠ t_id) as Hst.
  { intros ->. apply Hno. exists []. constructor. }
  destruct (problem_of_exists nodes_df edges_df s_id t_id w s t Hs Ht Hres)
    as (smcf & Hp & Hprob).
  rewrite (find_optimal_eq _ _ _ _ _ _ _ s smcf Hs Hp).
  case_decide as Hopt; [|done].
  destruct (Hsound smcf Hp Hopt) as [Hf _].
  destruct Hno.
  by eapply (solve_feasible_route nodes_df edges_df s_id t_id w s t smcf).
Qed.

Lemma typed_id_known (nodes : list NodeRow) ty i :
  i ∈ node_id <$> filter (λ node, node_type node = ty) nodes →
  i ∈ node_id <$> nodes.
Proof.
  intros (node & -> & [_ Hin]%list_elem_of_filter)%list_elem_of_fmap.
  apply list_elem_of_fmap. eauto.
Qed.

(** X21. With both files read, edges that name known nodes, a solver
    that is sound on the problem, and no route from the supplier drawn
    to the market drawn, [main] prints that no path was found and
    returns; it simulates no disruption and saves no map. *)
Theorem main_reports_no_path
    solve fuel rnd_start rnd_end rnd_edge fs nodes edges s t :
  nodes_csv fs = Some nodes → edges_csv fs = Some edges →
  choice rnd_start
    (node_id <$> filter (λ node, node_type node = "supplier") nodes) = inr s →
  choice rnd_end
    (node_id <$> filter (λ node, node_type node = "market") nodes) = inr t →
  edges_resolve (create_id_to_index_mapping (node_id <$> nodes)) edges →
  sound_on solve nodes edges s t cost_eur →
  (¬ ∃ R, route edges s R t) →
  main solve fuel rnd_start rnd_end rnd_edge fs =
    (Ret (),
     {| tables := {[0 := edges]}; maps := ∅;
        console := [info_initiating; info_optimizing s t; header_normal;
                    info_no_path s t];
        disk := ∅ |}).
Proof.
  intros Hn He Hs Ht Hres Hsound Hno.
  rewrite (main_loaded _ _ _ _ _ _ _ _ Hn He). lazy zeta.
  rewrite Hs, Ht.
  rewrite (find_optimal_no_route solve fuel nodes edges s t cost_eur);
    [done| | |done..].
  - apply id_to_index_is_Some. eapply typed_id_known.
    apply choice_lookup in Hs. by eapply list_elem_of_lookup_2.
  - apply id_to_index_is_Some. eapply typed_id_known.
    apply choice_lookup in Ht. by eapply list_elem_of_lookup_2.
Qed.

Lemma main_reports_no_path_witness :
  main refusing_solve 2 0 0 0 pair_no_edges_files =
    (Ret (),
     {| tables := {[0 := []]}; maps := ∅;
        console := [info_initiating; info_optimizing "S" "M"; header_normal;
                    info_no_path "S" "M"];
        disk := ∅ |}).
Proof.
  apply (main_reports_no_path refusing_solve 2 0 0 0 pair_no_edges_files
           pair_nodes [] "S" "M").
  - reflexivity.
  - reflexivity.
  - reflexivity.
  - reflexivity.
  - intros row Hrow. by apply elem_of_nil in Hrow.
  - intros smcf _ Hopt. discriminate Hopt.
  - intros [R HR]. inversion HR as [|? i row R' ? Hi]; subst.
    discriminate Hi.
Defined.






(** ** The problem handed to the solver *)

(** X24. The problem that the call builds mirrors the edge table: one
    arc per row, in row order, from the index of the row's source to
    the index of its target, with capacity 1 and the row's cost
    truncated to an integer; parallel rows stay parallel arcs.  The
    supply is -1 at the end node, +1 at the start node when it is
    another node, and 0 elsewhere. *)
Theorem built_problem_mirrors_table nodes_df edges_df s_id t_id w smcf :
  problem_of nodes_df edges_df s_id t_id w = Some smcf →
  ∃ s t,
    create_id_to_index_mapping (node_id <$> nodes_df) !! s_id = Some s ∧
    create_id_to_index_mapping (node_id <$> nodes_df) !! t_id = Some t ∧
    num_arcs smcf = length edges_df ∧
    (∀ i row, edges_df !! i = Some row →
       create_id_to_index_mapping (node_id <$> nodes_df) !! source row
       = Some (tail_of smcf i) ∧
       create_id_to_index_mapping (node_id <$> nodes_df) !! target row
       = Some (head_of smcf i) ∧
       capacity_of smcf i = 1%Z ∧
       unit_cost_of smcf i = int (w row)) ∧
    ∀ v, supply_of smcf v =
         if decide (v = t) then (-1)%Z
         else if decide (v = s) then 1%Z else 0%Z.
Proof.
  intros (s & t & Hs & Ht & Hprob)%problem_of_Some.
  exists s, t. split; [done|]. split; [done|].
  pose proof (flow_problem_length _ _ _ _ _ _ Hprob) as Hlen.
  split; [done|]. split.
  - intros i row Hrow.
    destruct (flow_problem_arc _ _ _ _ _ _ i Hprob)
      as (row' & Hrow' & Hsrc & Htgt & Hcap & Hcost).
    { rewrite Hlen. by eapply lookup_lt_Some. }
    assert (row' = row) as -> by congruence. done.
  - intros v. by apply (flow_problem_supply _ _ _ _ _ _ _ Hprob).
Qed.

Lemma built_problem_mirrors_table_witness :
  ∃ s t,
    create_id_to_index_mapping (node_id <$> demo_nodes) !! "S" = Some s ∧
    create_id_to_index_mapping (node_id <$> demo_nodes) !! "M" = Some t ∧
    num_arcs demo_smcf = length demo_edges ∧
    (∀ i row, demo_edges !! i = Some row →
       create_id_to_index_mapping (node_id <$> demo_nodes) !! source row
       = Some (tail_of demo_smcf i) ∧
       create_id_to_index_mapping (node_id <$> demo_nodes) !! target row
       = Some (head_of demo_smcf i) ∧
       capacity_of demo_smcf i = 1%Z ∧
       unit_cost_of demo_smcf i = int (cost_eur row)) ∧
    ∀ v, supply_of demo_smcf v =
         if decide (v = t) then (-1)%Z
         else if decide (v = s) then 1%Z else 0%Z.
Proof.
  apply (built_problem_mirrors_table demo_nodes demo_edges "S" "M" cost_eur
           demo_smcf).
  by vm_compute.
Defined.

(** X25. The two ids that [main] passes to the solving function are
    drawn from the node table, so they always resolve: the branch of
    [find_optimal_path_ortools] for a missing start or end node is
    never taken from [main].  [main] therefore ends with the line that
    no path was found exactly when the problem was built and the
    solver did not answer [OPTIMAL]. *)
Theorem main_no_path_means_not_optimal
    solve fuel rnd_start rnd_end rnd_edge fs nodes edges s t :
  nodes_csv fs = Some nodes → edges_csv fs = Some edges →
  choice rnd_start
    (node_id <$> filter (λ node, node_type node = "supplier") nodes) = inr s →
  choice rnd_end
    (node_id <$> filter (λ node, node_type node = "market") nodes) = inr t →
  is_Some (create_id_to_index_mapping (node_id <$> nodes) !! s) ∧
  is_Some (create_id_to_index_mapping (node_id <$> nodes) !! t) ∧
  (main solve fuel rnd_start rnd_end rnd_edge fs =
     (Ret (),
      {| tables := {[0 := edges]}; maps := ∅;
         console := [info_initiating; info_optimizing s t; header_normal;
                     info_no_path s t];
         disk := ∅ |}) ↔
   ∃ smcf, problem_of nodes edges s t cost_eur = Some smcf ∧
           status (solve smcf) ≠ OPTIMAL).
Proof.
  intros Hn He Hs Ht.
  assert (is_Some (create_id_to_index_mapping (node_id <$> nodes) !! s))
    as [si Hsi].
  { apply id_to_index_is_Some. eapply typed_id_known.
    apply choice_lookup in Hs. by eapply list_elem_of_lookup_2. }
  assert (is_Some (create_id_to_index_mapping (node_id <$> nodes) !! t))
    as [ti Hti].
  { apply id_to_index_is_Some. eapply typed_id_known.
    apply choice_lookup in Ht. by eapply list_elem_of_lookup_2. }
  split; [by eexists|]. split; [by eexists|].
  assert (find_optimal_path_ortools solve fuel nodes edges s t cost_eur
          = Ret None ↔
          ∃ smcf, problem_of nodes edges s t cost_eur = Some smcf ∧
                  status (solve smcf) ≠ OPTIMAL) as <-.
  { split.
    - intros Hnone.
      destruct (problem_of nodes edges s t cost_eur) as [smcf|] eqn:Hp.
      + exists smcf. split; [done|]. intros Hopt.
        rewrite (find_optimal_eq _ _ _ _ _ _ _ si smcf Hsi Hp) in Hnone.
        rewrite decide_True in Hnone by done.
        by destruct (reconstruct _ _ _ _ _ _ _).
      + unfold problem_of in Hp. unfold find_optimal_path_ortools in Hnone.
        rewrite Hsi, Hti in Hp, Hnone.
        by destruct (flow_problem _ _ _ _ _).
    - intros (smcf & Hp & Hst).
      rewrite (find_optimal_eq _ _ _ _ _ _ _ si smcf Hsi Hp).
      by rewrite decide_False. }
  split.
  - intros Hmain.
    destruct (main_ends solve fuel rnd_start rnd_end rnd_edge fs nodes edges
                Hn He) as [[Hend _]|(s' & t' & Hs' & Ht' & _ & _ & Hcases)];
      lazy zeta in *.
    { rewrite Hend in Hmain. done. }
    assert (s' = s) as -> by congruence.
    assert (t' = t) as -> by congruence.
    destruct Hcases as [(k & row & _ & Hend & _)|[[_ Hend]|[[Hnone _]|Hrun]]];
      [rewrite Hend in Hmain; done..|done|].
    destruct Hrun as (R & cost1 & rows' & msgs & coords1 & _ & _ & _ & _
                      & _ & [[_ Hend]|[[_ Hend]|Hend]]).
    + rewrite Hend in Hmain. done.
    + rewrite Hend in Hmain. done.
    + destruct Hend as (path2 & cost2 & coords2 & _ & _ & Hend).
      rewrite Hend in Hmain. done.
  - intros Hnone. rewrite (main_loaded _ _ _ _ _ _ _ _ Hn He). lazy zeta.
    by rewrite Hs, Ht, Hnone.
Qed.

Lemma main_no_path_means_not_optimal_witness :
  is_Some (create_id_to_index_mapping (node_id <$> pair_nodes) !! "S") ∧
  is_Some (create_id_to_index_mapping (node_id <$> pair_nodes) !! "M") ∧
  (main refusing_solve 2 0 0 0 pair_no_edges_files =
     (Ret (),
      {| tables := {[0 := []]}; maps := ∅;
         console := [info_initiating; info_optimizing "S" "M"; header_normal;
                     info_no_path "S" "M"];
         disk := ∅ |}) ↔
   ∃ smcf, problem_of pair_nodes [] "S" "M" cost_eur = Some smcf ∧
           status (refusing_solve smcf) ≠ OPTIMAL).
Proof.
  apply (main_no_path_means_not_optimal refusing_solve 2 0 0 0
           pair_no_edges_files pair_nodes [] "S" "M"); reflexivity.
Defined.
